(** * polyhedra-viewer: operation utilities, transformation graph, reducer

    A shallow embedding of
      - [src/utils.ts]                          ([getCyclic] and its helper),
      - [src/constants/relations.js]            (the transformation graph),
      - [src/reducers/polyhedron.js]            (the polyhedron reducer),
      - [src/math/operations/operationUtils.js] (vertex clean-up and
        duplication),
    together with the properties the specification states about them. *)

From stdpp Require Import gmap strings list fin_maps.
From Stdlib Require Import ZArith.


(** ** JavaScript values and outcomes *)

(** A call either returns or throws. *)
Inductive JsError := TypeError | Error (message : string).

Inductive Outcome (A : Type) :=
| Returns (a : A)
| Throws (e : JsError).
Arguments Returns {A} a.
Arguments Throws {A} e.

(** The values a cell of the transformation tables can hold: a Conway
    name, [null], or (when an array is read past its end) [undefined]. *)
Inductive JsValue := JsUndefined | JsNull | JsString (s : string).

#[global] Instance JsValue_eq_dec : EqDecision JsValue.
Proof. solve_decision. Defined.

(** [!x] is false exactly for the truthy values: a non-empty string. *)
Definition truthy (x : JsValue) : bool :=
  match x with
  | JsString s => negb (bool_decide (s = ""))
  | _ => false
  end.

(** ** [src/utils.ts] *)
Module Utils.

(** [a % b] on integers: truncated remainder, [NaN] (here [None]) for a
    zero divisor. *)
Definition jsRem (a b : Z) : option Z :=
  if decide (b = 0)%Z then None else Some (Z.rem a b).

(** [function mod(a, b) { return a >= 0 ? a % b : (a % b) + b }] *)
Definition mod_ (a b : Z) : option Z :=
  if decide (0 <= a)%Z then jsRem a b
  else (fun r => (r + b)%Z) <$> jsRem a b.

(** [array[i]] for a number [i]: [undefined] ([None]) unless [i] is an
    index of the array. *)
Definition jsIndex {T} (array : list T) (i : option Z) : option T :=
  match i with
  | Some z => if decide (0 <= z)%Z then array !! Z.to_nat z else None
  | None => None
  end.

(** [getCyclic(array, index) = array[mod(index, array.length)]] *)
Definition getCyclic {T} (array : list T) (index : Z) : option T :=
  jsIndex array (mod_ index (Z.of_nat (length array))).

(** [repeat(value, n) = Array(n).fill(value)] *)
Definition repeat {T} (value : T) (n : nat) : list T := replicate n value.

(** [flatMap] of [util.js]. *)
Definition flatMap {T U} (arr : list T) (iteratee : T → list U) : list U :=
  mjoin (iteratee <$> arr).

(** A relative index of [slice]: counted from the end when negative, and
    kept within the array. *)
Definition relativeIndex (len : nat) (i : Z) : nat :=
  if decide (i < 0)%Z then Z.to_nat (Z.max (Z.of_nat len + i) 0)
  else Z.to_nat (Z.min i (Z.of_nat len)).

(** [list.slice(start, end)] and [list.slice(start)], for integer
    arguments. *)
Definition slice {T} (array : list T) (start : Z) (end_ : option Z) : list T :=
  let len := length array in
  let k := relativeIndex len start in
  let final := from_option (relativeIndex len) len end_ in
  take (final - k) (drop k array).

(** [splitAt(list, index) = [list.slice(0, index), list.slice(index)]] *)
Definition splitAt {T} (array : list T) (index : Z) : list T * list T :=
  (slice array 0 (Some index), slice array index None).

(** [list.indexOf(value)]: the first index that holds the value, [-1]
    when there is none.  The values are compared with [===], taken here
    to be equality (so no [NaN] among them). *)
Fixpoint indexOfFrom {T} `{EqDecision T} (i : nat) (array : list T) (value : T)
  : Z :=
  match array with
  | [] => (-1)%Z
  | x :: rest =>
      if decide (x = value) then Z.of_nat i else indexOfFrom (S i) rest value
  end.
Definition indexOf {T} `{EqDecision T} (array : list T) (value : T) : Z :=
  indexOfFrom 0 array value.

(** [pivot(list, value)] *)
Definition pivot {T} `{EqDecision T} (array : list T) (value : T) : list T :=
  let index := indexOf array value in
  let (front, back) := splitAt array index in
  back ++ front.

(** [uniqBy] of lodash: the first element for every key, in order. *)
Fixpoint uniqByFrom {U K} `{EqDecision K} (seen : list K) (array : list U)
    (iteratee : U → K) : list U :=
  match array with
  | [] => []
  | x :: rest =>
      if decide (iteratee x ∈ seen) then uniqByFrom seen rest iteratee
      else x :: uniqByFrom (iteratee x :: seen) rest iteratee
  end.
Definition uniqBy {U K} `{EqDecision K} (array : list U) (iteratee : U → K)
  : list U := uniqByFrom [] array iteratee.

(** [flatMapUniq(arr, iteratee1, iteratee2)
      = uniqBy(arr.flatMap(iteratee1), iteratee2)] *)
Definition flatMapUniq {T U K} `{EqDecision K} (arr : list T)
    (iteratee1 : T → list U) (iteratee2 : U → K) : list U :=
  uniqBy (mjoin (iteratee1 <$> arr)) iteratee2.

(** [mapObject(arr, iteratee) = Object.fromEntries(arr.map(iteratee))]:
    the own properties of the object made; a later entry with the same key
    replaces an earlier one. *)
Definition mapObject {T U} (arr : list T) (iteratee : T → nat → string * U)
  : gmap string U :=
  foldl (fun obj (entry : string * U) => <[entry.1 := entry.2]> obj) ∅
        (imap (fun i item => iteratee item i) arr).

(** [escape(str) = str.replace(/ /g, '-')] *)
Definition space : Ascii.ascii := Ascii.ascii_of_nat 32.
Definition hyphen : Ascii.ascii := Ascii.ascii_of_nat 45.
Fixpoint escape (str : string) : string :=
  match str with
  | EmptyString => EmptyString
  | String c rest =>
      String (if decide (c = space) then hyphen else c) (escape rest)
  end.

End Utils.

(** ** [src/constants/relations.js] *)
Module Relations.

(** [getInverseOperation]: the [switch] over the operation symbol. *)
Definition getInverseOperation (operation : string) : string :=
  if decide (operation = "d") then operation
  else if decide (operation = "g") then operation
  else if decide (operation = "+") then "-"
  else if decide (operation = "-") then "+"
  else "~" +:+ operation.

(** The four symbols with an inverse of their own. *)
Definition pairedSymbols : list string := ["d"; "g"; "+"; "-"].

(** *** Objects used as ordered maps

    The graphs are plain objects keyed by Conway names and operation
    symbols.  [Object.entries] enumerates such keys in insertion order,
    and the order decides the order of the candidate arrays, so an object
    is kept as the list of its own properties in insertion order.  The
    names of the tables are never names inherited from
    [Object.prototype], so [obj[k]] is the own property or [undefined]. *)
Definition JsObject (V : Type) := list (string * V).

(** [obj[k]] *)
Fixpoint objGet {V} (obj : JsObject V) (k : string) : option V :=
  match obj with
  | [] => None
  | (k', v) :: rest => if decide (k' = k) then Some v else objGet rest k
  end.

(** [obj[k] = v]: an existing key keeps its place, a new one goes last. *)
Fixpoint objSet {V} (obj : JsObject V) (k : string) (v : V) : JsObject V :=
  match obj with
  | [] => [(k, v)]
  | (k', v') :: rest =>
      if decide (k' = k) then (k, v) :: rest else (k', v') :: objSet rest k v
  end.

Definition keys {V} (obj : JsObject V) : list string := fst <$> obj.

(** A table cell as written in the source: one name or an array. *)
Inductive Cell := One (v : JsValue) | Many (vs : list JsValue).

Definition RawGraph := JsObject (JsObject Cell).
Definition Graph := JsObject (JsObject (list JsValue)).

(** [_.castArray] *)
Definition castArray (c : Cell) : list JsValue :=
  match c with
  | One v => [v]
  | Many vs => vs
  end.

(** [_.mapValues] *)
Definition mapValues {A B} (obj : JsObject A) (f : A → B) : JsObject B :=
  (fun e => (e.1, f e.2)) <$> obj.

(** [normalize]: make everything an array. *)
Definition normalize (graph : RawGraph) : Graph :=
  mapValues graph (fun ops => mapValues ops castArray).

(** [_.mergeWith(object, source, customizer)] one level below a solid:
    the customizer concatenates when the destination already holds an
    array; otherwise the source array is copied. *)
Definition mergeOperations (object source : JsObject (list JsValue))
  : JsObject (list JsValue) :=
  foldl (fun acc (e : string * list JsValue) =>
           match objGet acc e.1 with
           | Some objValue => objSet acc e.1 (objValue ++ e.2)
           | None => objSet acc e.1 e.2
           end) object source.

(** [_.mergeWith(object, source, customizer)] at the level of solids:
    the customizer returns [undefined] for two objects, so they are
    merged recursively (into a fresh object when the destination has no
    such solid). *)
Definition mergeWith (object source : Graph) : Graph :=
  foldl (fun acc (e : string * JsObject (list JsValue)) =>
           match objGet acc e.1 with
           | Some objValue => objSet acc e.1 (mergeOperations objValue e.2)
           | None => objSet acc e.1 (mergeOperations [] e.2)
           end) object source.

(** [graphMerge(object, ...other)] *)
Definition graphMerge (object : Graph) (other : list Graph) : Graph :=
  foldl mergeWith object other.

(** The body of the innermost loop of [makeBidirectional]. *)
Definition addReverse (source operation : string) (result : Graph)
    (sink : JsValue) : Graph :=
  match sink with
  | JsString sinkName =>
      if negb (truthy sink) then result
      else
        let result1 :=
          match objGet result sinkName with
          | Some _ => result
          | None => objSet result sinkName []
          end in
        let reverseOp := getInverseOperation operation in
        let ops := default [] (objGet result1 sinkName) in
        let ops1 :=
          match objGet ops reverseOp with
          | Some _ => ops
          | None => objSet ops reverseOp []
          end in
        if decide (sinkName = source) then objSet result1 sinkName ops1
        else
          objSet result1 sinkName
            (objSet ops1 reverseOp
               (default [] (objGet ops1 reverseOp) ++ [JsString source]))
  | _ => result
  end.

(** [makeBidirectional] *)
Definition makeBidirectional (graph : Graph) : Graph :=
  let result :=
    foldl (fun result (entry : string * JsObject (list JsValue)) =>
             foldl (fun result (opEntry : string * list JsValue) =>
                      foldl (addReverse entry.1 opEntry.1) result opEntry.2)
                   result entry.2)
          [] graph in
  graphMerge result [graph].

Definition name (s : string) : Cell := One (JsString s).
Definition names (l : list string) : Cell := Many (JsString <$> l).

Definition archimedean : RawGraph :=
  [ ("T", [("d", name "T"); ("t", name "tT"); ("r", name "O")]);
    ("C", [("d", name "O"); ("t", name "tC"); ("r", name "aC");
           ("e", name "eC")]);
    ("O", [("t", name "tO"); ("r", name "aC"); ("e", name "eC");
           ("s", name "I")]);
    ("aC", [("t", name "bC"); ("r", name "eC"); ("s", name "sC")]);
    ("D", [("d", name "D"); ("t", name "tD"); ("r", name "aD");
           ("e", name "eD")]);
    ("I", [("t", name "tI"); ("r", name "aD"); ("e", name "eD")]);
    ("aD", [("t", name "bD"); ("r", name "eD"); ("s", name "sD")]) ].

Definition diminishedIcosahedraGraph : RawGraph :=
  [ ("J63", [("+", names ["J62"; "J64"])]);
    ("J62", [("+", name "J11")]) ].

Definition rhombicosidodecahedraGraph : RawGraph :=
  [ ("eD", [("g", name "J72"); ("-", name "J76")]);
    ("J72", [("g", names ["J73"; "J74"]);
             ("-", names ["J76"; "J77"; "J78"])]);
    ("J73", [("-", name "J77")]);
    ("J74", [("g", name "J75"); ("-", names ["J78"; "J79"])]);
    ("J75", [("-", names ["J79"])]);
    ("J76", [("g", names ["J77"; "J78"]); ("-", names ["J80"; "J81"])]);
    ("J77", [("-", name "J80")]);
    ("J78", [("-", names ["J81"; "J82"])]);
    ("J79", [("-", names ["J82"])]);
    ("J81", [("g", name "J82"); ("-", name "J83")]);
    ("J82", [("-", name "J83")]) ].

Definition othersGraph : RawGraph :=
  [ ("T", [("s", name "J84")]);
    ("A4", [("s", name "J85")]);
    ("J86", [("+", name "J87")]) ].

Section PolyhedraGraph.
(** The two sub-graphs are computed from the table of
    [constants/periodicTable], and the name translations come from
    [constants/polyhedra]; both are taken as given here. *)
Variables basePyramidsCupolae baseAugmentations : RawGraph.
Variable toConwayNotation : string → Outcome string.
Variable fromConwayNotation : JsValue → Outcome string.

Definition normalized : list Graph :=
  normalize <$>
    [ archimedean; basePyramidsCupolae; baseAugmentations;
      diminishedIcosahedraGraph; rhombicosidodecahedraGraph;
      othersGraph ].

(** [graphMerge(...normalized)] *)
Definition baseGraph : Graph :=
  match normalized with
  | [] => []
  | object :: other => graphMerge object other
  end.

Definition polyhedraGraph : Graph := makeBidirectional baseGraph.

(** [getNextPolyhedron]: reading a property of [undefined] is a
    [TypeError]; [next[0]] of an empty array is [undefined]. *)
Definition getNextPolyhedron (solid operation : string) : Outcome string :=
  match toConwayNotation solid with
  | Throws e => Throws e
  | Returns conway =>
      match objGet polyhedraGraph conway with
      | None => Throws TypeError
      | Some ops =>
          match objGet ops operation with
          | None => Throws TypeError
          | Some next =>
              if decide (1 < length next) then
                Throws
                  (Error
                     "Cannot deal with more than one possibility right now")
              else fromConwayNotation (nth 0 next JsUndefined)
          end
      end
  end.
End PolyhedraGraph.

(** [graph[solid][operation]], when both properties exist. *)
Definition candidatesOf (graph : Graph) (solid operation : string)
  : option (list JsValue) :=
  objGet graph solid ≫= fun ops => objGet ops operation.

(** The candidates of [(solid, operation)], empty when there are none. *)
Definition sinksOf (graph : Graph) (solid operation : string)
  : list JsValue :=
  default [] (candidatesOf graph solid operation).

(** [source --operation--> sink] is an edge of [graph]. *)
Definition edge (graph : Graph) (source operation : string)
    (sink : JsValue) : Prop :=
  sink ∈ sinksOf graph source operation.

(** What one declared edge [source --operation--> sink] adds to the
    candidates of [(target, reverseOp)] while the reverse edges are
    collected. *)
Definition reverseOfEdge (target reverseOp source operation : string)
    (sink : JsValue) : list JsValue :=
  if decide (sink = JsString target ∧ target ≠ ""
             ∧ getInverseOperation operation = reverseOp
             ∧ target ≠ source)
  then [JsString source] else [].

(** The reverse edges into [(target, reverseOp)], in the order in which
    the declared edges are enumerated. *)
Definition reverseSources (graph : Graph) (target reverseOp : string)
  : list JsValue :=
  mjoin ((fun entry : string * JsObject (list JsValue) =>
            mjoin ((fun opEntry : string * list JsValue =>
                      mjoin (reverseOfEdge target reverseOp entry.1 opEntry.1
                               <$> opEntry.2))
                     <$> entry.2))
           <$> graph).

(** How often a value occurs among candidates. *)
Definition occurrences (x : JsValue) (candidates : list JsValue) : nat :=
  length (filter (fun y => y = x) candidates).

(** Own keys of an object are pairwise different, at both levels. *)
Definition wfGraph (graph : Graph) : Prop :=
  NoDup (keys graph) ∧ Forall (fun e => NoDup (keys e.2)) graph.

End Relations.

(** ** [src/reducers/polyhedron.js] *)
Module Reducer.

(** What [obj[key]] finds on an object literal: an own property, a
    method inherited from [Object.prototype], the prototype object
    itself (the [__proto__] accessor), or nothing. *)
Inductive Property (F : Type) :=
| Own (f : F)
| InheritedMethod (key : string)
| InheritedObject
| Undefined.
Arguments Own {F} f.
Arguments InheritedMethod {F} key.
Arguments InheritedObject {F}.
Arguments Undefined {F}.

(** The methods every object literal inherits from [Object.prototype]. *)
Definition objectPrototypeMethods : list string :=
  [ "constructor"; "hasOwnProperty"; "isPrototypeOf";
    "propertyIsEnumerable"; "toLocaleString"; "toString"; "valueOf";
    "__defineGetter__"; "__defineSetter__"; "__lookupGetter__";
    "__lookupSetter__" ].

(** [literal[key]] for an object literal with the given own properties. *)
Definition literalGet {F} (own : Relations.JsObject F) (key : string)
  : Property F :=
  match Relations.objGet own key with
  | Some f => Own f
  | None =>
      if decide (key ∈ objectPrototypeMethods) then InheritedMethod key
      else if decide (key = "__proto__") then InheritedObject
      else Undefined
  end.

Section Polyhedron.
(** [Data] stands for whatever [state.data] holds, [Config] for the
    configuration handed to an operation.  [isValidSolid]
    ([constants/polyhedra]), [Polyhedron.get] ([math/Polyhedron]) and
    the three operations ([math/operations]) are imported by the
    reducer; [callInherited key data config] is the value of
    [operations[key](data, config)] for an inherited method. *)
Variables Data Config : Type.
Variable isValidSolid : string → bool.
Variable Polyhedron_get : string → Outcome Data.
Variables augment diminish gyrate : Data → Config → Outcome Data.
Variable callInherited : string → Data → Config → Outcome Data.

Record State := { name : string; data : Data }.

Inductive Action :=
| SET_POLYHEDRON (name : string)
| APPLY_OPERATION (operation name : string) (config : Config)
| OtherAction (type : string).

(** [setPolyhedron] and [applyOperation], the action creators. *)
Definition setPolyhedron (name : string) : Action := SET_POLYHEDRON name.
Definition applyOperation (operation name : string) (config : Config)
  : Action := APPLY_OPERATION operation name config.

(** [const operations = { '+': augment, '-': diminish, g: gyrate }] *)
Definition operations : Relations.JsObject (Data → Config → Outcome Data) :=
  [ ("+", augment); ("-", diminish); ("g", gyrate) ].

(** The operation symbols of the table. *)
Definition knownSymbols : list string := Relations.keys operations.

(** [polyhedron(state, action)]: functions and objects are truthy, so
    the guard [!operations[action.operation]] lets every property that
    is found through; calling one that is not a function is a
    [TypeError]. *)
Definition polyhedron (state : State) (action : Action) : Outcome State :=
  match action with
  | SET_POLYHEDRON name' =>
      if negb (isValidSolid name') then Returns state
      else
        match Polyhedron_get name' with
        | Returns d => Returns {| name := name'; data := d |}
        | Throws e => Throws e
        end
  | APPLY_OPERATION operation name' config =>
      let apply (f : Data → Config → Outcome Data) :=
        match f (data state) config with
        | Returns d => Returns {| name := name'; data := d |}
        | Throws e => Throws e
        end in
      match literalGet operations operation with
      | Undefined => Returns state
      | Own f => apply f
      | InheritedMethod key => apply (callInherited key)
      | InheritedObject => Throws TypeError
      end
  | OtherAction _ => Returns state
  end.
End Polyhedron.

Arguments Build_State {Data} name data.
Arguments name {Data} s.
Arguments data {Data} s.
Arguments SET_POLYHEDRON {Config} name.
Arguments APPLY_OPERATION {Config} operation name config.
Arguments OtherAction {Config} type.
Arguments setPolyhedron {Config} name.
Arguments applyOperation {Config} operation name config.
Arguments operations {Data Config} augment diminish gyrate.
Arguments knownSymbols {Data Config} augment diminish gyrate.
Arguments polyhedron {Data Config} isValidSolid Polyhedron_get
  augment diminish gyrate callInherited state action.

End Reducer.

(** ** [src/math/operations/operationUtils.js] *)
Module OperationUtils.

(** [_.uniq]: the first occurrence of every value, in order; the result
    built so far is what later values are compared with. *)
Fixpoint uniqFrom (seen : list nat) (array : list nat) : list nat :=
  match array with
  | [] => []
  | x :: rest =>
      if decide (x ∈ seen) then uniqFrom seen rest
      else x :: uniqFrom (x :: seen) rest
  end.
Definition uniq (array : list nat) : list nat := uniqFrom [] array.

(** [_.takeRight] and [_.dropRight] *)
Definition takeRight {A} (n : nat) (l : list A) : list A :=
  drop (length l - n) l.
Definition dropRight {A} (n : nat) (l : list A) : list A :=
  take (length l - n) l.

(** [_.fromPairs]: a later pair overwrites an earlier one. *)
Definition fromPairs (pairs : list (nat * nat)) : gmap nat nat :=
  foldl (fun acc (kv : nat * nat) => <[kv.1 := kv.2]> acc) ∅ pairs.

(** [_.invert] of an object whose keys are indices below [bound]: index
    keys are enumerated in ascending order, and a later key overwrites
    an earlier one with the same value. *)
Definition invert (bound : nat) (object : gmap nat nat) : gmap nat nat :=
  foldl (fun acc k =>
           match object !! k with
           | Some v => <[v := k]> acc
           | None => acc
           end) ∅ (seq 0 bound).

(** [_.get(object, key, key)] *)
Definition getOrSelf (object : gmap nat nat) (key : nat) : nat :=
  default key (object !! key).

(** The corner of a polyhedron as the operations see it: [v.index] and
    [v.vec]. *)
Record Vertex (V : Type) := { index : nat; vec : V }.
Arguments index {V} _.
Arguments vec {V} _.

(** Modelled from the spec: the [Polyhedron] class of [math/polyhedra]
    is an immutable aggregate of an ordered sequence of vertex positions
    and an ordered sequence of faces, each an ordered cyclic sequence of
    vertex indices; [withVertices], [withFaces] and [mapFaces] replace
    one of the two and keep the other, and [mapFaces] maps the faces of
    the polyhedron the change started from. *)
Record Polyhedron (V : Type) := { vertices : list V; faces : list (list nat) }.
Arguments vertices {V} _.
Arguments faces {V} _.

(** An edge: the indices of its two vertices ([edge.vertices]) and of
    its two adjacent faces ([edge.adjacentFaces()]). *)
Record Edge := { v1 : nat; v2 : nat; f1 : nat; f2 : nat }.

(** Modelled from the spec: the derived adjacency of a polyhedron
    ([math/polyhedra]): the vertex [polyhedron.getVertex()] returns, the
    faces adjacent to each vertex ([v.adjacentFaces()], by face index)
    and the edges, each knowing its two adjacent faces. *)
Record Adjacency := {
  getVertex : nat;
  adjacentFaces : nat → list nat;
  edges : list Edge
}.

Inductive Twist := left | right.

(** [getEdgeFacePaths]: the new faces across an edge, as paths
    [[face, vertex]] into the vertex mapping. *)
Definition getEdgeFacePaths (edge : Edge) (twist : option Twist)
  : list (list (nat * nat)) :=
  let v1 := v1 edge in
  let v2 := v2 edge in
  let f1 := f1 edge in
  let f2 := f2 edge in
  match twist with
  | Some right =>
      [ [(f1, v1); (f2, v2); (f1, v2)];
        [(f1, v1); (f2, v1); (f2, v2)] ]
  | Some left =>
      [ [(f1, v2); (f1, v1); (f2, v1)];
        [(f2, v1); (f2, v2); (f1, v2)] ]
  | None => [ [(f1, v2); (f1, v1); (f2, v1); (f2, v2)] ]
  end.

Section Operations.
Context {V : Type}.
(** [a.equalsWithTolerance(b, PRECISION)] of [math/linAlg]. *)
Variable equalsWithTolerance : V → V → bool.

(** [polyhedron.vertices], as vertex objects. *)
Definition vertexObjects (polyhedron : Polyhedron V) : list (Vertex V) :=
  imap (fun i v => {| index := i; vec := v |}) (vertices polyhedron).

(** The body of the loop that groups equal vertices. *)
Definition groupVertex (st : list (Vertex V) * gmap nat nat) (v : Vertex V)
  : list (Vertex V) * gmap nat nat :=
  let (unique, oldToNew) := st in
  match List.find (fun point => equalsWithTolerance (vec v) (vec point))
                  unique with
  | None => (unique ++ [v], <[index v := index v]> oldToNew)
  | Some match_ => (unique, <[index v := index match_]> oldToNew)
  end.

(** The pieces of [removeExtraneousVertices].  A vertex is in a set of
    vertices when its index is.  [toRemove]: the vertices no face uses. *)
Definition toRemove (polyhedron : Polyhedron V) : list nat :=
  let vertsInFaces : list nat := mjoin (faces polyhedron) in
  filter (fun v : nat => v ∉ vertsInFaces)
         (seq 0 (length (vertices polyhedron))).

(** Those of the last [numToRemove] vertices that are not to be removed. *)
Definition trailingKept (polyhedron : Polyhedron V) : list nat :=
  let numToRemove := length (toRemove polyhedron) in
  filter (fun v : nat => v ∉ toRemove polyhedron)
         (takeRight numToRemove (seq 0 (length (vertices polyhedron)))).

(** [newToOld]: the i-th of them is paired with [toRemove[i]], which
    exists because there are at most [numToRemove] of them. *)
Definition newToOld (polyhedron : Polyhedron V) : gmap nat nat :=
  fromPairs (zip (trailingKept polyhedron) (toRemove polyhedron)).

Definition oldToNew (polyhedron : Polyhedron V) : gmap nat nat :=
  invert (length (vertices polyhedron)) (newToOld polyhedron).

(** [removeExtraneousVertices].  Every index looked up in the vertex list
    is an index of it, so the read always finds a vertex. *)
Definition removeExtraneousVertices (polyhedron : Polyhedron V)
  : Polyhedron V :=
  let numToRemove := length (toRemove polyhedron) in
  let newVertices :=
    dropRight numToRemove
      (imap (fun i v =>
               default v
                 (vertices polyhedron !! getOrSelf (oldToNew polyhedron) i))
            (vertices polyhedron)) in
  {| vertices := newVertices;
     faces := (fun face : list nat => getOrSelf (newToOld polyhedron) <$> face)
                <$> faces polyhedron |}.

(** The loop of [deduplicateVertices] that groups equal vertices: the
    vertices kept as [unique], and [oldToNew]. *)
Definition groupVertices (polyhedron : Polyhedron V)
  : list (Vertex V) * gmap nat nat :=
  foldl groupVertex ([], ∅) (vertexObjects polyhedron).

(** [polyhedron.withChanges(s => s.withFaces(newFaces))] in
    [deduplicateVertices]: the faces mapped through [oldToNew], without
    repeated vertices, those with fewer than three vertices left out.
    Every vertex of a face is a vertex of the polyhedron and so a key of
    [oldToNew]. *)
Definition mergedFaces (polyhedron : Polyhedron V) : Polyhedron V :=
  let oldToNew := (groupVertices polyhedron).2 in
  {| vertices := vertices polyhedron;
     faces :=
       filter (fun vIndices : list nat => 3 ≤ length vIndices)
         ((fun face : list nat => uniq (getOrSelf oldToNew <$> face))
            <$> faces polyhedron) |}.

(** [deduplicateVertices] *)
Definition deduplicateVertices (polyhedron : Polyhedron V) : Polyhedron V :=
  removeExtraneousVertices (mergedFaces polyhedron).

(** What holds of [unique] and [oldToNew] once the first [j] vertices
    have been grouped: the vertices kept are vertices of the polyhedron,
    every index seen is mapped to one of them, and none of them equals
    one kept before it. *)
Definition grouped (polyhedron : Polyhedron V) (j : nat)
    (st : list (Vertex V) * gmap nat nat) : Prop :=
  (∀ u, u ∈ st.1 →
     index u < j ∧ vertices polyhedron !! index u = Some (vec u))
  ∧ (∀ i, i < j → ∃ u, u ∈ st.1 ∧ st.2 !! i = Some (index u))
  ∧ (∀ a b, a ∈ st.1 → b ∈ st.1 → index a < index b →
       equalsWithTolerance (vec b) (vec a) = false).

(** [count] in [duplicateVertices]: the number of faces around the
    vertex [polyhedron.getVertex()] returns. *)
Definition count (adjacency : Adjacency) : nat :=
  length (adjacentFaces adjacency (getVertex adjacency)).

(** [newVertexMapping]: for every vertex and its i-th adjacent face, the
    path [[face, vertex]] is set to [vertex * count + i]. *)
Definition newVertexMapping (adjacency : Adjacency)
    (polyhedron : Polyhedron V) : gmap (nat * nat) nat :=
  foldl (fun mapping v =>
           foldl (fun mapping (fi : nat * nat) =>
                    <[(fi.2, v) := v * count adjacency + fi.1]> mapping)
                 mapping
                 (imap (fun i f => (i, f)) (adjacentFaces adjacency v)))
        ∅ (seq 0 (length (vertices polyhedron))).

(** [duplicateVertices].  A path that is missing from the vertex mapping
    reads as [undefined]; a face holding [undefined] is no face of a
    polyhedron, and the result is then [None]. *)
Definition duplicateVertices (adjacency : Adjacency)
    (polyhedron : Polyhedron V) (twist : option Twist)
  : option (Polyhedron V) :=
  let mapping := newVertexMapping adjacency polyhedron in
  mapped ← mapM (fun ff : nat * list nat =>
                   mapM (fun v => mapping !! (ff.1, v)) ff.2)
                (imap (fun i face => (i, face)) (faces polyhedron));
  bridges ← mapM (mapM (fun path => mapping !! path))
                 (Utils.flatMap (edges adjacency)
                    (fun edge => getEdgeFacePaths edge twist));
  Some {| vertices :=
            Utils.flatMap (vertices polyhedron)
              (fun v => Utils.repeat v (count adjacency));
          faces :=
            mapped
            ++ ((fun v => seq (v * count adjacency) (count adjacency))
                  <$> seq 0 (length (vertices polyhedron)))
            ++ bridges |}.
End Operations.

(** *** Structural invariants of a polyhedron *)
Section Invariants.
Context {V : Type}.

(** Every face references only existing vertices. *)
Definition validFaces (p : Polyhedron V) : Prop :=
  ∀ face v, face ∈ faces p → v ∈ face → v < length (vertices p).

(** Every face has at least three vertices, all different. *)
Definition distinctFaces (p : Polyhedron V) : Prop :=
  ∀ face, face ∈ faces p → NoDup face ∧ 3 ≤ length face.

(** The sides of a face: consecutive vertices, cyclically. *)
Definition faceEdges {A} (face : list A) : list (A * A) :=
  zip face (rotate 1 face).

(** [a] and [b] are the two ends of a side of the face. *)
Definition hasEdge {A} (a b : A) (face : list A) : Prop :=
  (a, b) ∈ faceEdges face ∨ (b, a) ∈ faceEdges face.

(** Every edge belongs to exactly two faces. *)
Definition closedManifold (p : Polyhedron V) : Prop :=
  ∀ face a b, face ∈ faces p → (a, b) ∈ faceEdges face →
    length (filter (hasEdge a b) (faces p)) = 2.

Definition wellFormed (p : Polyhedron V) : Prop :=
  validFaces p ∧ distinctFaces p ∧ closedManifold p.

(** The indices [removeExtraneousVertices] refills: the unused ones among
    those that remain once [numToRemove] indices are dropped at the end. *)
Definition freedSlots (p : Polyhedron V) : list nat :=
  filter (fun v : nat => v ∉ mjoin (faces p))
         (seq 0 (length (vertices p) - length (toRemove p))).

(** For each vertex of the result of [removeExtraneousVertices], the index
    it had before. *)
Definition vertexSources (p : Polyhedron V) : list nat :=
  getOrSelf (oldToNew p)
    <$> seq 0 (length (vertices p) - length (toRemove p)).

(** The used vertices keep their relative order when they are renumbered
    by [removeExtraneousVertices]. *)
Definition keepsRelativeOrder (p : Polyhedron V) : Prop :=
  ∀ u v, u ∈ mjoin (faces p) → v ∈ mjoin (faces p) → u < v →
    getOrSelf (newToOld p) u < getOrSelf (newToOld p) v.

(** The derived adjacency agrees with the faces: a face is adjacent to
    each of its vertices, no face is listed twice around a vertex, and the
    two faces of an edge are different faces around both of its two
    different ends. *)
Definition consistentAdjacency (adjacency : Adjacency) (p : Polyhedron V)
  : Prop :=
  (∀ f face v, faces p !! f = Some face → v ∈ face →
     f ∈ adjacentFaces adjacency v)
  ∧ (∀ v, v < length (vertices p) → NoDup (adjacentFaces adjacency v))
  ∧ (∀ e, e ∈ edges adjacency →
       v1 e < length (vertices p) ∧ v2 e < length (vertices p)
       ∧ v1 e ≠ v2 e ∧ f1 e ≠ f2 e
       ∧ f1 e ∈ adjacentFaces adjacency (v1 e)
       ∧ f1 e ∈ adjacentFaces adjacency (v2 e)
       ∧ f2 e ∈ adjacentFaces adjacency (v1 e)
       ∧ f2 e ∈ adjacentFaces adjacency (v2 e)).

(** [e] joins [v] and [w]; [e] separates [f] and [g]. *)
Definition sameEnds (e : Edge) (v w : nat) : Prop :=
  (v1 e = v ∧ v2 e = w) ∨ (v1 e = w ∧ v2 e = v).
Definition sameFaces (e : Edge) (f g : nat) : Prop :=
  (f1 e = f ∧ f2 e = g) ∨ (f1 e = g ∧ f2 e = f).

(** Two records of the same edge: the same ends with the same faces, in
    the same or in the opposite order. *)
Definition sameEdge (e e' : Edge) : Prop :=
  (v1 e = v1 e' ∧ v2 e = v2 e' ∧ f1 e = f1 e' ∧ f2 e = f2 e')
  ∨ (v1 e = v2 e' ∧ v2 e = v1 e' ∧ f1 e = f2 e' ∧ f2 e = f1 e').

(** The side the two bridging triangles of an edge share. *)
Definition diagonal (e : Edge) (twist : Twist) : (nat * nat) * (nat * nat) :=
  match twist with
  | right => ((f1 e, v1 e), (f2 e, v2 e))
  | left => ((f2 e, v1 e), (f1 e, v2 e))
  end.

(** The derived adjacency is that of a closed surface: every listed edge
    is a side of both of its faces, and its faces are neighbours in the
    cyclic list of faces around each of its ends; every side of every
    face is listed as exactly one edge; and two faces that are neighbours
    around a vertex are separated by exactly one listed edge at that
    vertex. *)
Definition cyclicAdjacency (adjacency : Adjacency) (p : Polyhedron V)
  : Prop :=
  (∀ e, e ∈ edges adjacency →
     (∃ face, faces p !! f1 e = Some face ∧ hasEdge (v1 e) (v2 e) face)
     ∧ (∃ face, faces p !! f2 e = Some face ∧ hasEdge (v1 e) (v2 e) face)
     ∧ hasEdge (f1 e) (f2 e) (adjacentFaces adjacency (v1 e))
     ∧ hasEdge (f1 e) (f2 e) (adjacentFaces adjacency (v2 e)))
  ∧ (∀ f face v w, faces p !! f = Some face → (v, w) ∈ faceEdges face →
       length (filter (fun e => sameEnds e v w ∧ (f1 e = f ∨ f2 e = f))
                 (edges adjacency)) = 1)
  ∧ (∀ v f g, v < length (vertices p) →
       (f, g) ∈ faceEdges (adjacentFaces adjacency v) →
       length (filter (fun e => (v1 e = v ∨ v2 e = v) ∧ sameFaces e f g)
                 (edges adjacency)) = 1).

(** The faces of the result of [duplicateVertices], each vertex written
    as the path [[face, vertex]] it is looked up by: the existing faces,
    the face around every vertex, the bridging faces. *)
Definition pathFaces (adjacency : Adjacency) (p : Polyhedron V)
    (twist : option Twist) : list (list (nat * nat)) :=
  imap (fun f face => (fun v => (f, v)) <$> face) (faces p)
  ++ ((fun v => (fun f => (f, v)) <$> adjacentFaces adjacency v)
        <$> seq 0 (length (vertices p)))
  ++ Utils.flatMap (edges adjacency)
       (fun edge => getEdgeFacePaths edge twist).

(** The same number of faces meets at every vertex. *)
Definition uniformDegree (adjacency : Adjacency) (p : Polyhedron V) : Prop :=
  ∀ v, v < length (vertices p) →
    length (adjacentFaces adjacency v) = count adjacency.

(** [d] is the duplicate of the vertex [path.2] that belongs to the face
    [path.1]: the i-th of the vertex's [count] duplicates, where the face
    is the i-th face around the vertex. *)
Definition duplicateOf (adjacency : Adjacency) (p : Polyhedron V)
    (path : nat * nat) (d : nat) : Prop :=
  path.2 < length (vertices p)
  ∧ ∃ i, adjacentFaces adjacency path.2 !! i = Some path.1
         ∧ i < count adjacency
         ∧ d = path.2 * count adjacency + i.

(** The number of bridging faces [getEdgeFacePaths] makes per edge, and
    the number of vertices of each. *)
Definition bridgesPerEdge (twist : option Twist) : nat :=
  match twist with Some _ => 2 | None => 1 end.
Definition bridgeSides (twist : option Twist) : nat :=
  match twist with Some _ => 3 | None => 4 end.

(** No vertex is left without a face. *)
Definition allReferenced (p : Polyhedron V) : Prop :=
  ∀ v, v < length (vertices p) → v ∈ mjoin (faces p).
End Invariants.

(** *** Further utilities of the operations *)
Section HasMultiple.
(** The values of the relations' properties, with the comparison of
    [_.uniq] taken to be equality and [isTruthy] telling which of them
    [_.compact] keeps. *)
Context {R A : Type} `{EqDecision A}.
Variable isTruthy : A → bool.

(** [hasMultiple]: a missing list of relations is mapped like an empty
    one; [_.uniq] is [_.uniqBy] with the identity. *)
Definition hasMultiple (relations : option (list R)) (property : R → A)
  : bool :=
  let values := property <$> default [] relations in
  let compacted :=
    filter (fun a => isTruthy a = true) (Utils.uniqBy values id) in
  bool_decide (1 < length compacted).
End HasMultiple.

(** Modelled from the spec: a face as the operations see it, a view
    keyed by its index into the polyhedron that owns it;
    [face.vertices] are the vertices that polyhedron lists for it, by
    index. *)
Record Face (V : Type) := { polyhedron : Polyhedron V; faceIndex : nat }.
Arguments polyhedron {V} _.
Arguments faceIndex {V} _.

Definition faceVertices {V} (face : Face V) : list nat :=
  default [] (faces (polyhedron face) !! faceIndex face).

(** What an entry of the array [getMappedVertices] returns holds: the
    vertex of the polyhedron with that index, a value of the iteratee, or
    nothing (a hole left by a write past the end). *)
Inductive Slot (W : Type) :=
| Original (index : nat)
| Mapped (w : W)
| Hole.
Arguments Original {W} index.
Arguments Mapped {W} w.
Arguments Hole {W}.

(** [result[i] = x] on an array: a write past the end extends the array
    and leaves holes in between. *)
Definition assign {W} (result : list (Slot W)) (i : nat) (x : Slot W)
  : list (Slot W) :=
  if decide (i < length result) then <[i := x]> result
  else result ++ replicate (i - length result) Hole ++ [x].

(** [getMappedVertices]; reading [faces[0].polyhedron] of an empty list
    of faces is a [TypeError]. *)
Definition getMappedVertices {V W} (faces : list (Face V))
    (iteratee : nat → Face V → W) : Outcome (list (Slot W)) :=
  match faces with
  | [] => Throws TypeError
  | face0 :: _ =>
      Returns
        (foldl (fun result face =>
                  foldl (fun result v =>
                           assign result v (Mapped (iteratee v face)))
                        result (faceVertices face))
               (Original <$> seq 0 (length (vertices (polyhedron face0))))
               faces)
  end.

End OperationUtils.

(** ** Sample data: positions on an integer grid *)
Module Samples.
Import OperationUtils.

Definition Vec3 : Type := Z * Z * Z.

(** Equality within a tolerance, coordinate by coordinate. *)
Definition gridEquals (tolerance : Z) (a b : Vec3) : bool :=
  bool_decide (Z.abs (a.1.1 - b.1.1) < tolerance
               ∧ Z.abs (a.1.2 - b.1.2) < tolerance
               ∧ Z.abs (a.2 - b.2) < tolerance)%Z.

Definition tetrahedron : Polyhedron Vec3 :=
  {| vertices := [(0, 0, 0); (1, 0, 0); (0, 1, 0); (0, 0, 1)]%Z;
     faces := [[0; 2; 1]; [0; 1; 3]; [0; 3; 2]; [1; 2; 3]] |}.

Definition tetrahedronAdjacency : Adjacency :=
  {| getVertex := 0;
     adjacentFaces := fun v =>
       match v with
       | 0 => [0; 1; 2]
       | 1 => [0; 3; 1]
       | 2 => [0; 2; 3]
       | _ => [1; 3; 2]
       end;
     edges :=
       [ {| v1 := 0; v2 := 1; f1 := 1; f2 := 0 |};
         {| v1 := 0; v2 := 2; f1 := 0; f2 := 2 |};
         {| v1 := 0; v2 := 3; f1 := 2; f2 := 1 |};
         {| v1 := 1; v2 := 2; f1 := 3; f2 := 0 |};
         {| v1 := 1; v2 := 3; f1 := 1; f2 := 3 |};
         {| v1 := 2; v2 := 3; f1 := 3; f2 := 2 |} ] |}.

(** A tetrahedron with one more vertex, which no face uses, at index 1. *)
Definition tetrahedronWithStray : Polyhedron Vec3 :=
  {| vertices := [(0, 0, 0); (9, 9, 9); (1, 0, 0); (0, 1, 0); (0, 0, 1)]%Z;
     faces := [[0; 3; 2]; [0; 2; 4]; [0; 4; 3]; [2; 3; 4]] |}.

(** A square pyramid (base 1, 3, 4, 5, apex 6) with two more vertices,
    which no face uses, at the indices 0 and 2. *)
Definition pyramidWithStrays : Polyhedron Vec3 :=
  {| vertices :=
       [(9, 9, 9); (1, 1, 0); (8, 8, 8); (-1, 1, 0); (-1, -1, 0);
        (1, -1, 0); (0, 0, 1)]%Z;
     faces := [[5; 4; 3; 1]; [1; 3; 6]; [3; 4; 6]; [4; 5; 6]; [5; 1; 6]] |}.

(** An octahedron whose two apexes (vertices 0 and 5) have been moved
    onto the same point. *)
Definition flatOctahedron : Polyhedron Vec3 :=
  {| vertices :=
       [(0, 0, 0); (1, 0, 0); (0, 1, 0); (-1, 0, 0); (0, -1, 0); (0, 0, 0)]%Z;
     faces := [[0; 1; 2]; [0; 2; 3]; [0; 3; 4]; [0; 4; 1];
               [5; 2; 1]; [5; 3; 2]; [5; 4; 3]; [5; 1; 4]] |}.

(** A square pyramid: base 0..3, apex 4.  Three faces meet at each base
    vertex, four at the apex. *)
Definition squarePyramid : Polyhedron Vec3 :=
  {| vertices := [(1, 1, 0); (-1, 1, 0); (-1, -1, 0); (1, -1, 0); (0, 0, 1)]%Z;
     faces := [[3; 2; 1; 0]; [0; 1; 4]; [1; 2; 4]; [2; 3; 4]; [3; 0; 4]] |}.

Definition squarePyramidAdjacency : Adjacency :=
  {| getVertex := 0;
     adjacentFaces := fun v =>
       match v with
       | 0 => [0; 4; 1]
       | 1 => [0; 1; 2]
       | 2 => [0; 2; 3]
       | 3 => [0; 3; 4]
       | _ => [1; 4; 3; 2]
       end;
     edges :=
       [ {| v1 := 0; v2 := 1; f1 := 1; f2 := 0 |};
         {| v1 := 0; v2 := 3; f1 := 0; f2 := 4 |};
         {| v1 := 0; v2 := 4; f1 := 4; f2 := 1 |};
         {| v1 := 1; v2 := 2; f1 := 2; f2 := 0 |};
         {| v1 := 1; v2 := 4; f1 := 1; f2 := 2 |};
         {| v1 := 2; v2 := 3; f1 := 3; f2 := 0 |};
         {| v1 := 2; v2 := 4; f1 := 2; f2 := 3 |};
         {| v1 := 3; v2 := 4; f1 := 3; f2 := 4 |} ] |}.

(** Stand-ins for the name translations: the identity on names. *)
Definition sameName (solid : string) : Outcome string := Returns solid.
Definition nameOf (notation : JsValue) : Outcome string :=
  match notation with
  | JsString s => Returns s
  | _ => Throws TypeError
  end.
End Samples.

(** * Properties *)

(** ** [getCyclic] *)
Section GetCyclic.
Import Utils.
Context {T : Type}.
Implicit Types (array : list T) (index : Z).

Lemma mod_nonneg (a b : Z) :
  (0 <= a)%Z → (0 < b)%Z → mod_ a b = Some (a mod b)%Z.
Proof.
  intros Ha Hb. unfold mod_, jsRem.
  destruct (decide (0 <= a)%Z) as [_|]; [|lia].
  destruct (decide (b = 0)%Z) as [|_]; [lia|].
  by rewrite Z.rem_mod_nonneg by lia.
Qed.

Lemma mod_negative (a b : Z) :
  (a < 0)%Z → (0 < b)%Z →
  mod_ a b = Some (if decide (a mod b = 0)%Z then b else a mod b)%Z.
Proof.
  intros Ha Hb. unfold mod_, jsRem.
  destruct (decide (0 <= a)%Z) as [|_]; [lia|].
  destruct (decide (b = 0)%Z) as [|_]; [lia|]. simpl. f_equal.
  pose proof (Z.rem_bound_pos_neg a b ltac:(lia) ltac:(lia)) as Hr.
  pose proof (Z.rem_mod_eq_0 a b ltac:(lia)) as H0.
  pose proof (Z.mod_pos_bound a b Hb) as Hm.
  destruct (decide (a mod b = 0)%Z) as [Hz|Hz].
  - apply H0 in Hz. lia.
  - assert (Z.rem a b ≠ 0)%Z as Hnz by (intros E; apply Hz, H0, E).
    apply (Z.mod_unique_pos a b (Z.quot a b - 1)); [lia|].
    pose proof (Z.quot_rem' a b). lia.
Qed.

(** Whenever the index is not a negative multiple of the length,
    [getCyclic] is the element at the index reduced modulo the length. *)
Lemma getCyclic_in_range array index :
  array ≠ [] →
  (0 <= index ∨ index mod Z.of_nat (length array) ≠ 0)%Z →
  getCyclic array index
  = array !! Z.to_nat (index mod Z.of_nat (length array)).
Proof.
  intros Hne Hidx. unfold getCyclic.
  assert (0 < Z.of_nat (length array))%Z as Hlen
    by (destruct array; [done | simpl; lia]).
  pose proof (Z.mod_pos_bound index _ Hlen) as Hm.
  destruct (decide (0 <= index)%Z) as [Hpos|Hneg].
  - rewrite mod_nonneg by done. simpl. by rewrite decide_True by lia.
  - rewrite mod_negative by lia.
    rewrite decide_False by (destruct Hidx; [lia | done]).
    simpl. by rewrite decide_True by lia.
Qed.

(** At a negative multiple of the length the read is past the end. *)
Lemma getCyclic_negative_multiple array (k : Z) :
  array ≠ [] → (0 < k)%Z →
  getCyclic array (- k * Z.of_nat (length array)) = None.
Proof.
  intros Hne Hk. unfold getCyclic.
  assert (0 < Z.of_nat (length array))%Z as Hlen
    by (destruct array; [done | simpl; lia]).
  rewrite mod_negative by nia.
  rewrite decide_True by (apply Z.mod_mul; lia).
  simpl. rewrite decide_True by lia.
  apply lookup_ge_None_2. lia.
Qed.
End GetCyclic.

(** C10.  The claim: for a non-empty array and any integer index,
    [getCyclic] returns the element at the index reduced modulo the
    length, and never reads out of bounds.  At index [-3] of a
    three-element array the code reads position 3, past the end, and
    yields [undefined]. *)
Theorem getCyclic_minus_length_undefined :
  Utils.getCyclic ["a"; "b"; "c"] (-3) = None
  ∧ Utils.mod_ (-3) 3 = Some 3%Z.
Proof. split; reflexivity. Qed.

(** ** [getInverseOperation] *)
Section InverseOperation.
Import Relations.

Lemma reversed_tag_unfold (operation : string) :
  "~" +:+ operation = String (Ascii.ascii_of_nat 126) operation.
Proof. reflexivity. Qed.

Lemma reversed_tag_fresh (operation : string) : "~" +:+ operation ≠ operation.
Proof.
  rewrite reversed_tag_unfold. intros E. apply (f_equal String.length) in E. simpl in E. lia.
Qed.

Lemma getInverseOperation_other (operation : string) :
  operation ∉ Relations.pairedSymbols →
  getInverseOperation operation = "~" +:+ operation.
Proof.
  intros Hn. unfold getInverseOperation, Relations.pairedSymbols in *.
  repeat case_decide; subst; try done; exfalso; apply Hn; set_solver.
Qed.
End InverseOperation.

(** C7.  [getInverseOperation] maps ['d'] and ['g'] to themselves, swaps
    ['+'] and ['-'], and maps every other symbol to its reversed tag
    [~symbol]: a tag that differs from the symbol, is none of the four
    paired symbols, and is different for different symbols. *)
Theorem getInverseOperation_cases :
  Relations.getInverseOperation "d" = "d"
  ∧ Relations.getInverseOperation "g" = "g"
  ∧ Relations.getInverseOperation "+" = "-"
  ∧ Relations.getInverseOperation "-" = "+"
  ∧ (∀ operation : string, (operation ∉ Relations.pairedSymbols) →
       Relations.getInverseOperation operation = "~" +:+ operation
       ∧ Relations.getInverseOperation operation ≠ operation
       ∧ (Relations.getInverseOperation operation ∉ Relations.pairedSymbols)
       ∧ (∀ other : string, (other ∉ Relations.pairedSymbols) →
            Relations.getInverseOperation other
            = Relations.getInverseOperation operation →
            other = operation)).
Proof.
  repeat split; try reflexivity.
  - by apply getInverseOperation_other.
  - rewrite getInverseOperation_other by done. apply reversed_tag_fresh.
  - rewrite getInverseOperation_other by done.
    rewrite reversed_tag_unfold. unfold Relations.pairedSymbols.
    rewrite !elem_of_cons, elem_of_nil.
    intros [E|[E|[E|[E|[]]]]]; discriminate E.
  - intros other Ho E.
    rewrite !getInverseOperation_other, !reversed_tag_unfold in E by done.
    by injection E.
Qed.

Lemma getInverseOperation_cases_witness :
  ("t" ∉ Relations.pairedSymbols)
  ∧ Relations.getInverseOperation "t" = "~t"
  ∧ Relations.getInverseOperation "t" ≠ "t".
Proof.
  assert ("t" ∉ Relations.pairedSymbols) as Ht
    by (unfold Relations.pairedSymbols; rewrite !elem_of_cons, elem_of_nil;
        intros [E|[E|[E|[E|[]]]]]; discriminate E).
  destruct getInverseOperation_cases as (_ & _ & _ & _ & H).
  destruct (H "t" Ht) as (H1 & H2 & _).
  split; [exact Ht|]. split; [exact H1 | exact H2].
Defined.

(** ** The polyhedron reducer *)
Section ReducerFacts.
Import Reducer.
Context {Data Config : Type}.
Variable isValidSolid : string → bool.
Variable Polyhedron_get : string → Outcome Data.
Variables augment diminish gyrate : Data → Config → Outcome Data.
Variable callInherited : string → Data → Config → Outcome Data.

Let reduce :=
  polyhedron isValidSolid Polyhedron_get
    augment diminish gyrate callInherited.

Lemma knownSymbols_eq :
  knownSymbols augment diminish gyrate = ["+"; "-"; "g"].
Proof. reflexivity. Qed.

(** A symbol that is neither in the table nor the name of something an
    object literal inherits is looked up in vain. *)
Lemma operations_undefined (operation : string) :
  operation ∉ knownSymbols augment diminish gyrate →
  operation ∉ objectPrototypeMethods →
  operation ≠ "__proto__" →
  literalGet (operations augment diminish gyrate) operation
  = Undefined.
Proof.
  rewrite knownSymbols_eq. intros Hk Hm Hp.
  unfold literalGet, operations. simpl.
  repeat case_decide; subst; try done; exfalso; apply Hk; set_solver.
Qed.

(** For such a symbol the reducer returns the state it was given. *)
Lemma polyhedron_unknown_operation state operation name config :
  operation ∉ knownSymbols augment diminish gyrate →
  operation ∉ objectPrototypeMethods →
  operation ≠ "__proto__" →
  reduce state (APPLY_OPERATION operation name config)
  = Returns state.
Proof.
  intros. unfold reduce, polyhedron.
  by rewrite operations_undefined.
Qed.

Lemma polyhedron_other_action state type :
  reduce state (OtherAction type) = Returns state.
Proof. reflexivity. Qed.
End ReducerFacts.

(** C8.  The claim: an [APPLY_OPERATION] request whose symbol is not one
    of the known symbols leaves the state unchanged and is never fatal.
    The guard [!operations[action.operation]] also finds what the table
    inherits: for ['__proto__'], which is no known symbol, the reducer
    calls a value that is not a function and throws; for ['constructor']
    it calls the inherited method and stores the requested name. *)
Theorem polyhedron_inherited_symbol
    {Data Config : Type} (isValidSolid : string → bool)
    (Polyhedron_get : string → Outcome Data)
    (augment diminish gyrate : Data → Config → Outcome Data)
    (callInherited : string → Data → Config → Outcome Data)
    (state : Reducer.State Data) (name : string) (config : Config) :
  let reduce :=
    Reducer.polyhedron isValidSolid Polyhedron_get
      augment diminish gyrate callInherited in
  let known := Reducer.knownSymbols augment diminish gyrate in
  ("__proto__" ∉ known)
  ∧ reduce state (Reducer.applyOperation "__proto__" name config)
    = Throws TypeError
  ∧ ("constructor" ∉ known)
  ∧ reduce state (Reducer.applyOperation "constructor" name config)
    = match callInherited "constructor" (Reducer.data state) config with
      | Returns d => Returns {| Reducer.name := name; Reducer.data := d |}
      | Throws e => Throws e
      end.
Proof.
  simpl. rewrite knownSymbols_eq.
  repeat split; try reflexivity;
    rewrite !elem_of_cons, elem_of_nil; intros [E|[E|[E|[]]]]; discriminate E.
Qed.

(** C9.  For a [SET_POLYHEDRON] request, a name that is not a valid solid
    leaves the state unchanged; a valid name yields a state holding that
    name and the polyhedron [Polyhedron.get] loads for it. *)
Theorem polyhedron_set_polyhedron
    {Data Config : Type} (isValidSolid : string → bool)
    (Polyhedron_get : string → Outcome Data)
    (augment diminish gyrate : Data → Config → Outcome Data)
    (callInherited : string → Data → Config → Outcome Data)
    (state : Reducer.State Data) (name : string) :
  let reduce :=
    Reducer.polyhedron isValidSolid Polyhedron_get
      augment diminish gyrate callInherited in
  (isValidSolid name = false →
   reduce state (Reducer.setPolyhedron name) = Returns state)
  ∧ (isValidSolid name = true →
     ∀ loaded, Polyhedron_get name = Returns loaded →
       reduce state (Reducer.setPolyhedron name)
       = Returns {| Reducer.name := name; Reducer.data := loaded |}).
Proof.
  simpl. split.
  - intros ->. reflexivity.
  - intros -> loaded ->. reflexivity.
Qed.

Lemma polyhedron_set_polyhedron_witness :
  let isValidSolid := fun s : string => bool_decide (s = "cube") in
  let get := fun s : string => Returns (String.length s) in
  let op := fun (d : nat) (_ : unit) => Returns d in
  let state := {| Reducer.name := "tetrahedron"; Reducer.data := 11 |} in
  Reducer.polyhedron isValidSolid get op op op (fun _ => op) state
    (Reducer.setPolyhedron "qube") = Returns state
  ∧ Reducer.polyhedron isValidSolid get op op op (fun _ => op) state
      (Reducer.setPolyhedron "cube")
    = Returns {| Reducer.name := "cube"; Reducer.data := 4 |}.
Proof.
  intros isValidSolid get op state. split.
  - apply (proj1 (polyhedron_set_polyhedron isValidSolid get op op op
                    (fun _ => op) state "qube")).
    reflexivity.
  - apply (proj2 (polyhedron_set_polyhedron isValidSolid get op op op
                    (fun _ => op) state "cube")); reflexivity.
Defined.

(** ** The transformation graph *)
Section ObjectFacts.
Import Relations.
Context {V : Type}.
Implicit Types (obj : JsObject V) (k : string) (v : V).

Lemma objGet_objSet obj k v k' :
  objGet (objSet obj k v) k' = if decide (k = k') then Some v else objGet obj k'.
Proof.
  induction obj as [|[k0 v0] obj IH]; simpl.
  - repeat case_decide; congruence.
  - destruct (decide (k0 = k)) as [->|Hne]; simpl.
    + repeat case_decide; congruence.
    + rewrite IH. repeat case_decide; congruence.
Qed.

Lemma objGet_None obj k : k ∉ keys obj → objGet obj k = None.
Proof.
  unfold keys. induction obj as [|[k0 v0] obj IH]; simpl; [done|].
  rewrite not_elem_of_cons. intros [Hne Hnot].
  rewrite decide_False by congruence. by apply IH.
Qed.

Lemma objGet_Some_elem obj k v : objGet obj k = Some v → (k, v) ∈ obj.
Proof.
  induction obj as [|[k0 v0] obj IH]; simpl; [done|].
  case_decide; intros E.
  - injection E as ->. subst. apply list_elem_of_here.
  - apply list_elem_of_further, IH, E.
Qed.

Lemma keys_objSet obj k v :
  keys (objSet obj k v) = if decide (k ∈ keys obj) then keys obj else keys obj ++ [k].
Proof.
  unfold keys. induction obj as [|[k0 v0] obj IH]; [done|].
  cbn [objSet].
  destruct (decide (k0 = k)) as [->|Hne].
  - rewrite decide_True by (rewrite fmap_cons; apply list_elem_of_here). done.
  - rewrite !fmap_cons, IH. cbn [fst].
    destruct (decide (k ∈ fst <$> obj)) as [Hin|Hnin].
    + rewrite decide_True by by apply list_elem_of_further. done.
    + rewrite decide_False; [done|].
      rewrite not_elem_of_cons. split; congruence.
Qed.

Lemma keys_objSet_NoDup obj k v : NoDup (keys obj) → NoDup (keys (objSet obj k v)).
Proof.
  intros Hnd. rewrite keys_objSet. case_decide; [done|].
  apply NoDup_app. split; [done|]. split.
  - intros x Hx ->%list_elem_of_singleton. done.
  - apply NoDup_singleton.
Qed.
End ObjectFacts.

Section GraphFacts.
Import Relations.
Implicit Types (graph result : Graph) (ops : JsObject (list JsValue)).

Lemma sinksOf_alt graph solid operation :
  sinksOf graph solid operation
  = default [] (objGet (default [] (objGet graph solid)) operation).
Proof. unfold sinksOf, candidatesOf. by destruct (objGet graph solid). Qed.


Lemma reverseOfEdge_hit target reverseOp source operation :
  target ≠ "" → getInverseOperation operation = reverseOp → target ≠ source →
  reverseOfEdge target reverseOp source operation (JsString target)
  = [JsString source].
Proof. intros. unfold reverseOfEdge. by rewrite decide_True. Qed.

Lemma reverseOfEdge_miss target reverseOp source operation sink :
  ¬ (sink = JsString target ∧ target ≠ ""
     ∧ getInverseOperation operation = reverseOp ∧ target ≠ source) →
  reverseOfEdge target reverseOp source operation sink = [].
Proof. intros. unfold reverseOfEdge. by rewrite decide_False. Qed.

Lemma sinksOf_addReverse source operation result sink target reverseOp :
  sinksOf (addReverse source operation result sink) target reverseOp
  = sinksOf result target reverseOp
    ++ reverseOfEdge target reverseOp source operation sink.
Proof.
  destruct sink as [| |s];
    [by rewrite reverseOfEdge_miss, app_nil_r by (intros [? _]; done)..|].
  unfold addReverse. cbn [truthy].
  destruct (decide (s = "")) as [->|Hs].
  { rewrite bool_decide_true by done. simpl.
    rewrite reverseOfEdge_miss; [by rewrite app_nil_r|].
    intros (E & ? & _). congruence. }
  rewrite bool_decide_false by done. cbn [negb].
  rewrite !sinksOf_alt.
  set (result1 := match objGet result s with Some _ => result | None => objSet result s [] end).
  assert (default [] (objGet result1 s) = default [] (objGet result s)) as Hops.
  { subst result1. destruct (objGet result s) eqn:E; [by rewrite E|].
    by rewrite objGet_objSet, decide_True. }
  assert (∀ t, t ≠ s → objGet result1 t = objGet result t) as Hother.
  { intros t Ht. subst result1. destruct (objGet result s); [done|].
    by rewrite objGet_objSet, decide_False. }
  rewrite Hops. set (ops := default [] (objGet result s)).
  set (rop := getInverseOperation operation).
  set (ops1 := match objGet ops rop with Some _ => ops | None => objSet ops rop [] end).
  assert (default [] (objGet ops1 rop) = default [] (objGet ops rop)) as Hl.
  { subst ops1. destruct (objGet ops rop) eqn:E; [by rewrite E|].
    by rewrite objGet_objSet, decide_True. }
  assert (∀ o, o ≠ rop → objGet ops1 o = objGet ops o) as Hoo.
  { intros o Ho. subst ops1. destruct (objGet ops rop); [done|].
    by rewrite objGet_objSet, decide_False. }
  destruct (decide (s = target)) as [<-|Hst].
  - fold ops.
    destruct (decide (s = source)) as [<-|Hsrc].
    + rewrite objGet_objSet, decide_True by done. simpl.
      rewrite reverseOfEdge_miss by (intros (_ & _ & _ & ?); done).
      rewrite app_nil_r.
      destruct (decide (rop = reverseOp)) as [<-|Hr]; [done|].
      by rewrite Hoo.
    + rewrite objGet_objSet, decide_True by done. simpl.
      rewrite objGet_objSet.
      destruct (decide (rop = reverseOp)) as [<-|Hr].
      * simpl. rewrite reverseOfEdge_hit by done. by rewrite Hl.
      * rewrite reverseOfEdge_miss by (intros (_ & _ & ? & _); done).
        rewrite app_nil_r. by rewrite Hoo.
  - rewrite reverseOfEdge_miss by (intros [E _]; congruence).
    rewrite app_nil_r.
    destruct (decide (s = source)); rewrite objGet_objSet, decide_False by done;
      by rewrite Hother.
Qed.

(** The candidates after all reverse edges of a graph have been added. *)
Lemma sinksOf_reverse_loop graph result target reverseOp :
  sinksOf
    (foldl (fun result (entry : string * JsObject (list JsValue)) =>
              foldl (fun result (opEntry : string * list JsValue) =>
                       foldl (addReverse entry.1 opEntry.1) result opEntry.2)
                    result entry.2)
           result graph) target reverseOp
  = sinksOf result target reverseOp ++ reverseSources graph target reverseOp.
Proof.
  unfold reverseSources.
  revert result. induction graph as [|[source ops] graph IH]; intros result.
  { by rewrite app_nil_r. }
  cbn [foldl fmap list_fmap mjoin list_join fst snd]. rewrite IH, app_assoc. f_equal.
  clear IH. revert result.
  induction ops as [|[operation sinks] ops IH]; intros result.
  { by rewrite app_nil_r. }
  cbn [foldl fmap list_fmap mjoin list_join fst snd]. rewrite IH, app_assoc. f_equal.
  clear IH. revert result.
  induction sinks as [|sink sinks IH]; intros result.
  { by rewrite app_nil_r. }
  cbn [foldl fmap list_fmap mjoin list_join]. rewrite IH, app_assoc. f_equal.
  apply sinksOf_addReverse.
Qed.

Lemma objGet_mergeOperations object source operation :
  NoDup (keys source) →
  objGet (mergeOperations object source) operation
  = match objGet source operation with
    | Some sinks => Some (default [] (objGet object operation) ++ sinks)
    | None => objGet object operation
    end.
Proof.
  unfold mergeOperations, keys.
  revert object. induction source as [|[op sinks] source IH]; intros object Hnd.
  { done. }
  rewrite fmap_cons in Hnd. apply NoDup_cons in Hnd as [Hop Hnd].
  cbn [foldl fst snd objGet]. rewrite IH by done.
  assert (match objGet object op with
          | Some objValue => objSet object op (objValue ++ sinks)
          | None => objSet object op sinks
          end = objSet object op (default [] (objGet object op) ++ sinks)) as ->
    by by destruct (objGet object op).
  rewrite objGet_objSet.
  destruct (decide (op = operation)) as [<-|Hne]; [|done].
  by rewrite objGet_None.
Qed.

Lemma objGet_mergeWith object source solid :
  NoDup (keys source) →
  objGet (mergeWith object source) solid
  = match objGet source solid with
    | Some ops => Some (mergeOperations (default [] (objGet object solid)) ops)
    | None => objGet object solid
    end.
Proof.
  unfold mergeWith, keys.
  revert object. induction source as [|[s ops] source IH]; intros object Hnd.
  { done. }
  rewrite fmap_cons in Hnd. apply NoDup_cons in Hnd as [Hs Hnd].
  cbn [foldl fst snd objGet]. rewrite IH by done.
  assert (match objGet object s with
          | Some objValue => objSet object s (mergeOperations objValue ops)
          | None => objSet object s (mergeOperations [] ops)
          end = objSet object s (mergeOperations (default [] (objGet object s)) ops))
    as -> by by destruct (objGet object s).
  rewrite objGet_objSet.
  destruct (decide (s = solid)) as [<-|Hne]; [|done].
  by rewrite objGet_None.
Qed.

Lemma sinksOf_mergeWith object source solid operation :
  wfGraph source →
  sinksOf (mergeWith object source) solid operation
  = sinksOf object solid operation ++ sinksOf source solid operation.
Proof.
  intros [Hnd Hall]. rewrite !sinksOf_alt, objGet_mergeWith by done.
  destruct (objGet source solid) as [ops|] eqn:E; simpl.
  - apply objGet_Some_elem in E.
    rewrite Forall_forall in Hall. specialize (Hall _ E). simpl in Hall.
    rewrite objGet_mergeOperations by done.
    destruct (objGet ops operation); simpl; [done | by rewrite app_nil_r].
  - by rewrite app_nil_r.
Qed.

(** The candidates of the closed graph: the reverse edges, then the
    declared ones. *)
Lemma sinksOf_makeBidirectional graph solid operation :
  wfGraph graph →
  sinksOf (makeBidirectional graph) solid operation
  = reverseSources graph solid operation ++ sinksOf graph solid operation.
Proof.
  intros Hwf. unfold makeBidirectional, graphMerge. cbn [foldl].
  rewrite sinksOf_mergeWith by done. f_equal.
  by rewrite sinksOf_reverse_loop.
Qed.

Lemma elem_of_reverseSources graph target reverseOp x :
  x ∈ reverseSources graph target reverseOp ↔
  ∃ source ops operation sinks,
    (source, ops) ∈ graph ∧ (operation, sinks) ∈ ops
    ∧ JsString target ∈ sinks ∧ x = JsString source
    ∧ target ≠ "" ∧ getInverseOperation operation = reverseOp
    ∧ target ≠ source.
Proof.
  unfold reverseSources. rewrite list_elem_of_join. split.
  - intros (l & Hx & Hl). apply list_elem_of_fmap in Hl as ([source ops] & -> & He).
    apply list_elem_of_join in Hx as (l & Hx & Hl).
    apply list_elem_of_fmap in Hl as ([operation sinks] & -> & Ho).
    apply list_elem_of_join in Hx as (l & Hx & Hl).
    apply list_elem_of_fmap in Hl as (sink & -> & Hs).
    unfold reverseOfEdge in Hx. simpl in Hx.
    case_decide as Hc; [|by apply elem_of_nil in Hx].
    apply list_elem_of_singleton in Hx. destruct Hc as (-> & ? & ? & ?).
    by exists source, ops, operation, sinks.
  - intros (source & ops & operation & sinks & He & Ho & Hs & -> & ? & ? & ?).
    eexists. split; [|apply list_elem_of_fmap; eexists; split; [done|exact He]].
    apply list_elem_of_join.
    eexists. split; [|apply list_elem_of_fmap; eexists; split; [done|exact Ho]].
    apply list_elem_of_join.
    eexists. split; [|apply list_elem_of_fmap; eexists; split; [done|exact Hs]].
    simpl. rewrite reverseOfEdge_hit by done. apply list_elem_of_here.
Qed.

Lemma edge_declared graph source operation sink :
  edge graph source operation sink →
  ∃ ops sinks, (source, ops) ∈ graph ∧ (operation, sinks) ∈ ops ∧ sink ∈ sinks.
Proof.
  unfold edge, sinksOf, candidatesOf. intros H.
  destruct (objGet graph source) as [ops|] eqn:E1; simpl in H;
    [|by apply elem_of_nil in H].
  destruct (objGet ops operation) as [sinks|] eqn:E2; simpl in H;
    [|by apply elem_of_nil in H].
  exists ops, sinks. eauto using objGet_Some_elem.
Qed.

Lemma occurrences_reverseSources graph solid reverseOp :
  occurrences (JsString solid) (reverseSources graph solid reverseOp) = 0.
Proof.
  unfold occurrences.
  destruct (filter _ _) as [|x l] eqn:E; [done|]. exfalso.
  assert (x ∈ filter (fun y => y = JsString solid)
                (reverseSources graph solid reverseOp)) as Hx
    by (rewrite E; apply list_elem_of_here).
  apply list_elem_of_filter in Hx as [-> Hx].
  apply elem_of_reverseSources in Hx
    as (source & _ & _ & _ & _ & _ & _ & [= <-] & _ & _ & Hne). done.
Qed.

(** *** Objects keep their keys apart *)
Lemma elem_of_objSet {V} (obj : JsObject V) k v e :
  e ∈ objSet obj k v → e = (k, v) ∨ e ∈ obj.
Proof.
  induction obj as [|[k0 v0] obj IH]; simpl.
  - rewrite list_elem_of_singleton. auto.
  - case_decide; rewrite !elem_of_cons; [tauto|].
    intros [->|H']; [auto|]. destruct (IH H'); auto.
Qed.

Lemma mergeOperations_NoDup object source :
  NoDup (keys object) → NoDup (keys (mergeOperations object source)).
Proof.
  unfold mergeOperations. revert object.
  induction source as [|e source IH]; intros object Hnd; [done|].
  cbn [foldl]. apply IH. destruct (objGet object e.1); by apply keys_objSet_NoDup.
Qed.

Lemma wfGraph_objSet graph solid ops :
  wfGraph graph → NoDup (keys ops) → wfGraph (objSet graph solid ops).
Proof.
  intros [Hnd Hall] Hops. split; [by apply keys_objSet_NoDup|].
  rewrite Forall_forall in *. intros e [->|He]%elem_of_objSet; [done|].
  by apply Hall.
Qed.

Lemma wfGraph_mergeWith object source :
  wfGraph object → wfGraph (mergeWith object source).
Proof.
  unfold mergeWith. revert object.
  induction source as [|e source IH]; intros object Hwf; [done|].
  cbn [foldl]. apply IH.
  destruct (objGet object e.1) as [ops|] eqn:E.
  - apply wfGraph_objSet; [done|]. apply mergeOperations_NoDup.
    destruct Hwf as [_ Hall]. rewrite Forall_forall in Hall.
    apply (Hall (e.1, ops)), objGet_Some_elem, E.
  - apply wfGraph_objSet; [done|]. apply mergeOperations_NoDup, NoDup_nil_2.
Qed.

(** Whatever the two computed tables hold, the merged base graph is an
    object whose keys are pairwise different. *)
Lemma wfGraph_baseGraph basePyramidsCupolae baseAugmentations :
  wfGraph (baseGraph basePyramidsCupolae baseAugmentations).
Proof.
  unfold baseGraph, normalized, graphMerge. rewrite fmap_cons.
  generalize (normalize <$> [basePyramidsCupolae; baseAugmentations;
                             diminishedIcosahedraGraph;
                             rhombicosidodecahedraGraph; othersGraph]).
  intros other.
  assert (wfGraph (normalize archimedean)) as Hwf.
  { split; [apply (bool_decide_unpack _); by vm_compute|].
    repeat (apply Forall_cons; split;
            [apply (bool_decide_unpack _); by vm_compute|]).
    apply Forall_nil_2. }
  revert Hwf. generalize (normalize archimedean).
  induction other as [|g other IH]; intros object Hwf; [done|].
  cbn [foldl]. by apply IH, wfGraph_mergeWith.
Qed.
End GraphFacts.

(** C1.  For every edge [source --operation--> sink] of a graph, the graph
    closed by [makeBidirectional] keeps that edge; when the sink is a
    solid other than the source it also has the inverse edge
    [sink --getInverseOperation(operation)--> source]; and closing never
    adds a solid to its own candidates, so a self-loop gets no reverse
    edge. *)
Theorem makeBidirectional_inverse_edges
    (graph : Relations.Graph) (source operation : string) (sink : JsValue) :
  Relations.wfGraph graph →
  Relations.edge graph source operation sink →
  Relations.edge (Relations.makeBidirectional graph) source operation sink
  ∧ (∀ target : string,
       sink = JsString target → target ≠ "" → target ≠ source →
       Relations.edge (Relations.makeBidirectional graph) target
         (Relations.getInverseOperation operation) (JsString source))
  ∧ (∀ solid reverseOp : string,
       Relations.occurrences (JsString solid)
         (Relations.sinksOf (Relations.makeBidirectional graph) solid reverseOp)
       = Relations.occurrences (JsString solid)
           (Relations.sinksOf graph solid reverseOp)).
Proof.
  intros Hwf Hedge. unfold Relations.edge in *. repeat split.
  - rewrite sinksOf_makeBidirectional by done.
    apply elem_of_app. by right.
  - intros target -> Hne Hloop.
    rewrite sinksOf_makeBidirectional by done.
    apply elem_of_app. left.
    apply edge_declared in Hedge as (ops & sinks & He & Ho & Hs).
    apply elem_of_reverseSources.
    by exists source, ops, operation, sinks.
  - intros solid reverseOp.
    rewrite sinksOf_makeBidirectional by done.
    unfold Relations.occurrences at 1.
    rewrite filter_app, length_app.
    fold (Relations.occurrences (JsString solid)
            (Relations.reverseSources graph solid reverseOp)).
    by rewrite occurrences_reverseSources.
Qed.

Lemma makeBidirectional_inverse_edges_witness :
  let graph := Relations.normalize Relations.archimedean in
  Relations.edge (Relations.makeBidirectional graph) "C" "d" (JsString "O")
  ∧ Relations.edge (Relations.makeBidirectional graph) "O" "d" (JsString "C").
Proof.
  intros graph.
  assert (Relations.wfGraph graph) as Hwf.
  { split; [apply (bool_decide_unpack _); by vm_compute|].
    repeat (apply Forall_cons; split;
            [apply (bool_decide_unpack _); by vm_compute|]).
    apply Forall_nil_2. }
  assert (Relations.edge graph "C" "d" (JsString "O")) as Hedge
    by (unfold Relations.edge; apply (bool_decide_unpack _); by vm_compute).
  destruct (makeBidirectional_inverse_edges graph "C" "d" (JsString "O")
              Hwf Hedge) as (Hkeep & Hreverse & _).
  split; [exact Hkeep|]. by apply (Hreverse "O").
Defined.

(** The same for the graph the module exports, whatever the two computed
    tables hold. *)
Lemma polyhedraGraph_inverse_edges
    (basePyramidsCupolae baseAugmentations : Relations.RawGraph)
    (source operation target : string) :
  Relations.edge (Relations.baseGraph basePyramidsCupolae baseAugmentations)
    source operation (JsString target) →
  target ≠ "" → target ≠ source →
  Relations.edge
    (Relations.polyhedraGraph basePyramidsCupolae baseAugmentations)
    target (Relations.getInverseOperation operation) (JsString source).
Proof.
  intros Hedge Hne Hloop. unfold Relations.polyhedraGraph, Relations.edge.
  rewrite sinksOf_makeBidirectional by apply wfGraph_baseGraph.
  apply elem_of_app. left.
  apply edge_declared in Hedge as (ops & sinks & He & Ho & Hs).
  apply elem_of_reverseSources.
  by exists source, ops, operation, sinks.
Qed.

(** C2.  When the closed graph maps [(solid, operation)] to exactly one
    candidate, [getNextPolyhedron] returns that candidate translated by
    [fromConwayNotation]; when it maps the pair to more than one
    candidate, [getNextPolyhedron] throws. *)
Theorem getNextPolyhedron_single_or_fatal
    (basePyramidsCupolae baseAugmentations : Relations.RawGraph)
    (toConwayNotation : string → Outcome string)
    (fromConwayNotation : JsValue → Outcome string)
    (solid operation conway : string) :
  let graph :=
    Relations.polyhedraGraph basePyramidsCupolae baseAugmentations in
  let next :=
    Relations.getNextPolyhedron basePyramidsCupolae baseAugmentations
      toConwayNotation fromConwayNotation solid operation in
  toConwayNotation solid = Returns conway →
  (∀ candidate : JsValue,
     Relations.candidatesOf graph conway operation = Some [candidate] →
     next = fromConwayNotation candidate)
  ∧ (∀ candidates : list JsValue,
       Relations.candidatesOf graph conway operation = Some candidates →
       1 < length candidates →
       next = Throws
                (Error "Cannot deal with more than one possibility right now")).
Proof.
  intros graph next Hconway. subst graph next.
  unfold Relations.getNextPolyhedron, Relations.candidatesOf.
  rewrite Hconway. split.
  - intros candidate H.
    destruct (Relations.objGet _ conway) as [ops|]; [|done]. simpl in H.
    rewrite H. reflexivity.
  - intros candidates H Hlen.
    destruct (Relations.objGet _ conway) as [ops|]; [|done]. simpl in H.
    rewrite H. by rewrite decide_True.
Qed.

Lemma getNextPolyhedron_single_or_fatal_witness :
  Relations.getNextPolyhedron [] [] Samples.sameName Samples.nameOf "T" "t"
  = Returns "tT"
  ∧ Relations.getNextPolyhedron [] [] Samples.sameName Samples.nameOf "J72" "g"
    = Throws (Error "Cannot deal with more than one possibility right now").
Proof.
  split.
  - apply (proj1 (getNextPolyhedron_single_or_fatal [] [] Samples.sameName
                    Samples.nameOf "T" "t" "T" eq_refl) (JsString "tT")).
    by vm_compute.
  - apply (proj2 (getNextPolyhedron_single_or_fatal [] [] Samples.sameName
                    Samples.nameOf "J72" "g" "J72" eq_refl)
             [JsString "eD"; JsString "J73"; JsString "J74"]).
    + by vm_compute.
    + simpl. lia.
Defined.

(** ** Checking a given polyhedron

    The invariants of a polyhedron that is written out can be decided by
    running through its faces. *)
Section Checks.
Import OperationUtils.
Context {V : Type} (p : Polyhedron V).

Lemma elem_of_indexed {A} (l : list A) i (x : A) :
  (i, x) ∈ imap (fun i x => (i, x)) l ↔ l !! i = Some x.
Proof.
  rewrite list_elem_of_lookup. split.
  - intros (j & Hj). rewrite list_lookup_imap in Hj.
    destruct (l !! j) eqn:E; simplify_eq/=. done.
  - intros Hi. exists i. by rewrite list_lookup_imap, Hi.
Qed.


Lemma validFaces_check :
  Forall (Forall (fun v => v < length (vertices p))) (faces p) → validFaces p.
Proof.
  intros Hall face v Hface Hv.
  rewrite Forall_forall in Hall. specialize (Hall _ Hface).
  rewrite Forall_forall in Hall. by apply Hall.
Qed.

Lemma distinctFaces_check :
  Forall (fun face => NoDup face ∧ 3 ≤ length face) (faces p) →
  distinctFaces p.
Proof. intros Hall face Hface. rewrite Forall_forall in Hall. by apply Hall. Qed.

Lemma closedManifold_check :
  Forall (fun face =>
            Forall (fun ab => length (filter (hasEdge ab.1 ab.2) (faces p)) = 2)
                   (faceEdges face))
         (faces p) →
  closedManifold p.
Proof.
  intros Hall face a b Hface Hab.
  rewrite Forall_forall in Hall. specialize (Hall _ Hface).
  rewrite Forall_forall in Hall. by apply (Hall (a, b)).
Qed.

Lemma consistentAdjacency_check (adjacency : Adjacency) :
  Forall (fun ff : nat * list nat =>
            Forall (fun v => ff.1 ∈ adjacentFaces adjacency v) ff.2)
         (imap (fun i face => (i, face)) (faces p)) →
  Forall (fun v => NoDup (adjacentFaces adjacency v))
         (seq 0 (length (vertices p))) →
  Forall (fun e =>
            v1 e < length (vertices p) ∧ v2 e < length (vertices p)
            ∧ v1 e ≠ v2 e ∧ f1 e ≠ f2 e
            ∧ f1 e ∈ adjacentFaces adjacency (v1 e)
            ∧ f1 e ∈ adjacentFaces adjacency (v2 e)
            ∧ f2 e ∈ adjacentFaces adjacency (v1 e)
            ∧ f2 e ∈ adjacentFaces adjacency (v2 e))
         (edges adjacency) →
  consistentAdjacency adjacency p.
Proof.
  intros Hfaces Hnodup Hedges. split_and!.
  - intros f face v Hf Hv. rewrite Forall_forall in Hfaces.
    specialize (Hfaces (f, face) (proj2 (elem_of_indexed _ _ _) Hf)).
    rewrite Forall_forall in Hfaces. by apply Hfaces.
  - intros v Hv. rewrite Forall_forall in Hnodup.
    apply Hnodup, elem_of_seq. lia.
  - intros e He. rewrite Forall_forall in Hedges. by apply Hedges.
Qed.

Lemma uniformDegree_check (adjacency : Adjacency) :
  Forall (fun v => length (adjacentFaces adjacency v) = count adjacency)
         (seq 0 (length (vertices p))) →
  uniformDegree adjacency p.
Proof.
  intros Hall v Hv. rewrite Forall_forall in Hall.
  apply Hall, elem_of_seq. lia.
Qed.

Lemma hasEdge_default {A} (a b : A) (face : option (list A)) :
  hasEdge a b (default [] face) →
  ∃ face', face = Some face' ∧ hasEdge a b face'.
Proof.
  destruct face as [face'|]; simpl; [eauto|].
  intros [H|H]; by apply elem_of_nil in H.
Qed.

Lemma cyclicAdjacency_check (adjacency : Adjacency) :
  Forall (fun e =>
            hasEdge (v1 e) (v2 e) (default [] (faces p !! f1 e))
            ∧ hasEdge (v1 e) (v2 e) (default [] (faces p !! f2 e))
            ∧ hasEdge (f1 e) (f2 e) (adjacentFaces adjacency (v1 e))
            ∧ hasEdge (f1 e) (f2 e) (adjacentFaces adjacency (v2 e)))
         (edges adjacency) →
  Forall (fun ff : nat * list nat =>
            Forall (fun vw : nat * nat =>
                      length (filter (fun e => sameEnds e vw.1 vw.2
                                               ∧ (f1 e = ff.1 ∨ f2 e = ff.1))
                                (edges adjacency)) = 1)
                   (faceEdges ff.2))
         (imap (fun i face => (i, face)) (faces p)) →
  Forall (fun v =>
            Forall (fun fg : nat * nat =>
                      length (filter (fun e => (v1 e = v ∨ v2 e = v)
                                               ∧ sameFaces e fg.1 fg.2)
                                (edges adjacency)) = 1)
                   (faceEdges (adjacentFaces adjacency v)))
         (seq 0 (length (vertices p))) →
  cyclicAdjacency adjacency p.
Proof.
  intros Hedges Hsides Hcorners. split_and!.
  - intros e He. rewrite Forall_forall in Hedges.
    destruct (Hedges e He) as (H1%hasEdge_default & H2%hasEdge_default & ? & ?).
    done.
  - intros f face v w Hf Hvw. rewrite Forall_forall in Hsides.
    specialize (Hsides (f, face) (proj2 (elem_of_indexed _ _ _) Hf)).
    rewrite Forall_forall in Hsides. by apply (Hsides (v, w)).
  - intros v f g Hv Hfg. rewrite Forall_forall in Hcorners.
    specialize (Hcorners v ltac:(apply elem_of_seq; lia)).
    rewrite Forall_forall in Hcorners. by apply (Hcorners (f, g)).
Qed.
End Checks.

Ltac decide_by_computation := apply (bool_decide_unpack _); by vm_compute.

Section SampleFacts.
Import OperationUtils Samples.

Lemma tetrahedron_wellFormed : wellFormed tetrahedron.
Proof.
  split_and!.
  - apply validFaces_check. decide_by_computation.
  - apply distinctFaces_check. decide_by_computation.
  - apply closedManifold_check. decide_by_computation.
Qed.

Lemma tetrahedron_adjacency :
  consistentAdjacency tetrahedronAdjacency tetrahedron
  ∧ uniformDegree tetrahedronAdjacency tetrahedron.
Proof.
  split.
  - apply consistentAdjacency_check; decide_by_computation.
  - apply uniformDegree_check. decide_by_computation.
Qed.

Lemma tetrahedronWithStray_validFaces : validFaces tetrahedronWithStray.
Proof. apply validFaces_check. decide_by_computation. Qed.

Lemma pyramidWithStrays_validFaces : validFaces pyramidWithStrays.
Proof. apply validFaces_check. decide_by_computation. Qed.

Lemma flatOctahedron_wellFormed : wellFormed flatOctahedron.
Proof.
  split_and!.
  - apply validFaces_check. decide_by_computation.
  - apply distinctFaces_check. decide_by_computation.
  - apply closedManifold_check. decide_by_computation.
Qed.

Lemma squarePyramid_wellFormed : wellFormed squarePyramid.
Proof.
  split_and!.
  - apply validFaces_check. decide_by_computation.
  - apply distinctFaces_check. decide_by_computation.
  - apply closedManifold_check. decide_by_computation.
Qed.

Lemma squarePyramid_adjacency :
  consistentAdjacency squarePyramidAdjacency squarePyramid.
Proof. apply consistentAdjacency_check; decide_by_computation. Qed.

Lemma tetrahedron_cyclicAdjacency :
  cyclicAdjacency tetrahedronAdjacency tetrahedron.
Proof. apply cyclicAdjacency_check; decide_by_computation. Qed.

Lemma squarePyramid_cyclicAdjacency :
  cyclicAdjacency squarePyramidAdjacency squarePyramid.
Proof. apply cyclicAdjacency_check; decide_by_computation. Qed.
End SampleFacts.

(** ** Vertex clean-up *)
Section IndexMaps.
Import OperationUtils.

Lemma fromPairs_reverse pairs :
  fromPairs pairs = list_to_map (reverse pairs).
Proof.
  unfold fromPairs. induction pairs as [|[k v] pairs IH] using rev_ind; [done|].
  rewrite foldl_app, reverse_app, IH. reflexivity.
Qed.

Lemma fromPairs_lookup pairs x y :
  NoDup pairs.*1 → fromPairs pairs !! x = Some y ↔ (x, y) ∈ pairs.
Proof.
  intros Hnd. rewrite fromPairs_reverse.
  rewrite <- elem_of_list_to_map
    by (by rewrite fmap_reverse, reverse_Permutation).
  by rewrite elem_of_reverse.
Qed.

Lemma invert_lookup bound (object : gmap nat nat) x y :
  (∀ a b, object !! a = Some b → a < bound) →
  (∀ a a' b, object !! a = Some b → object !! a' = Some b → a = a') →
  invert bound object !! y = Some x ↔ object !! x = Some y.
Proof.
  intros Hbound Hinj. unfold invert.
  assert (∀ j, foldl (fun acc k =>
                        match object !! k with
                        | Some v => <[v:=k]> acc
                        | None => acc
                        end) (∅ : gmap nat nat) (seq 0 j) !! y = Some x
               ↔ x < j ∧ object !! x = Some y) as Hloop.
  { induction j as [|j IH].
    - simpl. rewrite lookup_empty. split; [done | lia].
    - rewrite seq_S, foldl_app. simpl.
      destruct (object !! j) as [v|] eqn:Ej.
      + destruct (decide (v = y)) as [->|Hne].
        * rewrite lookup_insert_eq. split.
          -- intros [= <-]. split; [lia | done].
          -- intros [_ Hx]. f_equal. by apply (Hinj j x y).
        * rewrite lookup_insert_ne by done. rewrite IH. split.
          -- intros [? ?]. split; [lia | done].
          -- intros [Hlt Hx]. split; [|done].
             destruct (decide (x = j)) as [->|]; [congruence | lia].
      + rewrite IH. split.
        * intros [? ?]. split; [lia | done].
        * intros [Hlt Hx]. split; [|done].
          destruct (decide (x = j)) as [->|]; [congruence | lia]. }
  rewrite Hloop. split; [by intros [_ ?] | eauto].
Qed.
End IndexMaps.

Lemma filter_ext_elem {A} (P Q : A → Prop)
    `{!∀ x, Decision (P x), !∀ x, Decision (Q x)} (l : list A) :
  (∀ x, x ∈ l → P x ↔ Q x) → filter P l = filter Q l.
Proof.
  induction l as [|a l IH]; intros Hext; [done|].
  rewrite !filter_cons.
  assert (P a ↔ Q a) as Ha by apply Hext, list_elem_of_here.
  rewrite IH by (intros; apply Hext; by apply list_elem_of_further).
  destruct (decide (P a)), (decide (Q a)); tauto.
Qed.

Section RemoveExtraneousFacts.
Import OperationUtils.
Context {V : Type} (p : Polyhedron V).
Local Abbreviation n := (length (vertices p)).
Local Abbreviation k := (length (toRemove p)).
Local Abbreviation used := (fun v : nat => v ∈ mjoin (faces p)).

Lemma elem_of_toRemove v : v ∈ toRemove p ↔ v < n ∧ ¬ used v.
Proof.
  unfold toRemove. rewrite list_elem_of_filter, elem_of_seq. intuition lia.
Qed.

Lemma length_toRemove_le : k ≤ n.
Proof.
  unfold toRemove. etrans; [apply length_filter|]. by rewrite length_seq.
Qed.

Lemma takeRight_indices : takeRight k (seq 0 n) = seq (n - k) k.
Proof.
  pose proof length_toRemove_le.
  unfold takeRight. rewrite length_seq, drop_seq. f_equal; lia.
Qed.

Lemma elem_of_trailingKept v : v ∈ trailingKept p ↔ n - k ≤ v < n ∧ used v.
Proof.
  pose proof length_toRemove_le.
  unfold trailingKept. rewrite takeRight_indices.
  rewrite list_elem_of_filter, elem_of_seq, elem_of_toRemove. split.
  - intros [Hnot ?]. split; [lia|].
    destruct (decide (used v)) as [|Hunused]; [done|].
    exfalso. apply Hnot. split; [lia | done].
  - intros [? Hused]. split; [|lia]. by intros [_ Hunused].
Qed.

Lemma elem_of_freedSlots v : v ∈ freedSlots p ↔ v < n - k ∧ ¬ used v.
Proof.
  unfold freedSlots. rewrite list_elem_of_filter, elem_of_seq. intuition lia.
Qed.

Lemma toRemove_split :
  toRemove p
  = freedSlots p ++ filter (fun v : nat => ¬ used v) (seq (n - k) k).
Proof.
  pose proof length_toRemove_le.
  unfold freedSlots. rewrite <- filter_app, <- seq_app.
  unfold toRemove at 1. do 2 f_equal. lia.
Qed.

Lemma length_trailingKept : length (trailingKept p) = length (freedSlots p).
Proof.
  assert (trailingKept p
          = filter (fun v : nat => ¬ ¬ used v) (seq (n - k) k)) as ->.
  { unfold trailingKept. rewrite takeRight_indices.
    apply filter_ext_elem. intros v Hv. apply elem_of_seq in Hv.
    rewrite elem_of_toRemove. pose proof length_toRemove_le. split.
    - intros Hnot Hunused. apply Hnot. split; [lia | done].
    - intros Hused [_ Hunused]. by apply Hused. }
  pose proof (filter_app_complement (fun v : nat => ¬ used v) (seq (n - k) k))
    as Hperm.
  apply Permutation_length in Hperm.
  rewrite length_app, length_seq in Hperm.
  pose proof (f_equal length toRemove_split) as Hsplit.
  rewrite length_app in Hsplit. lia.
Qed.

Lemma NoDup_trailingKept : NoDup (trailingKept p).
Proof.
  unfold trailingKept. rewrite takeRight_indices.
  apply NoDup_filter, NoDup_seq.
Qed.

Lemma NoDup_freedSlots : NoDup (freedSlots p).
Proof. unfold freedSlots. apply NoDup_filter, NoDup_seq. Qed.

Lemma zip_trailingKept :
  zip (trailingKept p) (toRemove p) = zip (trailingKept p) (freedSlots p).
Proof.
  rewrite toRemove_split, zip_with_app_r.
  rewrite <- length_trailingKept, take_ge, drop_ge by done.
  simpl. by rewrite app_nil_r.
Qed.

(** The renumbering pairs the i-th trailing vertex that stays with the
    i-th freed slot. *)
Lemma newToOld_lookup x y :
  newToOld p !! x = Some y
  ↔ ∃ i, trailingKept p !! i = Some x ∧ freedSlots p !! i = Some y.
Proof.
  unfold newToOld. rewrite zip_trailingKept.
  rewrite fromPairs_lookup
    by (rewrite fst_zip by (by rewrite length_trailingKept);
        apply NoDup_trailingKept).
  rewrite elem_of_lookup_zip_with. split.
  - intros (i & a & b & [= -> ->] & Ha & Hb). eauto.
  - intros (i & Ha & Hb). by exists i, x, y.
Qed.

Lemma oldToNew_lookup x y :
  oldToNew p !! y = Some x ↔ newToOld p !! x = Some y.
Proof.
  unfold oldToNew. apply invert_lookup.
  - intros a b (i & Ha & _)%newToOld_lookup.
    apply list_elem_of_lookup_2, elem_of_trailingKept in Ha. lia.
  - intros a a' b (i & Ha & Hb)%newToOld_lookup (i' & Ha' & Hb')%newToOld_lookup.
    assert (i = i') as -> by (eapply NoDup_lookup; eauto using NoDup_freedSlots).
    congruence.
Qed.

(** A used vertex in front keeps its index; a used vertex among the last
    [numToRemove] moves into a freed slot; either way the vertex the
    result holds at the new index is the vertex itself. *)
Lemma renumber_used v :
  v < n → used v →
  getOrSelf (newToOld p) v < n - k
  ∧ getOrSelf (oldToNew p) (getOrSelf (newToOld p) v) = v
  ∧ (v < n - k → getOrSelf (newToOld p) v = v)
  ∧ (n - k ≤ v → getOrSelf (newToOld p) v ∈ freedSlots p).
Proof.
  intros Hv Hused. unfold getOrSelf.
  destruct (decide (v < n - k)) as [Hhead|Htail].
  - assert (newToOld p !! v = None) as ->.
    { apply eq_None_not_Some. intros [y (i & Hi & _)%newToOld_lookup].
      apply list_elem_of_lookup_2, elem_of_trailingKept in Hi. lia. }
    simpl. assert (oldToNew p !! v = None) as ->.
    { apply eq_None_not_Some.
      intros [x (i & _ & Hi)%oldToNew_lookup%newToOld_lookup].
      apply list_elem_of_lookup_2, elem_of_freedSlots in Hi. tauto. }
    simpl. split_and!; [done | done | done | lia].
  - assert (v ∈ trailingKept p) as [i Hi]%list_elem_of_lookup_1
      by (apply elem_of_trailingKept; split; [lia | done]).
    destruct (lookup_lt_is_Some_2 (freedSlots p) i) as [y Hy].
    { rewrite <- length_trailingKept. by eapply lookup_lt_Some. }
    assert (newToOld p !! v = Some y) as Hnew
      by (apply newToOld_lookup; eauto).
    rewrite Hnew. simpl.
    apply oldToNew_lookup in Hnew as ->. simpl.
    pose proof (list_elem_of_lookup_2 _ _ _ Hy) as Hfree.
    pose proof Hfree as [? _]%elem_of_freedSlots.
    split_and!; [done | done | lia | done].
Qed.

(** Every index of the result comes from a used vertex, and is what that
    vertex is renumbered to. *)
Lemma renumber_source j :
  j < n - k →
  let v := getOrSelf (oldToNew p) j in
  v < n ∧ used v ∧ getOrSelf (newToOld p) v = j.
Proof.
  intros Hj. simpl. pose proof length_toRemove_le.
  destruct (decide (used j)) as [Hused|Hunused].
  - destruct (renumber_used j ltac:(lia) Hused) as (_ & Hsrc & Hkeep & _).
    rewrite Hkeep in Hsrc by done. rewrite Hsrc.
    split; [lia|]. split; [done|]. by apply Hkeep.
  - assert (j ∈ freedSlots p) as [i Hi]%list_elem_of_lookup_1
      by by apply elem_of_freedSlots.
    destruct (lookup_lt_is_Some_2 (trailingKept p) i) as [v Hv].
    { rewrite length_trailingKept. by eapply lookup_lt_Some. }
    assert (newToOld p !! v = Some j) as Hnew
      by (apply newToOld_lookup; eauto).
    assert (getOrSelf (oldToNew p) j = v) as ->
      by (unfold getOrSelf; by rewrite (proj2 (oldToNew_lookup v j) Hnew)).
    apply list_elem_of_lookup_2, elem_of_trailingKept in Hv as [? ?].
    unfold getOrSelf. rewrite Hnew. simpl. split; [lia|]. done.
Qed.

(** The vertex list is only ever read at one of its indices. *)
Lemma oldToNew_in_range i : i < n → getOrSelf (oldToNew p) i < n.
Proof.
  intros Hi. unfold getOrSelf.
  destruct (oldToNew p !! i) as [v|] eqn:E; simpl; [|done].
  apply oldToNew_lookup, newToOld_lookup in E as (j & Hj & _).
  apply list_elem_of_lookup_2, elem_of_trailingKept in Hj. lia.
Qed.

Lemma length_removeExtraneousVertices :
  length (vertices (removeExtraneousVertices p)) = n - k.
Proof.
  pose proof length_toRemove_le.
  unfold removeExtraneousVertices, dropRight. simpl.
  rewrite length_take, !length_imap. lia.
Qed.

Lemma lookup_removeExtraneousVertices j :
  j < n - k →
  vertices (removeExtraneousVertices p) !! j
  = vertices p !! getOrSelf (oldToNew p) j.
Proof.
  intros Hj. pose proof length_toRemove_le.
  unfold removeExtraneousVertices, dropRight. simpl.
  rewrite length_imap, lookup_take_lt by done.
  rewrite list_lookup_imap.
  destruct (lookup_lt_is_Some_2 (vertices p) j ltac:(lia)) as [v ->].
  destruct (lookup_lt_is_Some_2 (vertices p) (getOrSelf (oldToNew p) j))
    as [w Hw]; [apply oldToNew_in_range; lia|].
  simpl. by rewrite Hw.
Qed.

Lemma faces_removeExtraneousVertices :
  faces (removeExtraneousVertices p)
  = (fun face : list nat => getOrSelf (newToOld p) <$> face) <$> faces p.
Proof. reflexivity. Qed.

Lemma vertices_removeExtraneousVertices :
  Some <$> vertices (removeExtraneousVertices p)
  = (fun v => vertices p !! v) <$> vertexSources p.
Proof.
  apply list_eq. intros j. unfold vertexSources.
  rewrite !list_lookup_fmap.
  destruct (decide (j < n - k)) as [Hj|Hj].
  - rewrite lookup_removeExtraneousVertices by done.
    rewrite lookup_seq_lt by done. simpl.
    destruct (lookup_lt_is_Some_2 (vertices p) (getOrSelf (oldToNew p) j))
      as [w Hw]; [apply oldToNew_in_range; pose proof length_toRemove_le; lia|].
    by rewrite Hw.
  - rewrite lookup_seq_ge by lia.
    rewrite lookup_ge_None_2; [done|].
    rewrite length_removeExtraneousVertices. lia.
Qed.

Lemma vertexSources_Permutation :
  (∀ v, used v → v < n) →
  vertexSources p ≡ₚ filter used (seq 0 n).
Proof.
  intros Hvalid. apply NoDup_Permutation.
  - unfold vertexSources. apply NoDup_fmap_2_strong; [|apply NoDup_seq].
    intros i j Hi%elem_of_seq Hj%elem_of_seq E.
    destruct (renumber_source i ltac:(lia)) as (_ & _ & <-).
    destruct (renumber_source j ltac:(lia)) as (_ & _ & <-).
    by rewrite E.
  - apply NoDup_filter, NoDup_seq.
  - intros v. rewrite list_elem_of_filter, elem_of_seq.
    unfold vertexSources. rewrite list_elem_of_fmap. split.
    + intros (j & -> & Hj%elem_of_seq).
      destruct (renumber_source j ltac:(lia)) as (? & ? & _).
      split; [done | lia].
    + intros [Hused _]. exists (getOrSelf (newToOld p) v).
      destruct (renumber_used v (Hvalid _ Hused) Hused) as (? & ? & _).
      split; [done|]. apply elem_of_seq. lia.
Qed.
End RemoveExtraneousFacts.

(** *** The order of the vertices that move *)
Section Increasing.

Lemma filter_seq_increasing (P : nat → Prop) `{!∀ x, Decision (P x)}
    (start len i j a b : nat) :
  i < j →
  filter P (seq start len) !! i = Some a →
  filter P (seq start len) !! j = Some b →
  a < b.
Proof.
  revert start i j. induction len as [|len IH]; intros start i j Hij Ha Hb.
  { done. }
  simpl in Ha, Hb. rewrite filter_cons in Ha, Hb.
  destruct (decide (P start)).
  - destruct j as [|j]; [lia|]. simpl in Hb.
    destruct i as [|i]; simpl in Ha.
    + injection Ha as <-.
      apply list_elem_of_lookup_2, list_elem_of_filter in Hb as [_ Hb].
      apply elem_of_seq in Hb. lia.
    + apply (IH (S start) i j); [lia | done..].
  - by apply (IH (S start) i j).
Qed.
End Increasing.

Section MovedInOrder.
Import OperationUtils.
Context {V : Type} (p : Polyhedron V).
Local Abbreviation n := (length (vertices p)).
Local Abbreviation k := (length (toRemove p)).

(** The i-th of the trailing vertices that stay goes to [toRemove[i]],
    the i-th freed slot. *)
Lemma renumber_trailingKept i u :
  trailingKept p !! i = Some u →
  ∃ s, toRemove p !! i = Some s ∧ freedSlots p !! i = Some s
       ∧ getOrSelf (newToOld p) u = s.
Proof.
  intros Hu.
  destruct (lookup_lt_is_Some_2 (freedSlots p) i) as [s Hs].
  { rewrite <- length_trailingKept. by eapply lookup_lt_Some. }
  exists s. split_and!.
  - rewrite toRemove_split. by apply lookup_app_l_Some.
  - done.
  - unfold getOrSelf.
    by rewrite (proj2 (newToOld_lookup p u s) (ex_intro _ i (conj Hu Hs))).
Qed.

Lemma trailingKept_increasing i j a b :
  i < j → trailingKept p !! i = Some a → trailingKept p !! j = Some b → a < b.
Proof.
  unfold trailingKept. rewrite takeRight_indices.
  apply filter_seq_increasing.
Qed.

Lemma toRemove_increasing i j a b :
  i < j → toRemove p !! i = Some a → toRemove p !! j = Some b → a < b.
Proof. unfold toRemove. apply filter_seq_increasing. Qed.

(** Moved vertices keep their order among themselves. *)
Lemma renumber_moved_in_order u v :
  u ∈ trailingKept p → v ∈ trailingKept p → u < v →
  getOrSelf (newToOld p) u < getOrSelf (newToOld p) v.
Proof.
  intros [i Hi]%list_elem_of_lookup_1 [j Hj]%list_elem_of_lookup_1 Huv.
  destruct (renumber_trailingKept i u Hi) as (s & Hs & _ & ->).
  destruct (renumber_trailingKept j v Hj) as (t & Ht & _ & ->).
  assert (i < j) as Hij.
  { destruct (decide (i < j)) as [|Hge]; [done|]. exfalso.
    destruct (decide (i = j)) as [->|Hne];
      [assert (u = v) by congruence; lia|].
    pose proof (trailingKept_increasing j i v u ltac:(lia) Hj Hi). lia. }
  by eapply toRemove_increasing.
Qed.
End MovedInOrder.

(** *** Renaming the vertices of faces *)
Section Renaming.
Import OperationUtils.
Context {A B : Type} `{!EqDecision A, !EqDecision B}.
Variable g : A → B.
Variable S : A → Prop.
Hypothesis g_inj : ∀ a b, S a → S b → g a = g b → a = b.
Implicit Types (a b : A) (face : list A).

Lemma faceEdges_fmap face :
  faceEdges (g <$> face) = prod_map g g <$> faceEdges face.
Proof.
  unfold faceEdges, rotate. rewrite length_fmap.
  rewrite <- fmap_drop, <- fmap_take, <- fmap_app.
  generalize (drop (1 `mod` length face) face
              ++ take (1 `mod` length face) face).
  induction face as [|a face IH]; intros [|b l]; simpl; f_equal; auto.
Qed.

Lemma faceEdges_elem a b face :
  (a, b) ∈ faceEdges face → a ∈ face ∧ b ∈ face.
Proof.
  unfold faceEdges. intros H. split.
  - by eapply elem_of_zip_l.
  - eapply elem_of_rotate, elem_of_zip_r, H.
Qed.

Lemma hasEdge_fmap a b face :
  S a → S b → (∀ v, v ∈ face → S v) →
  hasEdge (g a) (g b) (g <$> face) ↔ hasEdge a b face.
Proof.
  intros Ha Hb Hface. unfold hasEdge. rewrite faceEdges_fmap.
  assert (∀ x y, S x → S y →
            (g x, g y) ∈ prod_map g g <$> faceEdges face
            ↔ (x, y) ∈ faceEdges face) as Hmem.
  { intros x y Hx Hy. rewrite list_elem_of_fmap. split.
    - intros ([x' y'] & [= E1 E2] & Hin).
      pose proof (faceEdges_elem _ _ _ Hin) as [Hx' Hy'].
      apply g_inj in E1; [|auto..]. apply g_inj in E2; [|auto..].
      by subst.
    - intros Hin. by exists (x, y). }
  by rewrite !Hmem.
Qed.

Lemma filter_hasEdge_fmap a b (fs : list (list A)) :
  S a → S b → (∀ face v, face ∈ fs → v ∈ face → S v) →
  length (filter (hasEdge (g a) (g b))
            ((fun face : list A => g <$> face) <$> fs))
  = length (filter (hasEdge a b) fs).
Proof.
  intros Ha Hb. induction fs as [|face fs IH]; intros Hfs; [done|].
  rewrite fmap_cons, !filter_cons.
  assert (hasEdge (g a) (g b) (g <$> face) ↔ hasEdge a b face) as Hiff.
  { apply hasEdge_fmap; [done..|]. intros v. apply Hfs, list_elem_of_here. }
  specialize (IH ltac:(intros f v ?; apply Hfs; by apply list_elem_of_further)).
  destruct (decide (hasEdge (g a) (g b) (g <$> face))),
           (decide (hasEdge a b face)); simpl; [lia | tauto | tauto | lia].
Qed.
End Renaming.

Section RemoveExtraneousInvariants.
Import OperationUtils.
Context {V : Type} (p : Polyhedron V).
Local Abbreviation n := (length (vertices p)).
Local Abbreviation k := (length (toRemove p)).
Local Abbreviation used := (fun v : nat => v ∈ mjoin (faces p)).
Local Abbreviation q := (removeExtraneousVertices p).
Hypothesis Hvalid : validFaces p.

Lemma used_valid v : used v → v < n.
Proof.
  intros (face & Hv & Hface)%list_elem_of_join. by eapply Hvalid.
Qed.

Lemma renumber_inj u v :
  used u → used v →
  getOrSelf (newToOld p) u = getOrSelf (newToOld p) v → u = v.
Proof.
  intros Hu Hv E.
  destruct (renumber_used p u (used_valid _ Hu) Hu) as (_ & <- & _).
  destruct (renumber_used p v (used_valid _ Hv) Hv) as (_ & <- & _).
  by rewrite E.
Qed.

Lemma removeExtraneousVertices_validFaces : validFaces q.
Proof.
  intros face' v' Hface' Hv'.
  rewrite faces_removeExtraneousVertices in Hface'.
  apply list_elem_of_fmap in Hface' as (face & -> & Hface).
  apply list_elem_of_fmap in Hv' as (v & -> & Hv).
  rewrite length_removeExtraneousVertices.
  assert (used v) as Hused by (apply list_elem_of_join; eauto).
  by destruct (renumber_used p v (used_valid _ Hused) Hused) as (? & _).
Qed.

Lemma removeExtraneousVertices_allReferenced : allReferenced q.
Proof.
  intros j Hj. rewrite length_removeExtraneousVertices in Hj.
  destruct (renumber_source p j Hj) as (_ & Hused & Hj').
  apply list_elem_of_join in Hused as (face & Hv & Hface).
  apply list_elem_of_join.
  exists (getOrSelf (newToOld p) <$> face). split.
  - rewrite <- Hj'. by apply list_elem_of_fmap_2.
  - rewrite faces_removeExtraneousVertices.
    by apply (list_elem_of_fmap_2
                (fun face : list nat => getOrSelf (newToOld p) <$> face)).
Qed.

Lemma removeExtraneousVertices_distinctFaces :
  distinctFaces p → distinctFaces q.
Proof.
  intros Hdistinct face' Hface'.
  rewrite faces_removeExtraneousVertices in Hface'.
  apply list_elem_of_fmap in Hface' as (face & -> & Hface).
  destruct (Hdistinct face Hface) as [Hnd Hlen].
  rewrite length_fmap. split; [|done].
  apply NoDup_fmap_2_strong; [|done].
  intros u v Hu Hv. apply renumber_inj; apply list_elem_of_join; eauto.
Qed.

Lemma removeExtraneousVertices_closedManifold :
  closedManifold p → closedManifold q.
Proof.
  intros Hmanifold face' a' b' Hface' Hedge.
  rewrite faces_removeExtraneousVertices in Hface' |- *.
  apply list_elem_of_fmap in Hface' as (face & -> & Hface).
  rewrite faceEdges_fmap in Hedge.
  apply list_elem_of_fmap in Hedge as ([a b] & [= -> ->] & Hedge).
  pose proof (faceEdges_elem _ _ _ Hedge) as [Ha Hb].
  rewrite (filter_hasEdge_fmap _ used renumber_inj).
  - by eapply Hmanifold.
  - apply list_elem_of_join; eauto.
  - apply list_elem_of_join; eauto.
  - intros f v Hf Hv. apply list_elem_of_join; eauto.
Qed.
End RemoveExtraneousInvariants.

Section NothingToRemove.
Import OperationUtils.

Lemma invert_empty bound : invert bound ∅ = ∅.
Proof.
  unfold invert. induction bound as [|bound IH]; [done|].
  rewrite seq_S, foldl_app, IH. simpl. by rewrite lookup_empty.
Qed.

(** When every vertex is used, nothing is removed and nothing moves. *)
Lemma removeExtraneousVertices_fixed {V} (p : Polyhedron V) :
  allReferenced p → removeExtraneousVertices p = p.
Proof.
  intros Hall.
  assert (toRemove p = []) as Hnone.
  { apply elem_of_nil_inv. intros v [Hv Hunused]%elem_of_toRemove.
    by apply Hunused, Hall. }
  assert (newToOld p = ∅) as Hnew.
  { unfold newToOld. rewrite Hnone. by rewrite zip_with_nil_r. }
  assert (oldToNew p = ∅) as Hold.
  { unfold oldToNew. rewrite Hnew. apply invert_empty. }
  unfold removeExtraneousVertices. rewrite Hnone, Hnew, Hold.
  destruct p as [vs fs]. simpl. f_equal.
  - unfold dropRight. rewrite length_imap, Nat.sub_0_r, firstn_all2
      by (by rewrite length_imap).
    apply list_eq. intros i. rewrite list_lookup_imap.
    destruct (vs !! i) as [v|] eqn:E; [|done]. simpl.
    unfold getOrSelf. rewrite lookup_empty. simpl. by rewrite E.
  - rewrite <- (list_fmap_id fs) at 2. apply list_fmap_ext. intros _ face _.
    rewrite <- (list_fmap_id face) at 2. apply list_fmap_ext. intros _ v _.
    unfold getOrSelf. by rewrite lookup_empty.
Qed.
End NothingToRemove.

(** C6, as the code has it.  [removeExtraneousVertices] keeps exactly the
    vertices some face uses, each once; a used vertex in front of the last
    [numToRemove] keeps its index; the used vertices among the last
    [numToRemove] are moved into the freed indices in front, the i-th of
    them (by index) into [toRemove[i]], the i-th freed index; and the
    faces are renumbered accordingly, so every face still names the same
    vertices.  The vertices that keep their index keep their order, and
    so do the vertices that are moved; a moved vertex may overtake one
    that keeps its index. *)
Theorem removeExtraneousVertices_renumbering
    {V : Type} (p : OperationUtils.Polyhedron V) :
  OperationUtils.validFaces p →
  let q := OperationUtils.removeExtraneousVertices p in
  let n := length (OperationUtils.vertices p) in
  let kept := n - length (OperationUtils.toRemove p) in
  let renumber := OperationUtils.getOrSelf (OperationUtils.newToOld p) in
  let used := fun v : nat => v ∈ mjoin (OperationUtils.faces p) in
  Some <$> OperationUtils.vertices q
  = (fun v => OperationUtils.vertices p !! v)
      <$> OperationUtils.vertexSources p
  ∧ OperationUtils.vertexSources p ≡ₚ filter used (seq 0 n)
  ∧ OperationUtils.faces q
    = (fun face : list nat => renumber <$> face) <$> OperationUtils.faces p
  ∧ (∀ v, used v →
       OperationUtils.vertices q !! renumber v = OperationUtils.vertices p !! v
       ∧ (v < kept → renumber v = v)
       ∧ (kept ≤ v → renumber v < kept ∧ renumber v ∈ OperationUtils.toRemove p))
  ∧ (∀ u, u ∈ OperationUtils.trailingKept p ↔ kept ≤ u < n ∧ used u)
  ∧ (∀ i j a b, i < j →
       OperationUtils.trailingKept p !! i = Some a →
       OperationUtils.trailingKept p !! j = Some b → a < b)
  ∧ (∀ i j a b, i < j →
       OperationUtils.toRemove p !! i = Some a →
       OperationUtils.toRemove p !! j = Some b → a < b)
  ∧ (∀ i u, OperationUtils.trailingKept p !! i = Some u →
       ∃ slot, OperationUtils.toRemove p !! i = Some slot
               ∧ renumber u = slot)
  ∧ (∀ u v, used u → used v → u < v → v < kept ∨ kept ≤ u →
       renumber u < renumber v).
Proof.
  intros Hvalid q n kept renumber used.
  subst q n kept renumber used. cbv beta. split_and!.
  - apply vertices_removeExtraneousVertices.
  - apply vertexSources_Permutation. intros v. by apply used_valid.
  - apply faces_removeExtraneousVertices.
  - intros v Hused.
    destruct (renumber_used p v (used_valid p Hvalid v Hused) Hused)
      as (Hlt & Hsrc & Hkeep & Hmove).
    split_and!.
    + rewrite lookup_removeExtraneousVertices by done. by rewrite Hsrc.
    + done.
    + intros Hv. split; [done|].
      apply Hmove, elem_of_freedSlots in Hv as [? ?].
      apply elem_of_toRemove. split; [lia | done].
  - apply elem_of_trailingKept.
  - apply trailingKept_increasing.
  - apply toRemove_increasing.
  - intros i u Hu.
    destruct (renumber_trailingKept p i u Hu) as (slot & Hslot & _ & E).
    eauto.
  - intros u v Hu Hv Huv Hside.
    pose proof (used_valid p Hvalid u Hu) as Hun.
    pose proof (used_valid p Hvalid v Hv) as Hvn.
    destruct Hside as [Hkept|Hmoved].
    + destruct (renumber_used p u Hun Hu) as (_ & _ & Eu & _).
      destruct (renumber_used p v Hvn Hv) as (_ & _ & Ev & _).
      rewrite Eu, Ev by lia. done.
    + apply renumber_moved_in_order; [| |done];
        apply elem_of_trailingKept; (split; [lia | done]).
Qed.

Lemma removeExtraneousVertices_renumbering_witness :
  let p := Samples.pyramidWithStrays in
  let q := OperationUtils.removeExtraneousVertices p in
  let renumber := OperationUtils.getOrSelf (OperationUtils.newToOld p) in
  OperationUtils.vertexSources p ≡ₚ [1; 3; 4; 5; 6]
  ∧ OperationUtils.faces q
    = [[0; 4; 3; 1]; [1; 3; 2]; [3; 4; 2]; [4; 0; 2]; [0; 1; 2]]
  ∧ OperationUtils.trailingKept p = [5; 6]
  ∧ OperationUtils.toRemove p = [0; 2]
  ∧ renumber 5 = 0 ∧ renumber 6 = 2
  ∧ renumber 5 < renumber 6.
Proof.
  intros p q renumber.
  destruct (removeExtraneousVertices_renumbering p
              pyramidWithStrays_validFaces)
    as (_ & Hperm & Hfaces & _ & _ & _ & _ & Hslot & Horder).
  split_and!.
  - exact Hperm.
  - exact Hfaces.
  - reflexivity.
  - reflexivity.
  - destruct (Hslot 0 5 eq_refl) as (slot & [= <-] & E). exact E.
  - destruct (Hslot 1 6 eq_refl) as (slot & [= <-] & E). exact E.
  - apply Horder.
    + apply (bool_decide_unpack _). by vm_compute.
    + apply (bool_decide_unpack _). by vm_compute.
    + lia.
    + right. vm_compute. lia.
Defined.

(** C6, as the claim has it: the relative order of the retained vertices
    is preserved.  In a tetrahedron with a stray vertex at index 1 the
    last vertex is moved to index 1, in front of the vertices 2 and 3. *)
Lemma removeExtraneousVertices_reorders :
  let p := Samples.tetrahedronWithStray in
  OperationUtils.validFaces p
  ∧ OperationUtils.vertices p
    = [(0, 0, 0); (9, 9, 9); (1, 0, 0); (0, 1, 0); (0, 0, 1)]%Z
  ∧ OperationUtils.vertices (OperationUtils.removeExtraneousVertices p)
    = [(0, 0, 0); (0, 0, 1); (1, 0, 0); (0, 1, 0)]%Z
  ∧ ¬ OperationUtils.keepsRelativeOrder p.
Proof.
  intros p. split_and!.
  - apply tetrahedronWithStray_validFaces.
  - reflexivity.
  - by vm_compute.
  - intros Horder.
    assert (2 ∈ mjoin (OperationUtils.faces p)) as H2
      by decide_by_computation.
    assert (4 ∈ mjoin (OperationUtils.faces p)) as H4
      by decide_by_computation.
    specialize (Horder 2 4 H2 H4 ltac:(lia)).
    vm_compute in Horder. lia.
Qed.

(** ** Vertex deduplication *)
Section UniqFacts.
Import OperationUtils.

Lemma elem_of_uniqFrom seen array x :
  x ∈ uniqFrom seen array ↔ x ∈ array ∧ x ∉ seen.
Proof.
  revert seen. induction array as [|a array IH]; intros seen; simpl.
  - rewrite !elem_of_nil. tauto.
  - case_decide as Ha.
    + rewrite IH, elem_of_cons. split; [tauto|].
      intros [[->|?] ?]; [done | tauto].
    + rewrite !elem_of_cons, IH, not_elem_of_cons.
      destruct (decide (x = a)) as [->|]; [tauto|]. tauto.
Qed.

Lemma NoDup_uniqFrom seen array : NoDup (uniqFrom seen array).
Proof.
  revert seen. induction array as [|a array IH]; intros seen; simpl.
  - apply NoDup_nil_2.
  - case_decide; [apply IH|].
    apply NoDup_cons. split; [|apply IH].
    rewrite elem_of_uniqFrom, not_elem_of_cons. tauto.
Qed.

Lemma uniqFrom_NoDup seen array :
  NoDup array → (∀ x, x ∈ array → x ∉ seen) → uniqFrom seen array = array.
Proof.
  revert seen. induction array as [|a array IH]; intros seen Hnd Hseen; [done|].
  apply NoDup_cons in Hnd as [Ha Hnd]. simpl.
  rewrite decide_False by apply Hseen, list_elem_of_here.
  f_equal. apply IH; [done|].
  intros x Hx. rewrite not_elem_of_cons. split.
  - by intros ->.
  - by apply Hseen, list_elem_of_further.
Qed.

Lemma elem_of_uniq array x : x ∈ uniq array ↔ x ∈ array.
Proof. unfold uniq. rewrite elem_of_uniqFrom, elem_of_nil. tauto. Qed.

Lemma NoDup_uniq array : NoDup (uniq array).
Proof. apply NoDup_uniqFrom. Qed.

Lemma uniq_NoDup array : NoDup array → uniq array = array.
Proof. intros. apply uniqFrom_NoDup; [done|]. intros x _. apply not_elem_of_nil. Qed.
End UniqFacts.

Section GroupVertices.
Import OperationUtils.
Context {V : Type} (equalsWithTolerance : V → V → bool) (p : Polyhedron V).
Local Abbreviation n := (length (vertices p)).

Lemma find_None_intro {A} (f : A → bool) (l : list A) :
  (∀ x, x ∈ l → f x = false) → List.find f l = None.
Proof.
  induction l as [|a l IH]; intros H; [done|]. simpl.
  rewrite (H a) by apply list_elem_of_here.
  apply IH. intros x Hx. by apply H, list_elem_of_further.
Qed.

Lemma vertexObjects_lookup j :
  vertexObjects p !! j
  = (fun v => {| index := j; vec := v |}) <$> vertices p !! j.
Proof. unfold vertexObjects. by rewrite list_lookup_imap. Qed.

Lemma length_vertexObjects : length (vertexObjects p) = n.
Proof. unfold vertexObjects. by rewrite length_imap. Qed.

Lemma grouped_prefix j :
  j ≤ n →
  grouped equalsWithTolerance p j (foldl (groupVertex equalsWithTolerance) ([], ∅)
               (take j (vertexObjects p))).
Proof.
  induction j as [|j IH]; intros Hj.
  { split_and!; simpl; intros; try lia; by apply elem_of_nil in H. }
  destruct (lookup_lt_is_Some_2 (vertices p) j ltac:(lia)) as [v Hv].
  rewrite (take_S_r _ _ {| index := j; vec := v |})
    by (by rewrite vertexObjects_lookup, Hv).
  rewrite foldl_app. simpl.
  specialize (IH ltac:(lia)).
  destruct (foldl _ _ (take j _)) as [unique oldToNew].
  destruct IH as (Hin & Hmap & Hfar). simpl in Hin, Hmap, Hfar.
  unfold groupVertex.
  destruct (List.find _ unique) as [m|] eqn:Efind; simpl.
  - apply find_some in Efind as [Hm%list_elem_of_In _].
    split_and!; simpl.
    + intros u Hu. destruct (Hin u Hu). split; [lia | done].
    + intros i Hi. destruct (decide (i = j)) as [->|Hne].
      * exists m. by rewrite lookup_insert_eq.
      * rewrite lookup_insert_ne by done. apply Hmap. lia.
    + done.
  - pose proof (find_none _ _ Efind) as Hnone.
    split_and!; simpl.
    + intros u [Hu| ->%list_elem_of_singleton]%elem_of_app.
      * destruct (Hin u Hu). split; [lia | done].
      * simpl. split; [lia | done].
    + intros i Hi. destruct (decide (i = j)) as [->|Hne].
      * exists {| index := j; vec := v |}. rewrite lookup_insert_eq.
        split; [|done]. apply elem_of_app. right. apply list_elem_of_here.
      * rewrite lookup_insert_ne by done.
        destruct (Hmap i ltac:(lia)) as (u & Hu & Hi').
        exists u. split; [|done]. apply elem_of_app. by left.
    + intros a b [Ha| ->%list_elem_of_singleton]%elem_of_app
                 [Hb| ->%list_elem_of_singleton]%elem_of_app Hlt; simpl in *.
      * by apply Hfar.
      * apply Hnone. by apply list_elem_of_In.
      * destruct (Hin b Hb). lia.
      * lia.
Qed.

Lemma grouped_all :
  grouped equalsWithTolerance p n (groupVertices equalsWithTolerance p).
Proof.
  unfold groupVertices.
  rewrite <- (firstn_all (vertexObjects p)), length_vertexObjects.
  by apply grouped_prefix.
Qed.

(** When no vertex equals an earlier one, every vertex is its own group. *)
Lemma groupVertices_distinct :
  (∀ i j a b, i < j → vertices p !! i = Some a → vertices p !! j = Some b →
     equalsWithTolerance b a = false) →
  ∀ i, i < n → (groupVertices equalsWithTolerance p).2 !! i = Some i.
Proof.
  intros Hdistinct.
  assert (∀ j, j ≤ n →
            let st := foldl (groupVertex equalsWithTolerance) ([], ∅)
                        (take j (vertexObjects p)) in
            (∀ u, u ∈ st.1 → index u < j ∧ vertices p !! index u = Some (vec u))
            ∧ ∀ i, i < j → st.2 !! i = Some i) as Hloop.
  { induction j as [|j IH]; intros Hj.
    { simpl. split; intros; [by apply elem_of_nil in H | lia]. }
    destruct (lookup_lt_is_Some_2 (vertices p) j ltac:(lia)) as [v Hv].
    rewrite (take_S_r _ _ {| index := j; vec := v |})
      by (by rewrite vertexObjects_lookup, Hv).
    rewrite foldl_app. simpl.
    specialize (IH ltac:(lia)).
    destruct (foldl _ _ (take j _)) as [unique oldToNew].
    destruct IH as (Hin & Hmap). simpl in Hin, Hmap.
    unfold groupVertex. rewrite find_None_intro.
    - simpl. split.
      + intros u [Hu| ->%list_elem_of_singleton]%elem_of_app.
        * destruct (Hin u Hu). split; [lia | done].
        * simpl. split; [lia | done].
      + intros i Hi. destruct (decide (i = j)) as [->|Hne].
        * by rewrite lookup_insert_eq.
        * rewrite lookup_insert_ne by done. apply Hmap. lia.
    - intros u Hu. destruct (Hin u Hu) as [Hlt Hu'].
      simpl. by apply (Hdistinct (index u) j). }
  intros i Hi. unfold groupVertices.
  rewrite <- (firstn_all (vertexObjects p)), length_vertexObjects.
  by apply (Hloop n).
Qed.
End GroupVertices.

Section Deduplicate.
Import OperationUtils.
Context {V : Type} (equalsWithTolerance : V → V → bool).
Local Abbreviation dedup := (deduplicateVertices equalsWithTolerance).

Lemma deduplicateVertices_unfold p :
  dedup p = removeExtraneousVertices (mergedFaces equalsWithTolerance p).
Proof. reflexivity. Qed.

Lemma mergedFaces_unique p x :
  validFaces p →
  x ∈ mjoin (faces (mergedFaces equalsWithTolerance p)) →
  ∃ u, u ∈ (groupVertices equalsWithTolerance p).1 ∧ index u = x.
Proof.
  intros Hvalid (face' & Hx & Hface')%list_elem_of_join.
  apply list_elem_of_filter in Hface' as [_ Hface'].
  apply list_elem_of_fmap in Hface' as (face & -> & Hface).
  apply elem_of_uniq, list_elem_of_fmap in Hx as (v & -> & Hv).
  destruct (grouped_all equalsWithTolerance p) as (_ & Hmap & _).
  destruct (Hmap v (Hvalid _ _ Hface Hv)) as (u & Hu & E).
  exists u. split; [done|]. unfold getOrSelf. by rewrite E.
Qed.

Lemma mergedFaces_validFaces p : validFaces p → validFaces (mergedFaces equalsWithTolerance p).
Proof.
  intros Hvalid face x Hface Hx.
  destruct (mergedFaces_unique p x Hvalid) as (u & Hu & <-).
  { apply list_elem_of_join. eauto. }
  destruct (grouped_all equalsWithTolerance p) as (Hin & _).
  destruct (Hin u Hu) as [? _]. done.
Qed.

Lemma mergedFaces_distinctFaces p : distinctFaces (mergedFaces equalsWithTolerance p).
Proof.
  intros face' Hface'.
  apply list_elem_of_filter in Hface' as [Hlen Hface'].
  apply list_elem_of_fmap in Hface' as (face & -> & Hface).
  split; [apply NoDup_uniq | done].
Qed.

Lemma filter_fmap_fixed {A} (P : A → Prop) `{!∀ x, Decision (P x)}
    (f : A → A) (l : list A) :
  (∀ x, x ∈ l → f x = x ∧ P x) → filter P (f <$> l) = l.
Proof.
  induction l as [|a l IH]; intros Hl; [done|].
  destruct (Hl a (list_elem_of_here _ _)) as [Hf HP].
  rewrite fmap_cons, Hf, filter_cons, decide_True by done.
  f_equal. apply IH. intros x Hx. by apply Hl, list_elem_of_further.
Qed.

(** A polyhedron without equal vertices, without unused vertices and
    without faces that collapse is left as it is. *)
Lemma deduplicateVertices_fixed q :
  (∀ i j a b, i < j → vertices q !! i = Some a → vertices q !! j = Some b →
     equalsWithTolerance b a = false) →
  validFaces q → distinctFaces q → allReferenced q →
  dedup q = q.
Proof.
  intros Hdistinct Hvalid Hfaces Hall.
  rewrite deduplicateVertices_unfold.
  assert (mergedFaces equalsWithTolerance q = q) as ->; [|by apply removeExtraneousVertices_fixed].
  assert (faces (mergedFaces equalsWithTolerance q) = faces q) as Hsame.
  { unfold mergedFaces. simpl. apply filter_fmap_fixed.
    intros face Hface. destruct (Hfaces face Hface) as [Hnd Hlen].
    split; [|done].
    assert (getOrSelf (groupVertices equalsWithTolerance q).2 <$> face = face)
      as ->; [|by apply uniq_NoDup].
    rewrite <- (list_fmap_id face) at 2. apply list_fmap_ext.
    intros _ v Hv%list_elem_of_lookup_2. unfold getOrSelf.
    rewrite (groupVertices_distinct _ _ Hdistinct); [done|].
    by apply (Hvalid face). }
  destruct q as [vs fs]. unfold mergedFaces in *. simpl in *. by f_equal.
Qed.

(** After [deduplicateVertices] no vertex equals another one. *)
Lemma deduplicateVertices_distinct p :
  (∀ a b, equalsWithTolerance a b = equalsWithTolerance b a) →
  validFaces p →
  ∀ i j a b, i < j →
    vertices (dedup p) !! i = Some a → vertices (dedup p) !! j = Some b →
    equalsWithTolerance b a = false.
Proof.
  intros Hsym Hvalid i j a b Hij Hi Hj.
  rewrite deduplicateVertices_unfold in Hi, Hj.
  set (p' := mergedFaces equalsWithTolerance p) in *.
  assert (j < length (vertices p') - length (toRemove p')) as Hj'.
  { rewrite <- length_removeExtraneousVertices. by eapply lookup_lt_Some. }
  rewrite lookup_removeExtraneousVertices in Hi, Hj by lia.
  destruct (renumber_source p' i ltac:(lia)) as (_ & Hui & Hback_i).
  destruct (renumber_source p' j ltac:(lia)) as (_ & Huj & Hback_j).
  set (si := getOrSelf (oldToNew p') i) in *.
  set (sj := getOrSelf (oldToNew p') j) in *.
  assert (si ≠ sj) as Hne by (intros E; rewrite E in Hback_i; lia).
  destruct (mergedFaces_unique p si Hvalid Hui) as (ui & Hin_i & Ei).
  destruct (mergedFaces_unique p sj Hvalid Huj) as (uj & Hin_j & Ej).
  destruct (grouped_all equalsWithTolerance p) as (Hin & _ & Hfar).
  destruct (Hin ui Hin_i) as [_ Hvi]. destruct (Hin uj Hin_j) as [_ Hvj].
  rewrite Ei in Hvi. rewrite Ej in Hvj.
  change (vertices p') with (vertices p) in Hi, Hj.
  assert (vec ui = a) as <- by congruence.
  assert (vec uj = b) as <- by congruence.
  destruct (decide (index ui < index uj)) as [Hlt|Hge].
  - by apply Hfar.
  - rewrite Hsym. apply Hfar; [done..|]. lia.
Qed.
End Deduplicate.

(** C3.  [deduplicateVertices] is idempotent: on a polyhedron whose faces
    reference existing vertices only, deduplicating twice gives what
    deduplicating once gives.  Equality within the tolerance is taken to be
    symmetric, as a comparison of distances is. *)
Theorem deduplicateVertices_idempotent
    {V : Type} (equalsWithTolerance : V → V → bool)
    (p : OperationUtils.Polyhedron V) :
  (∀ a b, equalsWithTolerance a b = equalsWithTolerance b a) →
  OperationUtils.validFaces p →
  OperationUtils.deduplicateVertices equalsWithTolerance
    (OperationUtils.deduplicateVertices equalsWithTolerance p)
  = OperationUtils.deduplicateVertices equalsWithTolerance p.
Proof.
  intros Hsym Hvalid. apply deduplicateVertices_fixed.
  - by apply deduplicateVertices_distinct.
  - rewrite deduplicateVertices_unfold.
    by apply removeExtraneousVertices_validFaces, mergedFaces_validFaces.
  - rewrite deduplicateVertices_unfold.
    apply removeExtraneousVertices_distinctFaces.
    + by apply mergedFaces_validFaces.
    + apply mergedFaces_distinctFaces.
  - rewrite deduplicateVertices_unfold.
    apply removeExtraneousVertices_allReferenced.
Qed.

Lemma gridEquals_sym tolerance a b :
  Samples.gridEquals tolerance a b = Samples.gridEquals tolerance b a.
Proof.
  unfold Samples.gridEquals. apply bool_decide_ext. lia.
Qed.

Lemma deduplicateVertices_idempotent_witness :
  let dedup := OperationUtils.deduplicateVertices (Samples.gridEquals 1) in
  dedup (dedup Samples.flatOctahedron) = dedup Samples.flatOctahedron
  ∧ length (OperationUtils.vertices (dedup Samples.flatOctahedron)) = 5.
Proof.
  intros dedup. split; [|by vm_compute].
  apply deduplicateVertices_idempotent.
  - apply gridEquals_sym.
  - apply flatOctahedron_wellFormed.
Defined.

(** ** Vertex duplication *)
Section VertexMapping.
Import OperationUtils.
Context {V : Type} (adjacency : Adjacency) (p : Polyhedron V).
Local Abbreviation n := (length (vertices p)).
Local Abbreviation c := (count adjacency).
Local Abbreviation adj := (adjacentFaces adjacency).

Implicit Types (mapping : gmap (nat * nat) nat) (l : list (nat * nat)).

Local Abbreviation assign :=
  (fun v mapping (fi : nat * nat) => <[(fi.2, v) := v * c + fi.1]> mapping).

Lemma assign_other v mapping l f w :
  w ≠ v → foldl (assign v) mapping l !! (f, w) = mapping !! (f, w).
Proof.
  intros Hw. revert mapping. induction l as [|[i f'] l IH]; intros mapping; [done|].
  simpl. rewrite IH. apply lookup_insert_ne. congruence.
Qed.

Lemma assign_lookup v mapping l f d :
  foldl (assign v) mapping l !! (f, v) = Some d →
  mapping !! (f, v) = Some d ∨ ∃ i, (i, f) ∈ l ∧ d = v * c + i.
Proof.
  revert mapping. induction l as [|[i f'] l IH]; intros mapping; [by left|].
  simpl. intros [H|(i' & Hi' & ->)]%IH.
  - destruct (decide (f' = f)) as [->|Hne].
    + rewrite lookup_insert_eq in H. injection H as <-.
      right. exists i. split; [apply list_elem_of_here | done].
    + rewrite lookup_insert_ne in H by congruence. by left.
  - right. exists i'. split; [by apply list_elem_of_further | done].
Qed.

Lemma assign_defined v mapping l f i :
  (i, f) ∈ l →
  ∃ i', (i', f) ∈ l ∧ foldl (assign v) mapping l !! (f, v) = Some (v * c + i').
Proof.
  induction l as [|[i0 f0] l IH] using rev_ind; intros Hin.
  { by apply elem_of_nil in Hin. }
  rewrite foldl_app. simpl.
  destruct (decide (f0 = f)) as [->|Hne].
  - exists i0. rewrite lookup_insert_eq. split; [|done].
    apply elem_of_app. right. apply list_elem_of_here.
  - rewrite lookup_insert_ne by congruence.
    apply elem_of_app in Hin as [Hin|Hin%list_elem_of_singleton]; [|congruence].
    destruct (IH Hin) as (i' & Hi' & E).
    exists i'. split; [|done]. apply elem_of_app. by left.
Qed.

(** A path of the vertex mapping leads to a duplicate of its vertex: the
    one with the number the face has among the faces around the vertex. *)
Lemma newVertexMapping_lookup f v d :
  newVertexMapping adjacency p !! (f, v) = Some d →
  v < n ∧ ∃ i, adj v !! i = Some f ∧ d = v * c + i.
Proof.
  unfold newVertexMapping. generalize n. intros m. revert d.
  induction m as [|m IH]; intros d; [done|].
  rewrite seq_S, foldl_app. simpl.
  destruct (decide (v = m)) as [->|Hne].
  - intros [H|(i & Hi%elem_of_indexed & ->)]%assign_lookup.
    + apply IH in H as [? _]. lia.
    + split; [lia | eauto].
  - rewrite assign_other by done. intros [? ?]%IH. split; [lia | done].
Qed.

Lemma newVertexMapping_defined f v :
  v < n → f ∈ adj v →
  ∃ i, adj v !! i = Some f
       ∧ newVertexMapping adjacency p !! (f, v) = Some (v * c + i).
Proof.
  unfold newVertexMapping. generalize n. intros m.
  induction m as [|m IH]; intros Hv Hf; [lia|].
  rewrite seq_S, foldl_app. simpl.
  destruct (decide (v = m)) as [->|Hne].
  - apply list_elem_of_lookup_1 in Hf as [i Hi%elem_of_indexed].
    destruct (assign_defined m
                (foldl (fun mapping v => foldl (assign v) mapping
                          (imap (fun i f => (i, f)) (adj v))) ∅ (seq 0 m))
                _ f i Hi) as (i' & Hi'%elem_of_indexed & E).
    eauto.
  - rewrite assign_other by done. apply IH; [lia | done].
Qed.
End VertexMapping.

Section DuplicateVertices.
Import OperationUtils.
Context {V : Type} (adjacency : Adjacency) (p : Polyhedron V).
Local Abbreviation n := (length (vertices p)).
Local Abbreviation c := (count adjacency).
Local Abbreviation adj := (adjacentFaces adjacency).

Lemma length_duplicates (vs : list V) :
  length (Utils.flatMap vs (fun v => Utils.repeat v c)) = length vs * c.
Proof.
  unfold Utils.flatMap, Utils.repeat. rewrite length_join.
  rewrite (sum_list_fmap_same c).
  - by rewrite length_fmap.
  - apply Forall_fmap, Forall_forall. intros v _. apply length_replicate.
Qed.

Lemma lookup_duplicates (vs : list V) v i :
  i < c →
  Utils.flatMap vs (fun v => Utils.repeat v c) !! (v * c + i) = vs !! v.
Proof.
  intros Hi. destruct (vs !! v) as [x|] eqn:E.
  - unfold Utils.flatMap, Utils.repeat.
    apply (join_lookup_Some_same_length' c); [|done|].
    + apply Forall_fmap, Forall_forall. intros w _. apply length_replicate.
    + exists (replicate c x). rewrite list_lookup_fmap, E.
      split; [done|]. by apply lookup_replicate_2.
  - apply lookup_ge_None_2. rewrite length_duplicates.
    apply lookup_ge_None_1 in E. nia.
Qed.

Hypothesis Hvalid : validFaces p.
Hypothesis Hconsistent : consistentAdjacency adjacency p.
Hypothesis Huniform : uniformDegree adjacency p.

Lemma path_duplicate f v :
  v < n → f ∈ adj v →
  ∃ d, newVertexMapping adjacency p !! (f, v) = Some d.
Proof.
  intros Hv Hf.
  destruct (newVertexMapping_defined adjacency p f v Hv Hf) as (i & _ & E).
  eauto.
Qed.

Lemma lookup_duplicateOf path d :
  newVertexMapping adjacency p !! path = Some d →
  duplicateOf adjacency p path d.
Proof.
  destruct path as [f v]. intros (Hv & i & Hi & ->)%newVertexMapping_lookup.
  split; [done|]. exists i. split_and!; [done| |done].
  rewrite <- (Huniform v Hv). by eapply lookup_lt_Some.
Qed.

Lemma mapped_faces_defined :
  ∃ mapped,
    mapM (fun ff : nat * list nat =>
            mapM (fun v => newVertexMapping adjacency p !! (ff.1, v)) ff.2)
         (imap (fun i face => (i, face)) (faces p)) = Some mapped
    ∧ Forall2 (fun ff face' => Forall2 (fun v d => duplicateOf adjacency p (ff.1, v) d)
                                 ff.2 face')
        (imap (fun i face => (i, face)) (faces p)) mapped.
Proof.
  destruct Hconsistent as (Hadj & _).
  assert (is_Some
            (mapM (fun ff : nat * list nat =>
                     mapM (fun v => newVertexMapping adjacency p !! (ff.1, v))
                          ff.2)
                  (imap (fun i face => (i, face)) (faces p)))) as [mapped E].
  { apply mapM_is_Some, Forall_forall. intros [f face] Hin%elem_of_indexed.
    simpl. apply mapM_is_Some, Forall_forall. intros v Hv. simpl.
    destruct (path_duplicate f v) as [d Hd]; [| |by rewrite Hd].
    - eapply Hvalid; [|done]. by eapply list_elem_of_lookup_2.
    - by eapply Hadj. }
  exists mapped. split; [done|].
  apply mapM_Some in E. eapply Forall2_impl; [exact E|].
  intros [f face] face' Hface. simpl in *.
  apply mapM_Some in Hface. eapply Forall2_impl; [exact Hface|].
  intros v d. apply lookup_duplicateOf.
Qed.

Lemma edge_paths e twist path :
  path ∈ mjoin (getEdgeFacePaths e twist) →
  (path.1 = f1 e ∨ path.1 = f2 e) ∧ (path.2 = v1 e ∨ path.2 = v2 e).
Proof.
  destruct twist as [[]|]; simpl; rewrite ?elem_of_cons, elem_of_nil;
    intros H; repeat (destruct H as [->|H]); simpl; tauto.
Qed.

Lemma bridges_defined twist :
  ∃ bridges,
    mapM (mapM (fun path => newVertexMapping adjacency p !! path))
         (Utils.flatMap (edges adjacency)
            (fun edge => getEdgeFacePaths edge twist)) = Some bridges
    ∧ Forall2 (Forall2 (duplicateOf adjacency p))
        (Utils.flatMap (edges adjacency)
           (fun edge => getEdgeFacePaths edge twist)) bridges.
Proof.
  destruct Hconsistent as (_ & _ & Hedges).
  assert (is_Some
            (mapM (mapM (fun path => newVertexMapping adjacency p !! path))
                  (Utils.flatMap (edges adjacency)
                     (fun edge => getEdgeFacePaths edge twist))))
    as [bridges E].
  { apply mapM_is_Some, Forall_forall. intros paths Hpaths.
    unfold Utils.flatMap in Hpaths.
    apply list_elem_of_join in Hpaths as (ps & Hpaths & Hps).
    apply list_elem_of_fmap in Hps as (e & -> & He).
    simpl. apply mapM_is_Some, Forall_forall. intros [f v] Hpath. simpl.
    destruct (edge_paths e twist (f, v)) as [Hf Hv];
      [apply list_elem_of_join; eauto|]. simpl in Hf, Hv.
    destruct (Hedges e He) as (? & ? & _ & _ & ? & ? & ? & ?).
    destruct (path_duplicate f v) as [d Hd]; [| |by rewrite Hd];
      destruct Hf as [->| ->], Hv as [->| ->]; done. }
  exists bridges. split; [done|].
  apply mapM_Some in E. eapply Forall2_impl; [exact E|].
  intros paths bridge Hb. simpl in Hb.
  apply mapM_Some in Hb. eapply Forall2_impl; [exact Hb|].
  intros path d. apply lookup_duplicateOf.
Qed.

Lemma length_edge_paths twist (es : list Edge) :
  length (Utils.flatMap es (fun edge => getEdgeFacePaths edge twist))
  = bridgesPerEdge twist * length es
  ∧ Forall (fun paths => length paths = bridgeSides twist)
      (Utils.flatMap es (fun edge => getEdgeFacePaths edge twist)).
Proof.
  unfold Utils.flatMap. induction es as [|e es [IHlen IHall]].
  { split; [simpl; lia | apply Forall_nil_2]. }
  rewrite fmap_cons. change (mjoin (?l :: ?ls)) with (l ++ mjoin ls).
  rewrite length_app, IHlen. split.
  - destruct twist as [[]|]; simpl; lia.
  - apply Forall_app. split; [|done].
    destruct twist as [[]|]; simpl; repeat constructor.
Qed.

Lemma duplicateOf_private path path' d :
  duplicateOf adjacency p path d → duplicateOf adjacency p path' d →
  path = path'.
Proof.
  destruct path as [f v], path' as [f' v'].
  intros (_ & i & Hi & Hlt & ->) (_ & i' & Hi' & Hlt' & E). simpl in *.
  assert (v = v') as <- by nia. assert (i = i') as <- by nia. congruence.
Qed.

Lemma duplicateOf_position path d :
  duplicateOf adjacency p path d →
  Utils.flatMap (vertices p) (fun v => Utils.repeat v c) !! d
  = vertices p !! path.2.
Proof. intros (_ & i & _ & Hlt & ->). by apply lookup_duplicates. Qed.
End DuplicateVertices.

Lemma mapM_defined {A B} (g : A → option B) (d : B) (l : list A) :
  (∀ x, x ∈ l → is_Some (g x)) →
  mapM g l = Some ((fun x => default d (g x)) <$> l).
Proof.
  intros Hl. apply mapM_Some_2. induction l as [|x l IH]; simpl.
  { apply Forall2_nil_2. }
  apply Forall2_cons. split.
  - destruct (Hl x (list_elem_of_here _ _)) as [y Hy]. by rewrite Hy.
  - apply IH. intros y Hy. by apply Hl, list_elem_of_further.
Qed.

(** The corner of a face at a vertex: the index the vertex mapping holds
    for the path [[face, vertex]]. *)
Section Corners.
Import OperationUtils.
Context {V : Type} (adjacency : Adjacency) (p : Polyhedron V).
Local Abbreviation n := (length (vertices p)).
Local Abbreviation c := (count adjacency).
Local Abbreviation adj := (adjacentFaces adjacency).
Local Abbreviation mapping := (newVertexMapping adjacency p).
Local Abbreviation corner :=
  (fun f v : nat => default 0 (mapping !! (f, v))).

Lemma vertices_duplicateVertices twist q :
  duplicateVertices adjacency p twist = Some q →
  vertices q = Utils.flatMap (vertices p) (fun v => Utils.repeat v c).
Proof.
  unfold duplicateVertices. intros Hq.
  apply bind_Some in Hq as (mapped & _ & Hq).
  apply bind_Some in Hq as (bridges & _ & [= <-]). done.
Qed.

Hypothesis Hvalid : validFaces p.
Hypothesis Hconsistent : consistentAdjacency adjacency p.

Lemma corner_position v i f :
  v < n → adj v !! i = Some f → mapping !! (f, v) = Some (v * c + i).
Proof.
  intros Hv Hi. destruct Hconsistent as (_ & Hnd & _).
  destruct (newVertexMapping_defined adjacency p f v Hv) as (i' & Hi' & E).
  { by eapply list_elem_of_lookup_2. }
  by rewrite (NoDup_lookup _ _ _ _ (Hnd v Hv) Hi Hi').
Qed.

Lemma existing_faces_mapped :
  mapM (fun ff : nat * list nat =>
          mapM (fun v => mapping !! (ff.1, v)) ff.2)
       (imap (fun i face => (i, face)) (faces p))
  = Some (imap (fun f face => corner f <$> face) (faces p)).
Proof.
  destruct Hconsistent as (Hadj & _).
  replace (imap (fun f face => corner f <$> face) (faces p))
    with ((fun ff : nat * list nat => corner ff.1 <$> ff.2)
            <$> imap (fun i face => (i, face)) (faces p))
    by by rewrite fmap_imap.
  apply mapM_Some_2, Forall2_fmap_r.
  apply (Forall_Forall2_diag
           (fun (ff : nat * list nat) (ff' : nat * list nat) =>
              mapM (fun v => mapping !! (ff.1, v)) ff.2
              = Some (corner ff'.1 <$> ff'.2))).
  apply Forall_forall.
  intros [f face] Hface%elem_of_indexed. simpl.
  apply (mapM_defined (fun v => mapping !! (f, v)) 0).
  intros v Hv. destruct (path_duplicate adjacency p f v) as [d Hd];
    [| |by rewrite Hd].
  - eapply Hvalid; [|done]. by eapply list_elem_of_lookup_2.
  - by eapply Hadj.
Qed.

Lemma bridging_faces_mapped twist :
  mapM (mapM (fun path => mapping !! path))
       (Utils.flatMap (edges adjacency)
          (fun edge => getEdgeFacePaths edge twist))
  = Some (mjoin
            ((fun e =>
                match twist with
                | Some right =>
                    [ [corner (f1 e) (v1 e); corner (f2 e) (v2 e);
                       corner (f1 e) (v2 e)];
                      [corner (f1 e) (v1 e); corner (f2 e) (v1 e);
                       corner (f2 e) (v2 e)] ]
                | Some left =>
                    [ [corner (f1 e) (v2 e); corner (f1 e) (v1 e);
                       corner (f2 e) (v1 e)];
                      [corner (f2 e) (v1 e); corner (f2 e) (v2 e);
                       corner (f1 e) (v2 e)] ]
                | None =>
                    [ [corner (f1 e) (v2 e); corner (f1 e) (v1 e);
                       corner (f2 e) (v1 e); corner (f2 e) (v2 e)] ]
                end) <$> edges adjacency)).
Proof.
  destruct Hconsistent as (_ & _ & Hedges).
  assert (∀ paths path,
            paths ∈ Utils.flatMap (edges adjacency)
                      (fun edge => getEdgeFacePaths edge twist) →
            path ∈ paths → is_Some (mapping !! path)) as Hdefined.
  { intros paths [f v] Hpaths Hpath. unfold Utils.flatMap in Hpaths.
    apply list_elem_of_join in Hpaths as (ps & Hpaths & Hps).
    apply list_elem_of_fmap in Hps as (e & -> & He).
    destruct (edge_paths e twist (f, v)) as [Hf Hv];
      [apply list_elem_of_join; eauto|]. simpl in Hf, Hv.
    destruct (Hedges e He) as (? & ? & _ & _ & ? & ? & ? & ?).
    apply (path_duplicate adjacency p f v);
      destruct Hf as [->| ->], Hv as [->| ->]; done. }
  assert (mapM (mapM (fun path => mapping !! path))
               (Utils.flatMap (edges adjacency)
                  (fun edge => getEdgeFacePaths edge twist))
          = Some ((fun paths : list (nat * nat) =>
                     (fun path => default 0 (mapping !! path)) <$> paths)
                    <$> Utils.flatMap (edges adjacency)
                          (fun edge => getEdgeFacePaths edge twist))) as ->.
  { apply mapM_Some_2, Forall2_fmap_r.
    apply (Forall_Forall2_diag
             (fun (paths paths' : list (nat * nat)) =>
                mapM (fun path => mapping !! path) paths
                = Some ((fun path => default 0 (mapping !! path)) <$> paths'))).
    apply Forall_forall. intros paths Hpaths.
    apply mapM_defined. intros path Hpath. by eapply Hdefined. }
  f_equal. unfold Utils.flatMap.
  clear Hdefined Hedges. induction (edges adjacency) as [|e es IH]; [done|].
  rewrite !fmap_cons.
  change (mjoin (?l :: ?ls)) with (l ++ mjoin ls).
  rewrite fmap_app, <- IH. f_equal.
  destruct twist as [[]|]; reflexivity.
Qed.

Hypothesis Huniform : uniformDegree adjacency p.

(** With as many faces around every vertex as there are duplicates, the
    corner of a face at a vertex is one of the duplicates of the vertex,
    no two corners are the same duplicate, and the face around a vertex
    lists its duplicates in the order of the faces around it. *)
Lemma corner_private f v :
  v < n → f ∈ adj v →
  v * c ≤ corner f v < (v + 1) * c
  ∧ Utils.flatMap (vertices p) (fun v => Utils.repeat v c) !! corner f v
    = vertices p !! v.
Proof.
  intros Hv [i Hi]%list_elem_of_lookup_1.
  rewrite (corner_position v i f Hv Hi). simpl.
  pose proof (lookup_lt_Some _ _ _ Hi) as Hlt.
  rewrite (Huniform v Hv) in Hlt.
  split; [lia|]. by apply lookup_duplicates.
Qed.

Lemma corner_inj f v f' v' :
  v < n → f ∈ adj v → v' < n → f' ∈ adj v' →
  corner f v = corner f' v' → f = f' ∧ v = v'.
Proof.
  intros Hv [i Hi]%list_elem_of_lookup_1 Hv' [i' Hi']%list_elem_of_lookup_1.
  rewrite (corner_position v i f Hv Hi), (corner_position v' i' f' Hv' Hi').
  simpl. intros E.
  pose proof (lookup_lt_Some _ _ _ Hi) as Hlt.
  pose proof (lookup_lt_Some _ _ _ Hi') as Hlt'.
  rewrite (Huniform v Hv) in Hlt. rewrite (Huniform v' Hv') in Hlt'.
  assert (v = v') as <- by nia. assert (i = i') as <- by nia.
  split; [congruence | done].
Qed.

Lemma corners_around v :
  v < n → seq (v * c) c = (fun f => corner f v) <$> adj v.
Proof.
  intros Hv. apply list_eq_same_length with c.
  - by rewrite length_fmap, Huniform.
  - by rewrite length_seq.
  - intros i d d' Hi Hd Hd'.
    apply lookup_seq in Hd as [-> _].
    rewrite list_lookup_fmap in Hd'.
    apply fmap_Some in Hd' as (f & Hf & ->).
    by rewrite (corner_position v i f Hv Hf).
Qed.
End Corners.

(** C5, as the code has it.  [duplicateVertices] makes [count] duplicates
    of every vertex, all at the position of the vertex, where [count] is
    the number of faces around the one vertex [getVertex()] returns.  The
    vertex [v] of the face [f] is replaced by the index [v * count + i],
    where [f] is the i-th face around [v]; one face per vertex lists the
    indices of its [count] duplicates; and every edge with the ends
    [v1], [v2] and the faces [f1], [f2] gets the two bridging triangles
    of its twist, or the one bridging quadrilateral when there is no
    twist, between the corners of [f1] and [f2] at [v1] and [v2].  When
    [count] faces meet at every vertex, the corner of a face at a vertex
    is a duplicate of that vertex, no duplicate is the corner of two
    faces, and the face around a vertex lists the corners of the faces
    around it, one duplicate per adjacent face. *)
Theorem duplicateVertices_structure
    {V : Type} (adjacency : OperationUtils.Adjacency)
    (p : OperationUtils.Polyhedron V) (twist : option OperationUtils.Twist) :
  let count := OperationUtils.count adjacency in
  let n := length (OperationUtils.vertices p) in
  let adj := OperationUtils.adjacentFaces adjacency in
  let duplicates :=
    Utils.flatMap (OperationUtils.vertices p)
      (fun v => Utils.repeat v count) in
  length duplicates = n * count
  ∧ (∀ v i, i < count →
       duplicates !! (v * count + i) = OperationUtils.vertices p !! v)
  ∧ (∀ q, OperationUtils.duplicateVertices adjacency p twist = Some q →
       OperationUtils.vertices q = duplicates)
  ∧ (OperationUtils.validFaces p →
     OperationUtils.consistentAdjacency adjacency p →
     ∃ corner : nat → nat → nat,
       (∀ v i f, v < n → adj v !! i = Some f → corner f v = v * count + i)
       ∧ OperationUtils.duplicateVertices adjacency p twist
         = Some
             {| OperationUtils.vertices := duplicates;
                OperationUtils.faces :=
                  imap (fun f face => corner f <$> face)
                       (OperationUtils.faces p)
                  ++ ((fun v => seq (v * count) count) <$> seq 0 n)
                  ++ mjoin
                       ((fun e =>
                           let v1 := OperationUtils.v1 e in
                           let v2 := OperationUtils.v2 e in
                           let f1 := OperationUtils.f1 e in
                           let f2 := OperationUtils.f2 e in
                           match twist with
                           | Some OperationUtils.right =>
                               [ [corner f1 v1; corner f2 v2; corner f1 v2];
                                 [corner f1 v1; corner f2 v1; corner f2 v2] ]
                           | Some OperationUtils.left =>
                               [ [corner f1 v2; corner f1 v1; corner f2 v1];
                                 [corner f2 v1; corner f2 v2; corner f1 v2] ]
                           | None =>
                               [ [corner f1 v2; corner f1 v1; corner f2 v1;
                                  corner f2 v2] ]
                           end) <$> OperationUtils.edges adjacency) |}
       ∧ (OperationUtils.uniformDegree adjacency p →
          (∀ f v, v < n → f ∈ adj v →
             v * count ≤ corner f v < (v + 1) * count
             ∧ duplicates !! corner f v = OperationUtils.vertices p !! v)
          ∧ (∀ f v f' v', v < n → f ∈ adj v → v' < n → f' ∈ adj v' →
               corner f v = corner f' v' → f = f' ∧ v = v')
          ∧ (∀ v, v < n →
               seq (v * count) count = (fun f => corner f v) <$> adj v))).
Proof.
  intros count n adj duplicates. subst count n adj duplicates. split_and!.
  - apply length_duplicates.
  - intros v i Hi. by apply lookup_duplicates.
  - apply vertices_duplicateVertices.
  - intros Hvalid Hconsistent.
    exists (fun f v =>
              default 0 (OperationUtils.newVertexMapping adjacency p !! (f, v))).
    split_and!.
    + intros v i f Hv Hi.
      by rewrite (corner_position adjacency p Hconsistent v i f Hv Hi).
    + unfold OperationUtils.duplicateVertices.
      rewrite (existing_faces_mapped adjacency p Hvalid Hconsistent). simpl.
      rewrite (bridging_faces_mapped adjacency p Hconsistent twist).
      reflexivity.
    + intros Huniform. split_and!.
      * apply (corner_private adjacency p Hconsistent Huniform).
      * apply (corner_inj adjacency p Hconsistent Huniform).
      * apply (corners_around adjacency p Hconsistent Huniform).
Qed.

Lemma duplicateVertices_structure_witness :
  ∃ q, OperationUtils.duplicateVertices Samples.tetrahedronAdjacency
         Samples.tetrahedron (Some OperationUtils.left) = Some q
       ∧ length (OperationUtils.vertices q) = 12
       ∧ OperationUtils.faces q !! 0 = Some [0; 6; 3]
       ∧ OperationUtils.faces q !! 5 = Some [3; 4; 5]
       ∧ OperationUtils.faces q !! 8 = Some [5; 1; 0]
       ∧ OperationUtils.faces q !! 9 = Some [0; 3; 5]
       ∧ length (OperationUtils.faces q) = 20.
Proof.
  destruct (duplicateVertices_structure Samples.tetrahedronAdjacency
              Samples.tetrahedron (Some OperationUtils.left))
    as (Hlen & _ & _ & Hfaces).
  destruct (Hfaces (proj1 tetrahedron_wellFormed) (proj1 tetrahedron_adjacency))
    as (corner & Hcorner & Hq & _).
  eexists. split; [exact Hq|].
  assert (∀ v i f, v < 4 →
            OperationUtils.adjacentFaces Samples.tetrahedronAdjacency v !! i
            = Some f → corner f v = v * 3 + i) as Hat by exact Hcorner.
  split_and!.
  - exact Hlen.
  - simpl.
    rewrite (Hat 0 0 0), (Hat 2 0 0), (Hat 1 0 0) by (reflexivity || lia).
    reflexivity.
  - reflexivity.
  - simpl.
    rewrite (Hat 1 2 1), (Hat 0 1 1), (Hat 0 0 0) by (reflexivity || lia).
    reflexivity.
  - simpl.
    rewrite (Hat 0 0 0), (Hat 1 0 0), (Hat 1 2 1) by (reflexivity || lia).
    reflexivity.
  - reflexivity.
Defined.

(** C5, as the claim has it: a vertex with [k] adjacent faces gets [k]
    duplicates.  Four faces meet at the apex of a square pyramid, three at
    the base vertex [getVertex()] returns; the apex gets three duplicates,
    and the fourth face around it is given the first duplicate of a vertex
    that does not exist. *)
Lemma duplicateVertices_pyramid_apex :
  let adjacency := Samples.squarePyramidAdjacency in
  let p := Samples.squarePyramid in
  OperationUtils.validFaces p
  ∧ OperationUtils.consistentAdjacency adjacency p
  ∧ OperationUtils.vertices p !! 4 = Some (0, 0, 1)%Z
  ∧ length (OperationUtils.adjacentFaces adjacency 4) = 4
  ∧ ∃ q, OperationUtils.duplicateVertices adjacency p None = Some q
         ∧ length (filter (fun w => w = (0, 0, 1)%Z)
                     (OperationUtils.vertices q)) = 3
         ∧ length (OperationUtils.vertices q) = 15
         ∧ OperationUtils.faces q !! 2 = Some [5; 7; 15].
Proof.
  intros adjacency p. split_and!.
  - apply squarePyramid_wellFormed.
  - apply squarePyramid_adjacency.
  - reflexivity.
  - reflexivity.
  - eexists. split; [by vm_compute|]. split_and!; by vm_compute.
Qed.

(** ** Structural invariants *)
Section DuplicateInvariants.
Import OperationUtils.
Context {V : Type} (adjacency : Adjacency) (p : Polyhedron V).
Local Abbreviation n := (length (vertices p)).
Local Abbreviation c := (count adjacency).

Lemma Forall2_duplicateOf_lt paths face d :
  Forall2 (duplicateOf adjacency p) paths face → d ∈ face → d < n * c.
Proof.
  intros Hall Hd.
  apply (Forall2_Forall_r _ (fun d => d < n * c)) in Hall.
  - rewrite Forall_forall in Hall. by apply Hall.
  - apply Forall_forall. intros path _ d' (Hv & i & _ & Hi & ->). nia.
Qed.

Lemma Forall2_duplicateOf_NoDup paths face :
  Forall2 (duplicateOf adjacency p) paths face → NoDup paths → NoDup face.
Proof.
  induction 1 as [|path d paths face Hd Hall IH]; intros Hnd.
  { apply NoDup_nil_2. }
  apply NoDup_cons in Hnd as [Hpath Hnd].
  apply NoDup_cons. split; [|by apply IH].
  intros Hin. apply Hpath.
  apply list_elem_of_lookup_1 in Hin as [j Hj].
  destruct (Forall2_lookup_r _ _ _ _ _ Hall Hj) as (path' & Hpath' & Hd').
  rewrite (duplicateOf_private adjacency p path path' d Hd Hd').
  by eapply list_elem_of_lookup_2.
Qed.

Lemma edge_paths_NoDup e twist paths :
  v1 e ≠ v2 e → f1 e ≠ f2 e →
  paths ∈ getEdgeFacePaths e twist →
  NoDup paths ∧ length paths = bridgeSides twist.
Proof.
  intros Hv Hf.
  destruct twist as [[]|]; simpl; rewrite ?elem_of_cons, elem_of_nil;
    intros H; repeat (destruct H as [->|H]); try done;
    (split; [|done]);
    repeat (apply NoDup_cons; split;
            [rewrite ?elem_of_cons, elem_of_nil; intros H;
             repeat (destruct H as [H|H]); congruence|]);
    apply NoDup_nil_2.
Qed.

(** With the same number of faces, at least three, around every vertex,
    the result of [duplicateVertices] references existing vertices only,
    and each of its faces has at least three different vertices. *)
Lemma duplicateVertices_faces_valid twist :
  validFaces p → distinctFaces p →
  consistentAdjacency adjacency p → uniformDegree adjacency p → 3 ≤ c →
  ∃ q, duplicateVertices adjacency p twist = Some q
       ∧ validFaces q ∧ distinctFaces q.
Proof.
  intros Hvalid Hdistinct Hconsistent Huniform Hc.
  destruct (mapped_faces_defined adjacency p Hvalid Hconsistent Huniform)
    as (mapped & Emapped & Hmapped).
  destruct (bridges_defined adjacency p Hconsistent Huniform twist)
    as (bridges & Ebridges & Hbridges).
  eexists. split.
  { unfold duplicateVertices. rewrite Emapped. simpl. rewrite Ebridges.
    reflexivity. }
  split.
  - intros face d Hface Hd. simpl in *. rewrite length_duplicates.
    apply elem_of_app in Hface as [Hface|Hface];
      [|apply elem_of_app in Hface as [Hface|Hface]].
    + apply list_elem_of_lookup_1 in Hface as [j Hj].
      destruct (Forall2_lookup_r _ _ _ _ _ Hmapped Hj) as ([f face0] & _ & Hall).
      simpl in Hall.
      apply (Forall2_duplicateOf_lt ((fun v => (f, v)) <$> face0) face);
        [|done].
      by apply Forall2_fmap_l.
    + apply list_elem_of_fmap in Hface as (v & -> & Hv%elem_of_seq).
      apply elem_of_seq in Hd. nia.
    + apply list_elem_of_lookup_1 in Hface as [j Hj].
      destruct (Forall2_lookup_r _ _ _ _ _ Hbridges Hj) as (paths & _ & Hall).
      by eapply Forall2_duplicateOf_lt.
  - intros face Hface. simpl in *.
    apply elem_of_app in Hface as [Hface|Hface];
      [|apply elem_of_app in Hface as [Hface|Hface]].
    + apply list_elem_of_lookup_1 in Hface as [j Hj].
      destruct (Forall2_lookup_r _ _ _ _ _ Hmapped Hj)
        as ([f face0] & Hface0 & Hall).
      simpl in Hall.
      apply list_elem_of_lookup_2, elem_of_indexed, list_elem_of_lookup_2
        in Hface0.
      destruct (Hdistinct face0 Hface0) as [Hnd Hlen].
      split.
      * apply (Forall2_duplicateOf_NoDup ((fun v => (f, v)) <$> face0));
          [by apply Forall2_fmap_l|].
        apply NoDup_fmap_2; [|done]. by intros v w [= ->].
      * by rewrite <- (Forall2_length _ _ _ Hall).
    + apply list_elem_of_fmap in Hface as (v & -> & _).
      split; [apply NoDup_seq | by rewrite length_seq].
    + apply list_elem_of_lookup_1 in Hface as [j Hj].
      destruct (Forall2_lookup_r _ _ _ _ _ Hbridges Hj)
        as (paths & Hpaths & Hall).
      apply list_elem_of_lookup_2 in Hpaths. unfold Utils.flatMap in Hpaths.
      apply list_elem_of_join in Hpaths as (ps & Hpaths & Hps).
      apply list_elem_of_fmap in Hps as (e & -> & He).
      destruct Hconsistent as (_ & _ & Hedges).
      destruct (Hedges e He) as (_ & _ & Hv & Hf & _).
      destruct (edge_paths_NoDup e twist paths Hv Hf Hpaths) as [Hnd Hlen].
      split.
      * by eapply Forall2_duplicateOf_NoDup.
      * rewrite <- (Forall2_length _ _ _ Hall), Hlen.
        destruct twist; simpl; lia.
Qed.
End DuplicateInvariants.

(** *** Every side in exactly two faces

    The faces of the result of [duplicateVertices] are counted with their
    vertices written as the paths [[face, vertex]] they are looked up by;
    different paths lead to different duplicates. *)
Section ExplicitFaces.
Import OperationUtils.
Context {A : Type}.

Lemma faceEdges_three (a b c : A) :
  faceEdges [a; b; c] = [(a, b); (b, c); (c, a)].
Proof. reflexivity. Qed.

Lemma faceEdges_four (a b c d : A) :
  faceEdges [a; b; c; d] = [(a, b); (b, c); (c, d); (d, a)].
Proof. reflexivity. Qed.

Lemma hasEdge_three (x y a b c : A) :
  hasEdge x y [a; b; c]
  ↔ ((x, y) = (a, b) ∨ (x, y) = (b, c) ∨ (x, y) = (c, a))
    ∨ ((y, x) = (a, b) ∨ (y, x) = (b, c) ∨ (y, x) = (c, a)).
Proof.
  unfold hasEdge. rewrite faceEdges_three, !elem_of_cons, !elem_of_nil. tauto.
Qed.

Lemma hasEdge_four (x y a b c d : A) :
  hasEdge x y [a; b; c; d]
  ↔ ((x, y) = (a, b) ∨ (x, y) = (b, c) ∨ (x, y) = (c, d) ∨ (x, y) = (d, a))
    ∨ ((y, x) = (a, b) ∨ (y, x) = (b, c) ∨ (y, x) = (c, d) ∨ (y, x) = (d, a)).
Proof.
  unfold hasEdge. rewrite faceEdges_four, !elem_of_cons, !elem_of_nil. tauto.
Qed.
End ExplicitFaces.

Section Counting.
Context {A : Type} (P : A → Prop) `{!∀ x, Decision (P x)}.
Context (Q : Prop) `{!Decision Q}.

Lemma length_filter_single a :
  (P a ↔ Q) → length (filter P [a]) = if decide Q then 1 else 0.
Proof.
  intros Ha. rewrite filter_cons, filter_nil.
  repeat case_decide; simpl; tauto || lia.
Qed.

Lemma length_filter_either a b :
  (P a → Q) → (P b → Q) → (Q → (P a ∧ ¬ P b) ∨ (¬ P a ∧ P b)) →
  length (filter P [a; b]) = if decide Q then 1 else 0.
Proof.
  intros Ha Hb HQ. rewrite !filter_cons, filter_nil.
  repeat case_decide; simpl; tauto || lia.
Qed.

Lemma length_filter_both a b :
  (P a ↔ Q) → (P b ↔ Q) →
  length (filter P [a; b]) = if decide Q then 2 else 0.
Proof.
  intros Ha Hb. rewrite !filter_cons, filter_nil.
  repeat case_decide; simpl; tauto || lia.
Qed.
End Counting.

(** Deciding whether a pair of paths is a side of a face that is written
    out. *)
Ltac holds :=
  first [ done | split; holds | left; holds | right; holds ].

Ltac split_cases H :=
  repeat match type of H with
         | _ ∨ _ => destruct H as [H|H]
         end.

(* [H] says that a pair is a side of an explicit face *)
Ltac side_cases H :=
  first [ apply hasEdge_three in H | apply hasEdge_four in H ];
  destruct H as [H|H]; split_cases H; simplify_eq.

Ltac is_side :=
  first [ apply hasEdge_three | apply hasEdge_four ]; holds.

Ltac no_side :=
  let H := fresh in intros H; side_cases H.

Ltac decide_side :=
  first [ left; split; [is_side | no_side]
        | right; split; [no_side | is_side]
        | split; [is_side | no_side] ].

Ltac count_by_cases :=
  lazymatch goal with
  | |- length (filter _ [_]) = if decide ?Q then 1 else 0 =>
      apply (length_filter_single _ Q); split
  | |- length (filter _ [_; _]) = if decide ?Q then 1 else 0 =>
      apply (length_filter_either _ Q)
  | |- length (filter _ [_; _]) = if decide ?Q then 2 else 0 =>
      apply (length_filter_both _ Q); split
  end.

(** The bridging faces of one edge that have a given side: a side of an
    existing face, a side of the face around a vertex, the diagonal of the
    bridging quadrilateral. *)
Section BridgeCounts.
Import OperationUtils.

Lemma bridge_count_face e twist f v w :
  v ≠ w → f1 e ≠ f2 e → v1 e ≠ v2 e →
  length (filter (hasEdge (f, v) (f, w)) (getEdgeFacePaths e twist))
  = if decide (sameEnds e v w ∧ (f1 e = f ∨ f2 e = f)) then 1 else 0.
Proof.
  destruct e as [a b fa fb]. unfold sameEnds. simpl. intros Hvw Hf Hv.
  destruct twist as [[]|]; simpl.
  all: count_by_cases.
  all: try (intros H; side_cases H; holds).
  all: intros [[[-> ->]|[-> ->]] [->| ->]]; first [decide_side | is_side].
Qed.

Lemma bridge_count_vertex e twist v f g :
  f ≠ g → f1 e ≠ f2 e → v1 e ≠ v2 e →
  length (filter (hasEdge (f, v) (g, v)) (getEdgeFacePaths e twist))
  = if decide ((v1 e = v ∨ v2 e = v) ∧ sameFaces e f g) then 1 else 0.
Proof.
  destruct e as [a b fa fb]. unfold sameFaces. simpl. intros Hfg Hf Hv.
  destruct twist as [[]|]; simpl.
  all: count_by_cases.
  all: try (intros H; side_cases H; holds).
  all: intros [[->| ->] [[-> ->]|[-> ->]]]; first [decide_side | is_side].
Qed.

Lemma bridge_count_diagonal e e' twist :
  f1 e ≠ f2 e → v1 e ≠ v2 e → f1 e' ≠ f2 e' → v1 e' ≠ v2 e' →
  length (filter (hasEdge (diagonal e' twist).1 (diagonal e' twist).2)
            (getEdgeFacePaths e (Some twist)))
  = if decide (sameEdge e e') then 2 else 0.
Proof.
  destruct e as [a b fa fb], e' as [a' b' fa' fb']. unfold sameEdge. simpl.
  intros Hf Hv Hf' Hv'.
  destruct twist; simpl.
  all: count_by_cases.
  all: try (intros H; side_cases H; holds).
  all: intros [(-> & -> & -> & ->)|(-> & -> & -> & ->)]; is_side.
Qed.
End BridgeCounts.

Section FilterFacts.
Import OperationUtils.
Context {A : Type} (P : A → Prop) `{!∀ x, Decision (P x)}.
Implicit Types (l : list A).

Lemma length_filter_none l :
  (∀ x, x ∈ l → ¬ P x) → length (filter P l) = 0.
Proof.
  induction l as [|a l IH]; intros Hl; [done|].
  rewrite filter_cons_False by apply Hl, list_elem_of_here.
  apply IH. intros x Hx. by apply Hl, list_elem_of_further.
Qed.

Lemma length_filter_unique l j x :
  l !! j = Some x → P x →
  (∀ j' x', l !! j' = Some x' → P x' → j' = j) →
  length (filter P l) = 1.
Proof.
  intros Hj Hx Huniq.
  rewrite <- (take_drop_middle l j x Hj), filter_app, filter_cons_True by done.
  rewrite length_app. simpl.
  rewrite !length_filter_none; [done| |].
  - intros y [i Hi]%list_elem_of_lookup_1 Hy.
    rewrite lookup_drop in Hi. specialize (Huniq _ _ Hi Hy). lia.
  - intros y [i Hi]%list_elem_of_lookup_1 Hy.
    apply lookup_take_Some in Hi as [Hi Hlt].
    specialize (Huniq _ _ Hi Hy). lia.
Qed.

Lemma length_filter_flatMap {E} (M : E → Prop) `{!∀ e, Decision (M e)}
    (paths : E → list A) (k : nat) (es : list E) :
  (∀ e, e ∈ es →
     length (filter P (paths e)) = if decide (M e) then k else 0) →
  length (filter P (Utils.flatMap es paths)) = k * length (filter M es).
Proof.
  unfold Utils.flatMap. induction es as [|e es IH]; intros Hes.
  { simpl. lia. }
  rewrite fmap_cons. change (mjoin (?l :: ?ls)) with (l ++ mjoin ls).
  rewrite filter_app, length_app, IH, (Hes e), filter_cons.
  - case_decide; simpl; lia.
  - apply list_elem_of_here.
  - intros e' He'. by apply Hes, list_elem_of_further.
Qed.

Lemma length_filter_impl (Q : A → Prop) `{!∀ x, Decision (Q x)} l :
  (∀ x, P x → Q x) → length (filter P l) ≤ length (filter Q l).
Proof.
  intros HPQ. induction l as [|a l IH]; [done|].
  rewrite !filter_cons. repeat case_decide; simpl; try lia.
  exfalso. auto.
Qed.

Lemma length_filter_pos l x : x ∈ l → P x → 1 ≤ length (filter P l).
Proof.
  intros Hx HP.
  assert (x ∈ filter P l) as Hin by by apply list_elem_of_filter.
  destruct (filter P l); [by apply elem_of_nil in Hin | simpl; lia].
Qed.
End FilterFacts.

Section Sides.
Import OperationUtils.
Context {A : Type} `{!EqDecision A}.
Implicit Types (a b : A) (face : list A).

Lemma hasEdge_sym a b face : hasEdge a b face ↔ hasEdge b a face.
Proof. unfold hasEdge. tauto. Qed.

Lemma length_filter_hasEdge_sym a b (fs : list (list A)) :
  length (filter (hasEdge a b) fs) = length (filter (hasEdge b a) fs).
Proof. f_equal. apply list_filter_iff. intros face. apply hasEdge_sym. Qed.

Lemma faceEdges_lookup a b face :
  (a, b) ∈ faceEdges face →
  ∃ i, face !! i = Some a ∧ face !! ((i + 1) `mod` length face) = Some b.
Proof.
  unfold faceEdges. intros [i Hi]%list_elem_of_lookup_1.
  apply lookup_zip_with_Some in Hi as (a' & b' & [= <- <-] & Ha & Hb).
  exists i. split; [done|].
  rewrite lookup_rotate_r in Hb by by eapply lookup_lt_Some.
  unfold rotate_nat_add in Hb.
  rewrite <- Hb. f_equal.
  pose proof (lookup_lt_Some _ _ _ Ha) as Hlt.
  rewrite Z2Nat.inj_mod by lia.
  rewrite Z2Nat.inj_add by lia. rewrite !Nat2Z.id. f_equal. lia.
Qed.

Lemma faceEdges_distinct a b face :
  NoDup face → 2 ≤ length face → (a, b) ∈ faceEdges face → a ≠ b.
Proof.
  intros Hnd Hlen (i & Ha & Hb)%faceEdges_lookup ->.
  pose proof (lookup_lt_Some _ _ _ Ha) as Hlt.
  pose proof (NoDup_lookup _ _ _ _ Hnd Ha Hb) as E.
  destruct (decide (i + 1 = length face)) as [E'|Hne].
  - rewrite E', Nat.Div0.mod_same in E. lia.
  - rewrite Nat.mod_small in E by lia. lia.
Qed.
End Sides.

Section PathFaces.
Import OperationUtils.
Context {V : Type} (adjacency : Adjacency) (p : Polyhedron V).
Local Abbreviation n := (length (vertices p)).
Local Abbreviation c := (count adjacency).
Local Abbreviation adj := (adjacentFaces adjacency).
Local Abbreviation existing :=
  (imap (fun f face => (fun v => (f, v)) <$> face) (faces p)).
Local Abbreviation around :=
  ((fun v => (fun f => (f, v)) <$> adj v) <$> seq 0 n).
Local Abbreviation bridging twist :=
  (Utils.flatMap (edges adjacency) (fun edge => getEdgeFacePaths edge twist)).
Implicit Types (x y : nat * nat) (twist : option Twist).

Lemma existing_lookup f paths :
  existing !! f = Some paths ↔
  ∃ face, faces p !! f = Some face ∧ paths = (fun v => (f, v)) <$> face.
Proof.
  rewrite list_lookup_imap. destruct (faces p !! f) as [face|]; simpl.
  - split; [intros [= <-]; eauto | intros (? & [= <-] & ->); done].
  - split; [done | intros (? & ? & _); done].
Qed.

Lemma existing_other x y :
  x.1 ≠ y.1 → length (filter (hasEdge x y) existing) = 0.
Proof.
  intros Hxy. apply length_filter_none.
  intros paths [f (face & _ & ->)%existing_lookup]%list_elem_of_lookup_1 Hside.
  assert (x ∈ (fun v => (f, v)) <$> face ∧ y ∈ (fun v => (f, v)) <$> face)
    as [Hx Hy].
  { destruct Hside as [H|H]; apply faceEdges_elem in H; tauto. }
  apply list_elem_of_fmap in Hx as (? & -> & _).
  apply list_elem_of_fmap in Hy as (? & -> & _). done.
Qed.

Lemma existing_side f face v w :
  faces p !! f = Some face → hasEdge v w face →
  length (filter (hasEdge (f, v) (f, w)) existing) = 1.
Proof.
  intros Hf Hside.
  apply (length_filter_unique _ _ f ((fun v => (f, v)) <$> face)).
  - apply existing_lookup. eauto.
  - apply (hasEdge_fmap (fun v => (f, v)) (fun _ => True)); try done.
    by intros ?? _ _ [= ->].
  - intros f' paths (face' & _ & ->)%existing_lookup [H|H];
      apply faceEdges_elem in H as [H _];
      apply list_elem_of_fmap in H as (? & [= -> _] & _); done.
Qed.

Lemma around_lookup v paths :
  around !! v = Some paths ↔ v < n ∧ paths = (fun f => (f, v)) <$> adj v.
Proof.
  rewrite list_lookup_fmap. split.
  - intros (u & Hu & ->)%fmap_Some. apply lookup_seq in Hu as [-> Hv]. done.
  - intros [Hv ->]. by rewrite lookup_seq_lt.
Qed.

Lemma around_other x y :
  x.2 ≠ y.2 → length (filter (hasEdge x y) around) = 0.
Proof.
  intros Hxy. apply length_filter_none.
  intros paths [v [_ ->]%around_lookup]%list_elem_of_lookup_1 Hside.
  assert (x ∈ (fun f => (f, v)) <$> adj v ∧ y ∈ (fun f => (f, v)) <$> adj v)
    as [Hx Hy].
  { destruct Hside as [H|H]; apply faceEdges_elem in H; tauto. }
  apply list_elem_of_fmap in Hx as (? & -> & _).
  apply list_elem_of_fmap in Hy as (? & -> & _). done.
Qed.

Lemma around_side v f g :
  v < n → hasEdge f g (adj v) →
  length (filter (hasEdge (f, v) (g, v)) around) = 1.
Proof.
  intros Hv Hside.
  apply (length_filter_unique _ _ v ((fun f => (f, v)) <$> adj v)).
  - by apply around_lookup.
  - apply (hasEdge_fmap (fun f => (f, v)) (fun _ => True)); try done.
    by intros ?? _ _ [= ->].
  - intros v' paths [_ ->]%around_lookup [H|H];
      apply faceEdges_elem in H as [H _];
      apply list_elem_of_fmap in H as (? & [= _ ->] & _); done.
Qed.

Hypothesis Hdistinct : distinctFaces p.
Hypothesis Hconsistent : consistentAdjacency adjacency p.
Hypothesis Hcyclic : cyclicAdjacency adjacency p.
Hypothesis Huniform : uniformDegree adjacency p.
Hypothesis Hcount : 3 ≤ c.

Lemma edge_ends e : e ∈ edges adjacency → f1 e ≠ f2 e ∧ v1 e ≠ v2 e.
Proof.
  intros He. destruct Hconsistent as (_ & _ & Hedges).
  destruct (Hedges e He) as (_ & _ & ? & ? & _). done.
Qed.

Lemma hasEdge_distinct {A} (a b : A) (face : list A) :
  NoDup face → 2 ≤ length face → hasEdge a b face → a ≠ b.
Proof.
  intros Hnd Hlen [H|H]; [|apply not_eq_sym];
    by eapply faceEdges_distinct.
Qed.

Lemma bridging_face twist f face v w :
  faces p !! f = Some face → hasEdge v w face →
  length (filter (hasEdge (f, v) (f, w)) (bridging twist)) = 1.
Proof.
  intros Hf Hside.
  assert (v ≠ w) as Hvw.
  { destruct (Hdistinct face) as [Hnd Hlen];
      [by eapply list_elem_of_lookup_2|].
    eapply hasEdge_distinct; [done| |done]. lia. }
  rewrite (length_filter_flatMap _
             (fun e => sameEnds e v w ∧ (f1 e = f ∨ f2 e = f)) _ 1).
  - destruct Hcyclic as (_ & Hsides & _).
    destruct Hside as [H|H].
    + rewrite (Hsides f face v w) by done. done.
    + rewrite Nat.mul_1_l.
      etransitivity; [|exact (Hsides f face w v Hf H)].
      f_equal. apply list_filter_iff. intros e. unfold sameEnds. tauto.
  - intros e [? ?]%edge_ends. by apply bridge_count_face.
Qed.

Lemma bridging_vertex twist v f g :
  v < n → hasEdge f g (adj v) →
  length (filter (hasEdge (f, v) (g, v)) (bridging twist)) = 1.
Proof.
  intros Hv Hside.
  assert (f ≠ g) as Hfg.
  { destruct Hconsistent as (_ & Hnd & _).
    eapply hasEdge_distinct; [by apply Hnd| |done].
    rewrite (Huniform v Hv). lia. }
  rewrite (length_filter_flatMap _
             (fun e => (v1 e = v ∨ v2 e = v) ∧ sameFaces e f g) _ 1).
  - destruct Hcyclic as (_ & _ & Hcorners).
    destruct Hside as [H|H].
    + rewrite (Hcorners v f g) by done. done.
    + rewrite Nat.mul_1_l.
      etransitivity; [|exact (Hcorners v g f Hv H)].
      f_equal. apply list_filter_iff. intros e. unfold sameFaces. tauto.
  - intros e [? ?]%edge_ends. by apply bridge_count_vertex.
Qed.

Lemma listed_once e :
  e ∈ edges adjacency →
  length (filter (fun e' => sameEdge e' e) (edges adjacency)) = 1.
Proof.
  intros He. destruct Hcyclic as (Hlisted & Hsides & _).
  destruct (Hlisted e He) as ((face & Hface & Hside) & _).
  apply Nat.le_antisymm.
  - assert (∃ v w, (v, w) ∈ faceEdges face ∧ sameEnds e v w)
      as (v & w & Hvw & Hends).
    { unfold sameEnds. destruct Hside as [H|H]; eauto 10. }
    rewrite <- (Hsides (f1 e) face v w Hface Hvw).
    apply length_filter_impl. intros e'. unfold sameEdge, sameEnds in *.
    intros [(-> & -> & -> & ->)|(-> & -> & -> & ->)]; tauto.
  - apply (length_filter_pos _ _ e); [done|]. left. done.
Qed.

Lemma bridging_diagonal e (twist : Twist) :
  e ∈ edges adjacency →
  length (filter (hasEdge (diagonal e twist).1 (diagonal e twist).2)
            (bridging (Some twist))) = 2.
Proof.
  intros He.
  rewrite (length_filter_flatMap _ (fun e' => sameEdge e' e) _ 2).
  - by rewrite listed_once.
  - intros e' [? ?]%edge_ends. destruct (edge_ends e He).
    by apply bridge_count_diagonal.
Qed.

(** Sides of the three kinds *)
Lemma face_side_twice twist f face v w :
  faces p !! f = Some face → hasEdge v w face →
  length (filter (hasEdge (f, v) (f, w)) (pathFaces adjacency p twist)) = 2.
Proof.
  intros Hf Hside. unfold pathFaces.
  rewrite !filter_app, !length_app.
  rewrite (existing_side f face), around_other, (bridging_face twist f face);
    try done.
  simpl. destruct (Hdistinct face) as [Hnd Hlen];
    [by eapply list_elem_of_lookup_2|].
  eapply hasEdge_distinct; [done| |done]. lia.
Qed.

Lemma vertex_side_twice twist v f g :
  v < n → hasEdge f g (adj v) →
  length (filter (hasEdge (f, v) (g, v)) (pathFaces adjacency p twist)) = 2.
Proof.
  intros Hv Hside. unfold pathFaces.
  rewrite !filter_app, !length_app.
  rewrite existing_other, around_side, bridging_vertex; try done.
  simpl. destruct Hconsistent as (_ & Hnd & _).
  eapply hasEdge_distinct; [by apply Hnd| |done].
  rewrite (Huniform v Hv). lia.
Qed.

Lemma diagonal_twice e (twist : Twist) :
  e ∈ edges adjacency →
  length (filter (hasEdge (diagonal e twist).1 (diagonal e twist).2)
            (pathFaces adjacency p (Some twist))) = 2.
Proof.
  intros He. unfold pathFaces.
  rewrite !filter_app, !length_app.
  destruct (edge_ends e He) as [Hf Hv].
  rewrite existing_other, around_other, bridging_diagonal; try done.
  - destruct twist; simpl; congruence.
  - destruct twist; simpl; congruence.
Qed.

(** Every side of every face, vertices written as paths, is a side of
    exactly two faces. *)
Lemma pathFaces_manifold twist paths x y :
  paths ∈ pathFaces adjacency p twist → (x, y) ∈ faceEdges paths →
  length (filter (hasEdge x y) (pathFaces adjacency p twist)) = 2.
Proof.
  unfold pathFaces at 1. rewrite !elem_of_app. intros [Hin|[Hin|Hin]] Hxy.
  - apply list_elem_of_lookup_1 in Hin as [f (face & Hf & ->)%existing_lookup].
    rewrite (faceEdges_fmap (fun v => (f, v))) in Hxy.
    apply list_elem_of_fmap in Hxy as ([v w] & [= -> ->] & Hvw).
    apply (face_side_twice twist f face); [done | by left].
  - apply list_elem_of_lookup_1 in Hin as [v [Hv ->]%around_lookup].
    rewrite (faceEdges_fmap (fun f => (f, v))) in Hxy.
    apply list_elem_of_fmap in Hxy as ([f g] & [= -> ->] & Hfg).
    apply vertex_side_twice; [done | by left].
  - unfold Utils.flatMap in Hin.
    apply list_elem_of_join in Hin as (ps & Hin & Hps).
    apply list_elem_of_fmap in Hps as (e & -> & He).
    destruct Hcyclic as (Hlisted & _).
    destruct (Hlisted e He)
      as ((face1 & Hface1 & Hside1) & (face2 & Hface2 & Hside2) & Hv1 & Hv2).
    destruct Hconsistent as (_ & _ & Hedges).
    destruct (Hedges e He) as (Hn1 & Hn2 & _).
    pose proof (proj2 (hasEdge_sym _ _ _) Hside1).
    pose proof (proj2 (hasEdge_sym _ _ _) Hside2).
    pose proof (proj2 (hasEdge_sym _ _ _) Hv1).
    pose proof (proj2 (hasEdge_sym _ _ _) Hv2).
    destruct twist as [[]|]; simpl in Hin;
      rewrite ?elem_of_cons, elem_of_nil in Hin;
      repeat (destruct Hin as [->|Hin]); try done;
      rewrite ?faceEdges_three, ?faceEdges_four in Hxy;
      rewrite ?elem_of_cons, elem_of_nil in Hxy;
      repeat (destruct Hxy as [[= -> ->]|Hxy]); try done;
      first [ by eapply face_side_twice
            | by apply vertex_side_twice
            | apply (diagonal_twice e left He)
            | apply (diagonal_twice e right He)
            | rewrite length_filter_hasEdge_sym;
              first [ apply (diagonal_twice e left He)
                    | apply (diagonal_twice e right He) ] ].
Qed.
End PathFaces.

Lemma Forall2_lookup_default {A B} (f : A → option B) (d : B) (l : list A)
    (k : list B) :
  Forall2 (fun x y => f x = Some y) l k →
  k = (fun x => default d (f x)) <$> l.
Proof.
  induction 1 as [|x y l k Hxy _ IH]; [done|].
  rewrite fmap_cons, Hxy, <- IH. done.
Qed.

Lemma Forall2_fmap_eq {A B} (g : A → B) (l : list A) (k : list B) :
  Forall2 (fun x y => y = g x) l k → k = g <$> l.
Proof.
  induction 1 as [|x y l k Hxy _ IH]; [done|].
  by rewrite fmap_cons, Hxy, <- IH.
Qed.

Section DuplicateManifold.
Import OperationUtils.
Context {V : Type} (adjacency : Adjacency) (p : Polyhedron V).
Local Abbreviation n := (length (vertices p)).
Local Abbreviation c := (count adjacency).
Local Abbreviation adj := (adjacentFaces adjacency).
Local Abbreviation mapping := (newVertexMapping adjacency p).
Local Abbreviation duplicate :=
  (fun path : nat * nat => default 0 (mapping !! path)).

Hypothesis Hvalid : validFaces p.
Hypothesis Hdistinct : distinctFaces p.
Hypothesis Hconsistent : consistentAdjacency adjacency p.
Hypothesis Huniform : uniformDegree adjacency p.

(** The paths that lead to a duplicate. *)
Local Abbreviation corner :=
  (fun path : nat * nat => path.2 < n ∧ path.1 ∈ adj path.2).

Lemma corner_duplicate path :
  corner path → duplicateOf adjacency p path (duplicate path).
Proof.
  destruct path as [f v]. intros [Hv Hf]. simpl in *.
  destruct (newVertexMapping_defined adjacency p f v Hv Hf) as (i & Hi & E).
  apply lookup_duplicateOf; [done|]. rewrite E. done.
Qed.

Lemma duplicate_inj x y :
  corner x → corner y → duplicate x = duplicate y → x = y.
Proof.
  intros Hx%corner_duplicate Hy%corner_duplicate E. rewrite E in Hx.
  by eapply duplicateOf_private.
Qed.

Lemma pathFaces_corners twist paths path :
  paths ∈ pathFaces adjacency p twist → path ∈ paths → corner path.
Proof.
  destruct Hconsistent as (Hadj & _ & Hedges).
  unfold pathFaces. rewrite !elem_of_app. intros [Hin|[Hin|Hin]] Hpath.
  - apply list_elem_of_lookup_1 in Hin as [f Hf].
    apply existing_lookup in Hf as (face & Hf & ->).
    apply list_elem_of_fmap in Hpath as (v & -> & Hv). simpl. split.
    + eapply Hvalid; [|done]. by eapply list_elem_of_lookup_2.
    + by eapply Hadj.
  - apply list_elem_of_lookup_1 in Hin as [v Hv].
    apply around_lookup in Hv as [Hv ->].
    apply list_elem_of_fmap in Hpath as (f & -> & Hf). done.
  - unfold Utils.flatMap in Hin.
    apply list_elem_of_join in Hin as (ps & Hin & Hps).
    apply list_elem_of_fmap in Hps as (e & -> & He).
    destruct path as [f v].
    destruct (edge_paths e twist (f, v)) as [Hf Hv];
      [apply list_elem_of_join; eauto|]. simpl in Hf, Hv.
    destruct (Hedges e He) as (? & ? & _ & _ & ? & ? & ? & ?).
    destruct Hf as [->| ->], Hv as [->| ->]; done.
Qed.

Lemma around_duplicates v :
  v < n → seq (v * c) c = duplicate <$> ((fun f => (f, v)) <$> adj v).
Proof.
  intros Hv. destruct Hconsistent as (_ & Hnd & _).
  apply list_eq_same_length with c.
  - by rewrite !length_fmap, Huniform.
  - by rewrite length_seq.
  - intros i d d' Hi Hd Hd'.
    apply lookup_seq in Hd as [-> _].
    rewrite <- list_fmap_compose, list_lookup_fmap in Hd'.
    apply fmap_Some in Hd' as (f & Hf & ->). simpl.
    destruct (newVertexMapping_defined adjacency p f v Hv) as (i' & Hi' & E).
    { by eapply list_elem_of_lookup_2. }
    rewrite E. simpl.
    by rewrite (NoDup_lookup _ _ _ _ (Hnd v Hv) Hf Hi').
Qed.

(** The faces of the result are the faces written as paths, every path
    replaced by the duplicate it leads to. *)
Lemma duplicateVertices_faces twist q :
  duplicateVertices adjacency p twist = Some q →
  faces q = (fun paths : list (nat * nat) => duplicate <$> paths)
              <$> pathFaces adjacency p twist.
Proof.
  unfold duplicateVertices. intros Hq.
  apply bind_Some in Hq as (mapped & Hmapped & Hq).
  apply bind_Some in Hq as (bridges & Hbridges & [= <-]). simpl.
  unfold pathFaces. rewrite !fmap_app. f_equal; [|f_equal].
  - apply mapM_Some in Hmapped.
    rewrite fmap_imap.
    replace (imap _ (faces p))
      with ((fun ff : nat * list nat =>
               duplicate <$> ((fun v => (ff.1, v)) <$> ff.2))
              <$> imap (fun i face => (i, face)) (faces p))
      by by rewrite fmap_imap.
    apply Forall2_fmap_eq. eapply Forall2_impl; [exact Hmapped|].
    intros [f face] face' Hface. simpl in *.
    apply mapM_Some in Hface. rewrite <- list_fmap_compose.
    by apply (Forall2_lookup_default (fun v => mapping !! (f, v)) 0).
  - rewrite <- list_fmap_compose. apply list_fmap_ext.
    intros i v [-> Hv]%lookup_seq. simpl. by apply around_duplicates.
  - apply mapM_Some in Hbridges.
    apply Forall2_fmap_eq. eapply Forall2_impl; [exact Hbridges|].
    intros paths bridge Hb. simpl in Hb. apply mapM_Some in Hb.
    by apply (Forall2_lookup_default (fun path => mapping !! path) 0).
Qed.

Hypothesis Hcyclic : cyclicAdjacency adjacency p.
Hypothesis Hcount : 3 ≤ c.

Lemma duplicateVertices_closedManifold twist q :
  duplicateVertices adjacency p twist = Some q → closedManifold q.
Proof.
  intros Hq face a b Hface Hab.
  rewrite (duplicateVertices_faces twist q Hq) in Hface |- *.
  apply list_elem_of_fmap in Hface as (paths & -> & Hpaths).
  rewrite (faceEdges_fmap duplicate) in Hab.
  apply list_elem_of_fmap in Hab as ([x y] & [= -> ->] & Hxy).
  pose proof (faceEdges_elem _ _ _ Hxy) as [Hx Hy].
  rewrite (filter_hasEdge_fmap duplicate corner duplicate_inj).
  - by eapply pathFaces_manifold.
  - by eapply pathFaces_corners.
  - by eapply pathFaces_corners.
  - intros paths' path. apply pathFaces_corners.
Qed.
End DuplicateManifold.

(** C4, as the code has it.  [removeExtraneousVertices] keeps a
    well-formed polyhedron well formed and leaves no vertex unused.
    [deduplicateVertices] yields faces that reference existing vertices
    only and have at least three different vertices each, and leaves no
    vertex unused.  [duplicateVertices], when the same number of faces, at
    least three, meets at every vertex, yields faces that reference
    existing vertices only and have at least three different vertices
    each; and when the adjacency is that of a closed surface, every side
    of every face of the result belongs to exactly two faces. *)
Theorem operations_keep_structure
    {V : Type} (equalsWithTolerance : V → V → bool)
    (adjacency : OperationUtils.Adjacency)
    (p : OperationUtils.Polyhedron V) (twist : option OperationUtils.Twist) :
  (OperationUtils.wellFormed p →
   OperationUtils.wellFormed (OperationUtils.removeExtraneousVertices p)
   ∧ OperationUtils.allReferenced (OperationUtils.removeExtraneousVertices p))
  ∧ (OperationUtils.validFaces p →
     let q := OperationUtils.deduplicateVertices equalsWithTolerance p in
     OperationUtils.validFaces q ∧ OperationUtils.distinctFaces q
     ∧ OperationUtils.allReferenced q)
  ∧ (OperationUtils.validFaces p → OperationUtils.distinctFaces p →
     OperationUtils.consistentAdjacency adjacency p →
     OperationUtils.uniformDegree adjacency p →
     3 ≤ OperationUtils.count adjacency →
     ∃ q, OperationUtils.duplicateVertices adjacency p twist = Some q
          ∧ OperationUtils.validFaces q ∧ OperationUtils.distinctFaces q
          ∧ (OperationUtils.cyclicAdjacency adjacency p →
             OperationUtils.closedManifold q)).
Proof.
  split_and!.
  - intros (Hvalid & Hdistinct & Hmanifold). split; [split_and!|].
    + by apply removeExtraneousVertices_validFaces.
    + by apply removeExtraneousVertices_distinctFaces.
    + by apply removeExtraneousVertices_closedManifold.
    + apply removeExtraneousVertices_allReferenced.
  - intros Hvalid q. subst q. rewrite deduplicateVertices_unfold. split_and!.
    + by apply removeExtraneousVertices_validFaces, mergedFaces_validFaces.
    + apply removeExtraneousVertices_distinctFaces.
      * by apply mergedFaces_validFaces.
      * apply mergedFaces_distinctFaces.
    + apply removeExtraneousVertices_allReferenced.
  - intros Hvalid Hdistinct Hconsistent Huniform Hcount.
    destruct (duplicateVertices_faces_valid adjacency p twist)
      as (q & Hq & Hvalid' & Hdistinct'); [done..|].
    exists q. split_and!; [done..|].
    intros Hcyclic.
    exact (duplicateVertices_closedManifold adjacency p Hvalid Hdistinct
             Hconsistent Huniform Hcyclic Hcount twist q Hq).
Qed.

Lemma operations_keep_structure_witness :
  OperationUtils.wellFormed
    (OperationUtils.removeExtraneousVertices Samples.tetrahedron)
  ∧ OperationUtils.validFaces
      (OperationUtils.deduplicateVertices (Samples.gridEquals 1)
         Samples.flatOctahedron)
  ∧ ∃ q, OperationUtils.duplicateVertices Samples.tetrahedronAdjacency
           Samples.tetrahedron None = Some q
         ∧ OperationUtils.wellFormed q.
Proof.
  destruct (operations_keep_structure (Samples.gridEquals 1)
              Samples.tetrahedronAdjacency Samples.tetrahedron None)
    as (Hremove & _ & Hduplicate).
  destruct (operations_keep_structure (Samples.gridEquals 1)
              Samples.tetrahedronAdjacency Samples.flatOctahedron None)
    as (_ & Hdedup & _).
  split_and!.
  - apply Hremove, tetrahedron_wellFormed.
  - apply Hdedup, flatOctahedron_wellFormed.
  - destruct Hduplicate as (q & Hq & Hvalid & Hdistinct & Hmanifold).
    + apply tetrahedron_wellFormed.
    + apply tetrahedron_wellFormed.
    + apply tetrahedron_adjacency.
    + apply tetrahedron_adjacency.
    + vm_compute. lia.
    + exists q. split; [exact Hq|]. split_and!; [done..|].
      apply Hmanifold, tetrahedron_cyclicAdjacency.
Defined.

(** C4, as the claim has it: the result of each of the three operations
    on a well-formed polyhedron is well formed.  Deduplicating an
    octahedron whose two apexes coincide leaves the edge between vertices
    0 and 1 in four faces; duplicating the vertices of a square pyramid
    yields a face that references vertex 15 of 15 vertices. *)
Lemma operations_break_structure :
  OperationUtils.wellFormed Samples.flatOctahedron
  ∧ ¬ OperationUtils.closedManifold
        (OperationUtils.deduplicateVertices (Samples.gridEquals 1)
           Samples.flatOctahedron)
  ∧ OperationUtils.wellFormed Samples.squarePyramid
  ∧ OperationUtils.consistentAdjacency Samples.squarePyramidAdjacency
      Samples.squarePyramid
  ∧ OperationUtils.cyclicAdjacency Samples.squarePyramidAdjacency
      Samples.squarePyramid
  ∧ ∃ q, OperationUtils.duplicateVertices Samples.squarePyramidAdjacency
           Samples.squarePyramid None = Some q
         ∧ ¬ OperationUtils.validFaces q.
Proof.
  split_and!.
  - apply flatOctahedron_wellFormed.
  - intros Hmanifold.
    specialize (Hmanifold [0; 1; 2] 0 1).
    assert (length (filter (OperationUtils.hasEdge 0 1)
                      (OperationUtils.faces
                         (OperationUtils.deduplicateVertices
                            (Samples.gridEquals 1) Samples.flatOctahedron)))
            = 4) as Hfour by by vm_compute.
    rewrite Hfour in Hmanifold.
    assert (4 = 2) as Habsurd; [|lia].
    apply Hmanifold; decide_by_computation.
  - apply squarePyramid_wellFormed.
  - apply squarePyramid_adjacency.
  - apply squarePyramid_cyclicAdjacency.
  - eexists. split; [by vm_compute|].
    intros Hvalid. specialize (Hvalid [5; 7; 15] 15).
    assert (15 < 15) as Habsurd; [|lia].
    apply Hvalid; decide_by_computation.
Qed.

(** * Further properties *)

(** ** The list utilities of [src/utils.ts] *)
Section UtilsFacts.
Import Utils.

Section GetCyclicMore.
Context {T : Type}.
Implicit Types (array : list T) (index : Z).

Lemma mod_zero (a : Z) : mod_ a 0 = None.
Proof. unfold mod_, jsRem. by repeat case_decide. Qed.

Lemma getCyclic_nil index : getCyclic (@nil T) index = None.
Proof. unfold getCyclic. simpl. by rewrite mod_zero. Qed.

Lemma getCyclic_nonneg array index :
  (0 <= index)%Z →
  getCyclic array index = array !! Z.to_nat (index mod Z.of_nat (length array)).
Proof.
  intros Hidx. destruct (decide (array = [])) as [->|Hne].
  - by rewrite getCyclic_nil.
  - apply getCyclic_in_range; [done | by left].
Qed.
End GetCyclicMore.

(** X1.  For a non-empty array, and an index that is not negative or is
    no multiple of the length, [getCyclic] returns an element of the
    array: the one at the index reduced modulo the length. *)
Theorem getCyclic_wraps {T} (array : list T) (index : Z) :
  array ≠ [] →
  (0 <= index ∨ index mod Z.of_nat (length array) ≠ 0)%Z →
  ∃ x, getCyclic array index = Some x
       ∧ array !! Z.to_nat (index mod Z.of_nat (length array)) = Some x.
Proof.
  intros Hne Hidx. rewrite getCyclic_in_range by done.
  assert (0 < Z.of_nat (length array))%Z as Hlen
    by (destruct array; [done | simpl; lia]).
  pose proof (Z.mod_pos_bound index _ Hlen) as Hm.
  destruct (lookup_lt_is_Some_2 array
              (Z.to_nat (index mod Z.of_nat (length array)))) as [x Hx];
    [lia|].
  eauto.
Qed.

Lemma getCyclic_wraps_witness :
  ∃ x, getCyclic ["a"; "b"; "c"] (-4) = Some x
       ∧ ["a"; "b"; "c"] !! 2 = Some x.
Proof.
  apply (getCyclic_wraps ["a"; "b"; "c"] (-4)); [done|].
  right. vm_compute. done.
Defined.

(** X2.  [getCyclic] of an empty array is [undefined] for every index;
    from an index that is not negative, going on by whole turns of the
    array leads to the same element; and a negative index above minus the
    length counts from the end of the array. *)
Theorem getCyclic_turns {T} (array : list T) :
  (∀ index, array = [] → getCyclic array index = None)
  ∧ (∀ index k, (0 <= index)%Z → (0 <= k)%Z →
       getCyclic array (index + k * Z.of_nat (length array)) = getCyclic array index)
  ∧ (∀ i, 0 < i < length array →
       getCyclic array (- Z.of_nat i) = array !! (length array - i)).
Proof.
  split_and!.
  - intros index ->. apply getCyclic_nil.
  - intros index k Hidx Hk. rewrite !getCyclic_nonneg by nia.
    destruct (decide (array = [])) as [->|Hne]; [done|].
    rewrite Z.mod_add; [done|]. destruct array; [done | simpl; lia].
  - intros i Hi. rewrite getCyclic_in_range.
    + f_equal.
      replace (- Z.of_nat i)%Z
        with (Z.of_nat (length array - i) + (-1) * Z.of_nat (length array))%Z
        by lia.
      rewrite Z.mod_add by lia. rewrite Z.mod_small by lia. lia.
    + intros ->. simpl in Hi. lia.
    + right.
      replace (- Z.of_nat i)%Z
        with (Z.of_nat (length array - i) + (-1) * Z.of_nat (length array))%Z
        by lia.
      rewrite Z.mod_add by lia. rewrite Z.mod_small by lia. lia.
Qed.

Lemma getCyclic_turns_witness :
  getCyclic ["a"; "b"; "c"] (1 + 2 * 3) = getCyclic ["a"; "b"; "c"] 1
  ∧ getCyclic ["a"; "b"; "c"] (-1) = Some "c"
  ∧ getCyclic (@nil string) 5 = None.
Proof.
  destruct (getCyclic_turns ["a"; "b"; "c"]) as (_ & Hturn & Hback).
  destruct (getCyclic_turns (@nil string)) as (Hnil & _).
  split_and!.
  - apply (Hturn 1%Z 2%Z); lia.
  - apply (Hback 1). simpl. lia.
  - apply Hnil. reflexivity.
Defined.

Section SplitAt.
Context {T : Type}.
Implicit Types (array : list T) (index : Z).

Lemma relativeIndex_le len index : relativeIndex len index ≤ len.
Proof. unfold relativeIndex. case_decide; lia. Qed.

Lemma splitAt_parts array index :
  splitAt array index
  = (take (relativeIndex (length array) index) array,
     drop (relativeIndex (length array) index) array).
Proof.
  unfold splitAt, slice. simpl.
  assert (relativeIndex (length array) 0 = 0) as ->
    by (unfold relativeIndex; case_decide; lia).
  rewrite drop_0, Nat.sub_0_r. f_equal.
  apply take_ge. rewrite length_drop. lia.
Qed.
End SplitAt.

(** X3.  For every integer index the two parts [splitAt] returns,
    put together again, are the list.  An index that is not negative is
    the length of the front part, at most the whole list; a negative index
    is, negated, the length of the back part, at most the whole list. *)
Theorem splitAt_append {T} (array : list T) (index : Z) :
  let front := (splitAt array index).1 in
  let back := (splitAt array index).2 in
  front ++ back = array
  ∧ ((0 <= index)%Z →
     length front = Z.to_nat (Z.min index (Z.of_nat (length array))))
  ∧ ((index < 0)%Z →
     length back = Z.to_nat (Z.min (- index) (Z.of_nat (length array)))).
Proof.
  intros front back. subst front back. rewrite splitAt_parts. simpl.
  split_and!.
  - apply take_drop.
  - intros Hidx. rewrite length_take. unfold relativeIndex.
    rewrite decide_False by lia. lia.
  - intros Hidx. rewrite length_drop. unfold relativeIndex.
    rewrite decide_True by lia. lia.
Qed.

Lemma splitAt_append_witness :
  (splitAt [1; 2; 3; 4] 1).1 ++ (splitAt [1; 2; 3; 4] 1).2 = [1; 2; 3; 4]
  ∧ length (splitAt [1; 2; 3; 4] 1).1 = 1
  ∧ length (splitAt [1; 2; 3; 4] (-1)).2 = 1.
Proof.
  destruct (splitAt_append [1; 2; 3; 4] 1) as (Happ & Hfront & _).
  destruct (splitAt_append [1; 2; 3; 4] (-1)) as (_ & _ & Hback).
  split_and!.
  - exact Happ.
  - apply Hfront. lia.
  - apply Hback. lia.
Defined.

Section Pivot.
Context {T : Type} `{!EqDecision T}.
Implicit Types (array : list T) (value : T).

Lemma indexOfFrom_found i array value :
  value ∈ array →
  ∃ j, indexOfFrom i array value = Z.of_nat (i + j)
       ∧ array !! j = Some value
       ∧ ∀ j', j' < j → array !! j' ≠ Some value.
Proof.
  revert i. induction array as [|x array IH]; intros i Hin.
  { by apply elem_of_nil in Hin. }
  simpl. destruct (decide (x = value)) as [->|Hne].
  - exists 0. split_and!; [f_equal; lia | done | lia].
  - apply elem_of_cons in Hin as [->|Hin]; [done|].
    destruct (IH (S i) Hin) as (j & E & Hj & Hfirst).
    exists (S j). split_and!; [rewrite E; f_equal; lia | done |].
    intros [|j'] Hlt; simpl; [congruence | apply Hfirst; lia].
Qed.

Lemma indexOfFrom_missing i array value :
  value ∉ array → indexOfFrom i array value = (-1)%Z.
Proof.
  revert i. induction array as [|x array IH]; intros i Hin; [done|].
  apply not_elem_of_cons in Hin as [Hne Hin].
  simpl. rewrite decide_False by done. by apply IH.
Qed.

Lemma pivot_parts array value :
  pivot array value
  = drop (relativeIndex (length array) (indexOf array value)) array
    ++ take (relativeIndex (length array) (indexOf array value)) array.
Proof. unfold pivot. by rewrite splitAt_parts. Qed.

Lemma pivot_found array value :
  value ∈ array →
  ∃ i, indexOf array value = Z.of_nat i
       ∧ array !! i = Some value
       ∧ (∀ j, j < i → array !! j ≠ Some value)
       ∧ pivot array value = drop i array ++ take i array.
Proof.
  intros Hin. destruct (indexOfFrom_found 0 array value Hin)
    as (i & E & Hi & Hfirst).
  exists i. split_and!; [done..|].
  rewrite pivot_parts. unfold indexOf. rewrite E. simpl.
  pose proof (lookup_lt_Some _ _ _ Hi).
  assert (relativeIndex (length array) (Z.of_nat i) = i) as ->; [|done].
  unfold relativeIndex. rewrite decide_False by lia. lia.
Qed.
End Pivot.

(** X4.  When the value occurs in the list, [pivot] returns the list
    from the first occurrence of the value on, followed by what was in
    front of it; the result starts with the value. *)
Theorem pivot_starts_with_value {T} `{!EqDecision T}
    (array : list T) (value : T) :
  value ∈ array →
  ∃ i, array !! i = Some value
       ∧ (∀ j, j < i → array !! j ≠ Some value)
       ∧ pivot array value = drop i array ++ take i array
       ∧ head (pivot array value) = Some value.
Proof.
  intros (i & _ & Hi & Hfirst & E)%pivot_found.
  exists i. split_and!; [done..|].
  rewrite E. rewrite (drop_S _ _ _ Hi). done.
Qed.

Lemma pivot_starts_with_value_witness :
  ∃ i, [5; 6; 7; 6] !! i = Some 6
       ∧ (∀ j, j < i → [5; 6; 7; 6] !! j ≠ Some 6)
       ∧ pivot [5; 6; 7; 6] 6 = drop i [5; 6; 7; 6] ++ take i [5; 6; 7; 6]
       ∧ head (pivot [5; 6; 7; 6] 6) = Some 6.
Proof.
  apply (pivot_starts_with_value [5; 6; 7; 6] 6).
  apply (bool_decide_unpack _). by vm_compute.
Defined.

(** X5.  When the value does not occur in the list, [indexOf] yields
    [-1] and [pivot] does not leave the list as it is: the last element is
    moved to the front. *)
Theorem pivot_missing_value {T} `{!EqDecision T}
    (array : list T) (value : T) :
  value ∉ array →
  pivot array value
  = option_list (last array) ++ take (length array - 1) array.
Proof.
  intros Hin. rewrite pivot_parts. unfold indexOf.
  rewrite indexOfFrom_missing by done.
  assert (relativeIndex (length array) (-1) = length array - 1) as ->.
  { unfold relativeIndex. rewrite decide_True by lia. lia. }
  f_equal. destruct array as [|x array] using rev_ind; [done|].
  rewrite last_snoc, length_app. simpl.
  replace (length array + 1 - 1) with (length array) by lia.
  by rewrite drop_app_length.
Qed.

Lemma pivot_missing_value_witness :
  pivot [1; 2; 3] 9 = [3; 1; 2].
Proof.
  apply (pivot_missing_value [1; 2; 3] 9).
  apply (bool_decide_unpack _). by vm_compute.
Defined.

(** X6.  [pivot] returns a rearrangement of the list, whatever the
    value; when the value occurs, the cyclic order is kept: the element
    [getCyclic] finds in the pivoted list at an index that is not negative
    is the one it finds in the list that many places after the value. *)
Theorem pivot_keeps_cycle {T} `{!EqDecision T}
    (array : list T) (value : T) :
  pivot array value ≡ₚ array
  ∧ (value ∈ array →
     ∀ j, (0 <= j)%Z →
       getCyclic (pivot array value) j
       = getCyclic array (j + indexOf array value)).
Proof.
  split.
  - rewrite pivot_parts, Permutation_app_comm. by rewrite take_drop.
  - intros (i & E & Hi & _ & Hpivot)%pivot_found j Hj.
    pose proof (lookup_lt_Some _ _ _ Hi) as Hlt.
    rewrite E. rewrite !getCyclic_nonneg by lia.
    assert (pivot array value = rotate i array) as Hrot.
    { rewrite Hpivot. unfold rotate. by rewrite Nat.mod_small. }
    rewrite Hrot, length_rotate.
    assert (0 < Z.of_nat (length array))%Z as Hlen by lia.
    pose proof (Z.mod_pos_bound j _ Hlen) as Hm.
    rewrite lookup_rotate_r by lia. f_equal.
    unfold rotate_nat_add. f_equal.
    rewrite Z2Nat.id by lia.
    rewrite Z.add_mod_idemp_r by lia. f_equal. lia.
Qed.

Lemma pivot_keeps_cycle_witness :
  pivot [5; 6; 7] 6 ≡ₚ [5; 6; 7]
  ∧ getCyclic (pivot [5; 6; 7] 6) 2 = getCyclic [5; 6; 7] (2 + 1).
Proof.
  destruct (pivot_keeps_cycle [5; 6; 7] 6) as [Hperm Hcycle].
  split; [exact Hperm|].
  apply (Hcycle ltac:(apply (bool_decide_unpack _); by vm_compute) 2%Z).
  lia.
Defined.

Section UniqBy.
Context {U K : Type} `{!EqDecision K} (iteratee : U → K).
Implicit Types (seen : list K) (array : list U).

Lemma elem_of_uniqByFrom seen array x :
  x ∈ uniqByFrom seen array iteratee → x ∈ array ∧ iteratee x ∉ seen.
Proof.
  revert seen. induction array as [|y array IH]; intros seen; simpl.
  { by intros ?%elem_of_nil. }
  case_decide as Hy.
  - intros [? ?]%IH. split; [by apply list_elem_of_further | done].
  - intros [->|[Hx Hk]%IH]%elem_of_cons.
    + split; [apply list_elem_of_here | done].
    + split; [by apply list_elem_of_further|].
      intros Hin. apply Hk. by apply list_elem_of_further.
Qed.

Lemma uniqByFrom_keys_NoDup seen array :
  NoDup (iteratee <$> uniqByFrom seen array iteratee).
Proof.
  revert seen. induction array as [|y array IH]; intros seen; simpl.
  { apply NoDup_nil_2. }
  case_decide as Hy; [apply IH|].
  rewrite fmap_cons. apply NoDup_cons. split; [|apply IH].
  intros (x & E & [_ Hk]%elem_of_uniqByFrom)%list_elem_of_fmap.
  apply Hk. rewrite <- E. apply list_elem_of_here.
Qed.

Lemma uniqByFrom_covers seen array y :
  y ∈ array → iteratee y ∉ seen →
  ∃ x, x ∈ uniqByFrom seen array iteratee ∧ iteratee x = iteratee y.
Proof.
  revert seen. induction array as [|z array IH]; intros seen Hin Hseen.
  { by apply elem_of_nil in Hin. }
  simpl. case_decide as Hz.
  - apply elem_of_cons in Hin as [->|Hin]; [done|]. by apply IH.
  - destruct (decide (iteratee z = iteratee y)) as [E|Hne].
    { exists z. split; [apply list_elem_of_here | done]. }
    apply elem_of_cons in Hin as [->|Hin]; [done|].
    destruct (IH (iteratee z :: seen) Hin) as (x & Hx & E).
    { by intros [?|?]%elem_of_cons. }
    exists x. split; [by apply list_elem_of_further | done].
Qed.

Lemma uniqByFrom_sublist seen array :
  uniqByFrom seen array iteratee `sublist_of` array.
Proof.
  revert seen. induction array as [|y array IH]; intros seen; simpl.
  { done. }
  case_decide; [apply sublist_cons, IH | apply sublist_skip, IH].
Qed.

Lemma uniqByFrom_first seen array x :
  x ∈ uniqByFrom seen array iteratee →
  ∃ i, array !! i = Some x
       ∧ ∀ j y, j < i → array !! j = Some y → iteratee y ≠ iteratee x.
Proof.
  revert seen. induction array as [|z array IH]; intros seen; simpl.
  { by intros ?%elem_of_nil. }
  case_decide as Hz.
  - intros Hx. pose proof (elem_of_uniqByFrom _ _ _ Hx) as [_ Hk].
    destruct (IH _ Hx) as (i & Hi & Hfirst).
    exists (S i). split; [done|].
    intros [|j] y Hlt Hy; simpl in Hy.
    + injection Hy as <-. congruence.
    + apply (Hfirst j); [lia | done].
  - intros [->|Hx]%elem_of_cons.
    + exists 0. split; [done|]. intros j y Hlt. lia.
    + pose proof (elem_of_uniqByFrom _ _ _ Hx) as [_ Hk].
      destruct (IH _ Hx) as (i & Hi & Hfirst).
      exists (S i). split; [done|].
      intros [|j] y Hlt Hy; simpl in Hy.
      * injection Hy as <-. intros E. apply Hk. rewrite E.
        apply list_elem_of_here.
      * apply (Hfirst j); [lia | done].
Qed.
End UniqBy.

(** X7.  [flatMapUniq] returns, out of the concatenated results of the
    first iteratee and in their order, the first element for every key of
    the second iteratee: no two elements of the result have the same key,
    every key that occurs is represented, and nothing with the same key
    comes before a chosen element. *)
Theorem flatMapUniq_first_of_each_key {T U K} `{!EqDecision K}
    (arr : list T) (iteratee1 : T → list U) (iteratee2 : U → K) :
  let all := mjoin (iteratee1 <$> arr) in
  let result := flatMapUniq arr iteratee1 iteratee2 in
  NoDup (iteratee2 <$> result)
  ∧ result `sublist_of` all
  ∧ (∀ y, y ∈ all → ∃ x, x ∈ result ∧ iteratee2 x = iteratee2 y)
  ∧ (∀ x, x ∈ result →
       ∃ i, all !! i = Some x
            ∧ ∀ j y, j < i → all !! j = Some y → iteratee2 y ≠ iteratee2 x).
Proof.
  intros all result. subst all result. unfold flatMapUniq, uniqBy.
  split_and!.
  - apply uniqByFrom_keys_NoDup.
  - apply uniqByFrom_sublist.
  - intros y Hy. apply uniqByFrom_covers; [done | apply not_elem_of_nil].
  - intros x. apply uniqByFrom_first.
Qed.

Section Escape.
Implicit Types (str : string).

Lemma length_escape str : String.length (escape str) = String.length str.
Proof. induction str as [|c str IH]; simpl; [done | by rewrite IH]. Qed.

Lemma get_escape str (n : nat) :
  String.get n (escape str)
  = (fun c => if decide (c = space) then hyphen else c) <$> String.get n str.
Proof.
  revert n. induction str as [|c str IH]; intros [|n]; simpl; done.
Qed.
End Escape.

(** X8.  [escape] keeps the length of the string, replaces every space
    by a hyphen and leaves every other character as it is; no space is
    left, and escaping twice is escaping once. *)
Theorem escape_replaces_every_space (str : string) :
  String.length (escape str) = String.length str
  ∧ (∀ n c, String.get n str = Some c →
       String.get n (escape str) = Some (if decide (c = space) then hyphen else c))
  ∧ (∀ n, String.get n (escape str) ≠ Some space)
  ∧ escape (escape str) = escape str.
Proof.
  split_and!.
  - apply length_escape.
  - intros n c Hc. by rewrite get_escape, Hc.
  - intros n. rewrite get_escape.
    destruct (String.get n str) as [c|]; simpl; [|done].
    case_decide; [done | congruence].
  - induction str as [|c str IH]; simpl; [done|]. rewrite IH. f_equal.
    repeat case_decide; done.
Qed.

Lemma escape_replaces_every_space_witness :
  String.get 5 (escape "great dodecahedron") = Some hyphen
  ∧ escape "great dodecahedron" = "great-dodecahedron".
Proof.
  destruct (escape_replaces_every_space "great dodecahedron")
    as (_ & Hget & _).
  split; [exact (Hget 5 space eq_refl) | reflexivity].
Defined.

Section MapObject.
Context {T U : Type} (iteratee : T → nat → string * U).
Implicit Types (arr : list T) (key : string).

Lemma entries_lookup (entries : list (string * U)) key :
  foldl (fun obj (entry : string * U) => <[entry.1 := entry.2]> obj)
        (∅ : gmap string U) entries !! key
  = snd <$> last (filter (fun entry : string * U => entry.1 = key) entries).
Proof.
  induction entries as [|[k u] entries IH] using rev_ind; [done|].
  rewrite foldl_app, filter_app. simpl.
  rewrite filter_cons, filter_nil. simpl.
  destruct (decide (k = key)) as [->|Hne].
  - rewrite lookup_insert_eq, last_snoc. done.
  - rewrite lookup_insert_ne by done. by rewrite IH, app_nil_r.
Qed.
End MapObject.

(** X9.  In the object [mapObject] makes, a key holds the value of
    the last entry made for that key, and a key is missing exactly when
    no element of the array is mapped to it. *)
Theorem mapObject_last_entry_wins {T U} (arr : list T)
    (iteratee : T → nat → string * U) (key : string) :
  let entries := imap (fun i item => iteratee item i) arr in
  mapObject arr iteratee !! key
  = snd <$> last (filter (fun entry : string * U => entry.1 = key) entries)
  ∧ (mapObject arr iteratee !! key = None
     ↔ ∀ i item, arr !! i = Some item → (iteratee item i).1 ≠ key).
Proof.
  intros entries. subst entries. unfold mapObject.
  rewrite entries_lookup. split; [done|].
  rewrite fmap_None, last_None. split.
  - intros Hnil i item Hi E.
    assert (iteratee item i ∈ filter (fun entry : string * U => entry.1 = key)
              (imap (fun i item => iteratee item i) arr)) as Hin.
    { apply list_elem_of_filter. split; [done|].
      apply list_elem_of_lookup. exists i.
      by rewrite list_lookup_imap, Hi. }
    rewrite Hnil in Hin. by apply elem_of_nil in Hin.
  - intros Hnone. apply elem_of_nil_inv.
    intros entry [E Hin]%list_elem_of_filter.
    apply list_elem_of_lookup in Hin as [i Hi].
    rewrite list_lookup_imap in Hi.
    destruct (arr !! i) as [item|] eqn:Harr; [|done].
    injection Hi as <-. by eapply Hnone.
Qed.

Lemma flatMapUniq_first_of_each_key_witness :
  flatMapUniq [1; 2] (fun n => [n; n + 1]) id = [1; 2; 3]
  ∧ ∃ x, x ∈ flatMapUniq [1; 2] (fun n => [n; n + 1]) id ∧ id x = id 2.
Proof.
  destruct (flatMapUniq_first_of_each_key [1; 2] (fun n => [n; n + 1]) id)
    as (_ & _ & Hcovers & _).
  split; [reflexivity|].
  apply Hcovers. apply (bool_decide_unpack _). by vm_compute.
Defined.

Lemma mapObject_last_entry_wins_witness :
  mapObject ["a"; "b"; "a"] (fun item i => (item, i)) !! "a" = Some 2
  ∧ mapObject ["a"; "b"; "a"] (fun item i => (item, i)) !! "c" = None.
Proof.
  destruct (mapObject_last_entry_wins ["a"; "b"; "a"]
              (fun item i => (item, i)) "a") as [Hlast _].
  destruct (mapObject_last_entry_wins ["a"; "b"; "a"]
              (fun item i => (item, i)) "c") as [_ Hnone].
  split.
  - rewrite Hlast. reflexivity.
  - apply Hnone. intros i item Hi.
    destruct i as [|[|[|i]]]; simpl in Hi; [| | |done];
      injection Hi as <-; discriminate.
Defined.
End UtilsFacts.

(** ** The transformation graph, continued *)
Section InverseTwice.
Import Relations.

Lemma pairedSymbols_cases (operation : string) :
  operation ∈ pairedSymbols →
  operation = "d" ∨ operation = "g" ∨ operation = "+" ∨ operation = "-".
Proof.
  unfold pairedSymbols. rewrite !elem_of_cons, elem_of_nil. tauto.
Qed.

Lemma getInverseOperation_paired (operation : string) :
  operation ∈ pairedSymbols →
  getInverseOperation operation ∈ pairedSymbols
  ∧ getInverseOperation (getInverseOperation operation) = operation.
Proof.
  intros [->|[->|[->| ->]]]%pairedSymbols_cases;
    (split; [apply (bool_decide_unpack _); by vm_compute | reflexivity]).
Qed.

Lemma getInverseOperation_tagged (operation : string) :
  operation ∉ pairedSymbols →
  getInverseOperation operation ∉ pairedSymbols.
Proof.
  intros Hn. rewrite getInverseOperation_other by done.
  rewrite reversed_tag_unfold. unfold pairedSymbols.
  rewrite !elem_of_cons, elem_of_nil.
  intros [E|[E|[E|[E|[]]]]]; discriminate E.
Qed.
End InverseTwice.

(** X10.  Inverting an operation twice leads back to the operation
    exactly for the four paired symbols, and two different operations
    never have the same inverse. *)
Theorem getInverseOperation_twice (operation : string) :
  (Relations.getInverseOperation (Relations.getInverseOperation operation)
   = operation ↔ operation ∈ Relations.pairedSymbols)
  ∧ (∀ other : string,
       Relations.getInverseOperation other
       = Relations.getInverseOperation operation →
       other = operation).
Proof.
  split.
  - split.
    + intros E. destruct (decide (operation ∈ Relations.pairedSymbols))
        as [|Hn]; [done|]. exfalso.
      rewrite (getInverseOperation_other operation) in E by done.
      rewrite getInverseOperation_other in E
        by (rewrite <- (getInverseOperation_other operation) by done;
            by apply getInverseOperation_tagged).
      rewrite !reversed_tag_unfold in E.
      apply (f_equal String.length) in E. simpl in E. lia.
    + by intros [_ E]%getInverseOperation_paired.
  - intros other E.
    destruct (decide (operation ∈ Relations.pairedSymbols)) as [Hp|Hn],
             (decide (other ∈ Relations.pairedSymbols)) as [Hp'|Hn'].
    + destruct (getInverseOperation_paired _ Hp) as [_ <-].
      destruct (getInverseOperation_paired _ Hp') as [_ <-].
      by rewrite E.
    + exfalso. apply (getInverseOperation_tagged other Hn').
      rewrite E. by apply getInverseOperation_paired.
    + exfalso. apply (getInverseOperation_tagged operation Hn).
      rewrite <- E. by apply getInverseOperation_paired.
    + rewrite !getInverseOperation_other, !reversed_tag_unfold in E by done.
      by injection E.
Qed.

Lemma getInverseOperation_twice_witness :
  Relations.getInverseOperation (Relations.getInverseOperation "+") = "+"
  ∧ Relations.getInverseOperation (Relations.getInverseOperation "t") ≠ "t".
Proof.
  split.
  - apply (proj1 (getInverseOperation_twice "+")).
    apply (bool_decide_unpack _). by vm_compute.
  - intros E. apply (proj1 (getInverseOperation_twice "t")) in E.
    revert E. apply (bool_decide_unpack _). by vm_compute.
Defined.

Section MergeFacts.
Import Relations.

Lemma sinksOf_graphMerge object (other : list Graph) solid operation :
  Forall wfGraph other →
  sinksOf (graphMerge object other) solid operation
  = sinksOf object solid operation
    ++ mjoin ((fun graph => sinksOf graph solid operation) <$> other).
Proof.
  unfold graphMerge. revert object.
  induction other as [|graph other IH]; intros object Hwf.
  { simpl. by rewrite app_nil_r. }
  apply Forall_cons in Hwf as [Hgraph Hother].
  cbn [foldl]. rewrite IH by done.
  rewrite sinksOf_mergeWith by done.
  rewrite fmap_cons. simpl. by rewrite app_assoc.
Qed.

Lemma wfGraph_graphMerge object (other : list Graph) :
  wfGraph object → wfGraph (graphMerge object other).
Proof.
  unfold graphMerge. revert object.
  induction other as [|graph other IH]; intros object Hwf; [done|].
  cbn [foldl]. by apply IH, wfGraph_mergeWith.
Qed.

Lemma objGet_elem {V} (obj : JsObject V) k (v : V) :
  NoDup (keys obj) → (k, v) ∈ obj → objGet obj k = Some v.
Proof.
  unfold keys. induction obj as [|[k' v'] obj IH]; intros Hnd Hin.
  { by apply elem_of_nil in Hin. }
  rewrite fmap_cons in Hnd. apply NoDup_cons in Hnd as [Hk Hnd].
  simpl. apply elem_of_cons in Hin as [[= -> ->]|Hin].
  - by rewrite decide_True.
  - rewrite decide_False; [by apply IH|].
    intros ->. apply Hk. apply list_elem_of_fmap. by exists (k, v).
Qed.

Lemma declared_edge graph source ops operation sinks sink :
  wfGraph graph →
  (source, ops) ∈ graph → (operation, sinks) ∈ ops → sink ∈ sinks →
  edge graph source operation sink.
Proof.
  intros [Hnd Hall] He Ho Hs. unfold edge, sinksOf, candidatesOf.
  rewrite (objGet_elem graph source ops) by done. simpl.
  rewrite Forall_forall in Hall. specialize (Hall _ He). simpl in Hall.
  by rewrite (objGet_elem ops operation sinks).
Qed.
End MergeFacts.

(** X11.  [graphMerge] accumulates: the candidates of a solid and an
    operation in the merged graph are those of the first graph followed by
    those of every further graph, in the order of the arguments; and the
    merged object has no key twice. *)
Theorem graphMerge_concatenates
    (object : Relations.Graph) (other : list Relations.Graph)
    (solid operation : string) :
  Forall Relations.wfGraph other →
  Relations.sinksOf (Relations.graphMerge object other) solid operation
  = Relations.sinksOf object solid operation
    ++ mjoin ((fun graph => Relations.sinksOf graph solid operation) <$> other)
  ∧ (Relations.wfGraph object →
     Relations.wfGraph (Relations.graphMerge object other)).
Proof.
  intros Hother. split.
  - by apply sinksOf_graphMerge.
  - apply wfGraph_graphMerge.
Qed.

Lemma graphMerge_concatenates_witness :
  Relations.sinksOf
    (Relations.graphMerge (Relations.normalize Relations.archimedean)
       [Relations.normalize Relations.othersGraph]) "T" "s"
  = [] ++ [JsString "J84"] ++ [].
Proof.
  apply (proj1 (graphMerge_concatenates
                  (Relations.normalize Relations.archimedean)
                  [Relations.normalize Relations.othersGraph] "T" "s"
                  ltac:(apply Forall_cons; split; [|apply Forall_nil_2];
                        split; apply (bool_decide_unpack _); by vm_compute))).
Defined.

(** X12.  [makeBidirectional] adds inverse edges only, and puts them
    first: the candidates of a solid and an operation in the closed graph
    are new candidates followed by the declared ones, and every new
    candidate is the source of a declared edge into the solid, by an
    operation whose inverse is the operation asked for, from another
    solid. *)
Theorem makeBidirectional_adds_inverse_edges_only
    (graph : Relations.Graph) (solid operation : string) :
  Relations.wfGraph graph →
  ∃ reversed,
    Relations.sinksOf (Relations.makeBidirectional graph) solid operation
    = reversed ++ Relations.sinksOf graph solid operation
    ∧ ∀ candidate, candidate ∈ reversed →
        ∃ source declared : string,
          candidate = JsString source
          ∧ Relations.edge graph source declared (JsString solid)
          ∧ Relations.getInverseOperation declared = operation
          ∧ solid ≠ "" ∧ solid ≠ source.
Proof.
  intros Hwf. exists (Relations.reverseSources graph solid operation).
  split; [by apply sinksOf_makeBidirectional|].
  intros candidate
    (source & ops & declared & sinks & He & Ho & Hs & -> & ? & ? & ?)
      %elem_of_reverseSources.
  exists source, declared. split_and!; [done| |done..].
  by eapply declared_edge.
Qed.

Lemma makeBidirectional_adds_inverse_edges_only_witness :
  ∃ reversed,
    Relations.sinksOf
      (Relations.makeBidirectional (Relations.normalize Relations.archimedean))
      "O" "~r"
    = reversed
      ++ Relations.sinksOf (Relations.normalize Relations.archimedean) "O" "~r"
    ∧ ∀ candidate, candidate ∈ reversed →
        ∃ source declared : string,
          candidate = JsString source
          ∧ Relations.edge (Relations.normalize Relations.archimedean)
              source declared (JsString "O")
          ∧ Relations.getInverseOperation declared = "~r"
          ∧ "O" ≠ "" ∧ "O" ≠ source.
Proof.
  apply (makeBidirectional_adds_inverse_edges_only
           (Relations.normalize Relations.archimedean) "O" "~r").
  split; [apply (bool_decide_unpack _); by vm_compute|].
  repeat (apply Forall_cons; split;
          [apply (bool_decide_unpack _); by vm_compute|]).
  apply Forall_nil_2.
Defined.

Section ReverseKeys.
Import Relations.
Implicit Types (graph result : Graph) (ops : JsObject (list JsValue)).





End ReverseKeys.



(** ** The polyhedron reducer, continued *)
(** X14.  An [APPLY_OPERATION] request whose symbol is neither in the
    table of operations nor the name of something an object literal
    inherits leaves the state as it is, and so does every request of
    another type. *)
Theorem polyhedron_ignores_unknown_requests
    {Data Config : Type} (isValidSolid : string → bool)
    (Polyhedron_get : string → Outcome Data)
    (augment diminish gyrate : Data → Config → Outcome Data)
    (callInherited : string → Data → Config → Outcome Data)
    (state : Reducer.State Data) :
  let reduce :=
    Reducer.polyhedron isValidSolid Polyhedron_get
      augment diminish gyrate callInherited in
  (∀ (operation name : string) (config : Config),
     operation ∉ Reducer.knownSymbols augment diminish gyrate →
     operation ∉ Reducer.objectPrototypeMethods →
     operation ≠ "__proto__" →
     reduce state (Reducer.applyOperation operation name config)
     = Returns state)
  ∧ (∀ type : string, reduce state (Reducer.OtherAction type) = Returns state).
Proof.
  intros reduce. split.
  - intros operation name config Hknown Hmethod Hproto.
    by apply polyhedron_unknown_operation.
  - intros type. reflexivity.
Qed.

Lemma polyhedron_ignores_unknown_requests_witness :
  let op := fun (d : nat) (_ : unit) => Returns (S d) in
  let state := {| Reducer.name := "cube"; Reducer.data := 11 |} in
  Reducer.polyhedron (fun _ => true) (fun _ => Returns 0) op op op
    (fun _ => op) state (Reducer.applyOperation "t" "octahedron" tt)
  = Returns state.
Proof.
  intros op state.
  apply (proj1 (polyhedron_ignores_unknown_requests (fun _ => true)
                  (fun _ => Returns 0) op op op (fun _ => op) state)).
  - apply (bool_decide_unpack _). by vm_compute.
  - apply (bool_decide_unpack _). by vm_compute.
  - discriminate.
Defined.

(** X15.  A [SET_POLYHEDRON] request for a valid solid that loads
    yields the same state whatever the state before, and repeating it
    changes nothing; a request for an invalid solid changes nothing; and
    on the state so set, the symbols ['+'], ['-'] and ['g'] apply
    [augment], [diminish] and [gyrate] to the loaded polyhedron and the
    configuration, and store the result under the requested name or fail
    as the operation fails. *)
Theorem polyhedron_set_then_apply
    {Data Config : Type} (isValidSolid : string → bool)
    (Polyhedron_get : string → Outcome Data)
    (augment diminish gyrate : Data → Config → Outcome Data)
    (callInherited : string → Data → Config → Outcome Data)
    (name : string) (loaded : Data) :
  let reduce :=
    Reducer.polyhedron isValidSolid Polyhedron_get
      augment diminish gyrate callInherited in
  let stored (next : string) (result : Outcome Data) :=
    match result with
    | Returns d => Returns {| Reducer.name := next; Reducer.data := d |}
    | Throws e => Throws e
    end in
  isValidSolid name = true →
  Polyhedron_get name = Returns loaded →
  ∃ set : Reducer.State Data,
    (∀ state, reduce state (Reducer.setPolyhedron name) = Returns set)
    ∧ reduce set (Reducer.setPolyhedron name) = Returns set
    ∧ (∀ other state,
         isValidSolid other = false →
         reduce state (Reducer.setPolyhedron other) = Returns state)
    ∧ (∀ next config,
         reduce set (Reducer.applyOperation "+" next config)
         = stored next (augment loaded config)
         ∧ reduce set (Reducer.applyOperation "-" next config)
           = stored next (diminish loaded config)
         ∧ reduce set (Reducer.applyOperation "g" next config)
           = stored next (gyrate loaded config)).
Proof.
  intros reduce stored Hvalid Hloaded.
  exists {| Reducer.name := name; Reducer.data := loaded |}.
  subst reduce stored. unfold Reducer.polyhedron, Reducer.setPolyhedron.
  rewrite Hvalid, Hloaded. simpl. split_and!; try done.
  intros other state ->. done.
Qed.

Lemma polyhedron_set_then_apply_witness :
  let isValidSolid := fun s : string => bool_decide (s = "cube") in
  let get := fun s : string => Returns (String.length s) in
  let op := fun (k : nat) (d : nat) (_ : unit) => Returns (k + d) in
  ∃ set,
    Reducer.polyhedron isValidSolid get (op 10) (op 20) (op 30)
      (fun _ => op 0) {| Reducer.name := "tetrahedron"; Reducer.data := 7 |}
      (Reducer.setPolyhedron "cube") = Returns set
    ∧ Reducer.polyhedron isValidSolid get (op 10) (op 20) (op 30)
        (fun _ => op 0) set (Reducer.applyOperation "-" "x" tt)
      = Returns {| Reducer.name := "x"; Reducer.data := 24 |}.
Proof.
  intros isValidSolid get op.
  destruct (polyhedron_set_then_apply isValidSolid get (op 10) (op 20) (op 30)
              (fun _ => op 0) "cube" 4 eq_refl eq_refl)
    as (set & Hset & _ & _ & Happly).
  exists set. split; [apply Hset|].
  destruct (Happly "x" tt) as (_ & Hdiminish & _). exact Hdiminish.
Defined.

(** ** The operation utilities, continued *)
Section OperationUtilsFacts.
Import OperationUtils.

Section TwoValues.
Context {A : Type} `{!EqDecision A} (P : A → Prop) `{!∀ a, Decision (P a)}.

Lemma two_in_filter (l : list A) :
  NoDup l →
  1 < length (filter P l) ↔ ∃ a b, a ∈ l ∧ b ∈ l ∧ P a ∧ P b ∧ a ≠ b.
Proof.
  intros Hnd. pose proof (NoDup_filter P l Hnd) as Hnd'. split.
  - intros Hlen. destruct (filter P l) as [|a [|b k]] eqn:E;
      [simpl in Hlen; lia..|].
    assert (a ∈ filter P l ∧ b ∈ filter P l) as [Ha Hb].
    { rewrite E. split; [apply list_elem_of_here|].
      apply list_elem_of_further, list_elem_of_here. }
    apply list_elem_of_filter in Ha as [? ?].
    apply list_elem_of_filter in Hb as [? ?].
    exists a, b. split_and!; try done.
    apply NoDup_cons in Hnd' as [Hnot _].
    intros ->. apply Hnot, list_elem_of_here.
  - intros (a & b & Ha & Hb & HPa & HPb & Hne).
    assert (a ∈ filter P l) as Ha' by by apply list_elem_of_filter.
    assert (b ∈ filter P l) as Hb' by by apply list_elem_of_filter.
    destruct (filter P l) as [|x [|y k]]; [by apply elem_of_nil in Ha'| |simpl; lia].
    apply list_elem_of_singleton in Ha', Hb'. congruence.
Qed.
End TwoValues.

(** X16.  [hasMultiple] holds exactly when two of the relations have
    different truthy values of the property; without a list of relations
    it does not hold. *)
Theorem hasMultiple_two_different_values {R A} `{!EqDecision A}
    (isTruthy : A → bool) (relations : option (list R)) (property : R → A) :
  (hasMultiple isTruthy relations property = true
   ↔ ∃ r1 r2, r1 ∈ default [] relations ∧ r2 ∈ default [] relations
              ∧ isTruthy (property r1) = true
              ∧ isTruthy (property r2) = true
              ∧ property r1 ≠ property r2)
  ∧ hasMultiple isTruthy None property = false.
Proof.
  split; [|reflexivity].
  unfold hasMultiple. rewrite bool_decide_eq_true.
  set (values := property <$> default [] relations).
  assert (NoDup (Utils.uniqBy values id)) as Hnd.
  { rewrite <- (list_fmap_id (Utils.uniqBy values id)).
    apply uniqByFrom_keys_NoDup. }
  assert (∀ a, a ∈ Utils.uniqBy values id ↔ a ∈ values) as Hin.
  { intros a. split.
    - by intros [? _]%elem_of_uniqByFrom.
    - intros Ha.
      destruct (uniqByFrom_covers id [] values a Ha (not_elem_of_nil _))
        as (x & Hx & E). simpl in E. by subst. }
  rewrite two_in_filter by done. split.
  - intros (a & b & Ha & Hb & HPa & HPb & Hne).
    apply Hin, list_elem_of_fmap in Ha as (r1 & -> & Hr1).
    apply Hin, list_elem_of_fmap in Hb as (r2 & -> & Hr2).
    by exists r1, r2.
  - intros (r1 & r2 & Hr1 & Hr2 & HP1 & HP2 & Hne).
    exists (property r1), (property r2).
    split_and!; try done; apply Hin, list_elem_of_fmap; eauto.
Qed.

Lemma hasMultiple_two_different_values_witness :
  hasMultiple (fun s : string => negb (bool_decide (s = "")))
    (Some [("a", "ortho"); ("b", ""); ("c", "gyro")]) snd = true
  ∧ hasMultiple (fun s : string => negb (bool_decide (s = "")))
      (Some [("a", "ortho"); ("b", ""); ("c", "ortho")]) snd = false.
Proof.
  split.
  - apply (proj1 (hasMultiple_two_different_values _ _ _)).
    exists ("a", "ortho"), ("c", "gyro").
    split_and!; (apply (bool_decide_unpack _); by vm_compute) || done.
  - reflexivity.
Defined.

Section Writes.
Context {W : Type}.
Implicit Types (result : list (Slot W)) (writes : list (nat * W)).

Local Abbreviation write :=
  (fun result (w : nat * W) => assign result w.1 (Mapped w.2)).

Lemma length_assign result i x :
  length (assign result i x) = length result `max` S i.
Proof.
  unfold assign. case_decide.
  - rewrite length_insert. lia.
  - rewrite !length_app, length_replicate. simpl. lia.
Qed.

Lemma lookup_assign result i x j :
  assign result i x !! j
  = if decide (j = i) then Some x
    else if decide (j < length result) then result !! j
    else if decide (j < i) then Some Hole else None.
Proof.
  unfold assign. case_decide as Hi.
  - destruct (decide (j = i)) as [->|Hne].
    + by rewrite list_lookup_insert_eq.
    + rewrite list_lookup_insert_ne by done.
      case_decide; [done|]. rewrite lookup_ge_None_2 by lia.
      case_decide; [lia | done].
  - destruct (decide (j = i)) as [->|Hne].
    + rewrite lookup_app_r by lia.
      rewrite lookup_app_r by (rewrite length_replicate; lia).
      rewrite length_replicate, Nat.sub_diag. done.
    + case_decide.
      * by rewrite lookup_app_l.
      * rewrite lookup_app_r by lia. case_decide.
        -- rewrite lookup_app_l by (rewrite length_replicate; lia).
           apply lookup_replicate_2. lia.
        -- apply lookup_ge_None_2.
           rewrite length_app, length_replicate. simpl. lia.
Qed.

(** After a series of writes an index holds the last value written to
    it; an index never written holds what it held before, and past the
    end of the array it started from it holds nothing. *)
Lemma lookup_writes result writes j :
  foldl write result writes !! j
  = match last (filter (fun w : nat * W => w.1 = j) writes) with
    | Some w => Some (Mapped w.2)
    | None =>
        if decide (j < length result) then result !! j
        else if decide (j < length (foldl write result writes))
             then Some Hole else None
    end.
Proof.
  induction writes as [|[i w] writes IH] using rev_ind.
  { simpl. repeat case_decide; try done; try lia.
    by apply lookup_ge_None_2; lia. }
  rewrite foldl_app, filter_app. simpl.
  rewrite lookup_assign, length_assign, filter_cons, filter_nil. simpl.
  destruct (decide (j = i)) as [->|Hne].
  - rewrite (decide_True (P := i = i)) by done. by rewrite last_snoc.
  - rewrite (decide_False (P := i = j)) by congruence. rewrite app_nil_r, IH.
    destruct (last (filter _ writes)) as [w'|].
    + case_decide as Hlt; [done|].
      apply lookup_lt_Some in IH. lia.
    + assert (length result ≤ length (foldl write result writes)) as Hgrow.
      { clear. induction writes as [|[i' w'] writes IH'] using rev_ind;
          [done|].
        rewrite foldl_app. simpl. rewrite length_assign. lia. }
      repeat case_decide; try done; try lia.
Qed.
End Writes.

Section MappedVertices.
Context {V W : Type} (iteratee : nat → Face V → W).
Implicit Types (faces : list (Face V)) (result : list (Slot W)).

Local Abbreviation write :=
  (fun result (w : nat * W) => assign result w.1 (Mapped w.2)).
Local Abbreviation writesOf :=
  (fun face : Face V => (fun v => (v, iteratee v face)) <$> faceVertices face).

Lemma writes_of_faces result faces :
  foldl (fun result face =>
           foldl (fun result v => assign result v (Mapped (iteratee v face)))
                 result (faceVertices face))
        result faces
  = foldl write result (mjoin (writesOf <$> faces)).
Proof.
  revert result. induction faces as [|face faces IH]; intros result; [done|].
  rewrite fmap_cons. change (mjoin (?l :: ?ls)) with (l ++ mjoin ls).
  rewrite foldl_app. cbn [foldl]. rewrite IH. f_equal.
  generalize (faceVertices face). intros l. revert result.
  induction l as [|v l IHl]; intros result; [done|]. simpl. apply IHl.
Qed.

Lemma last_write faces j :
  last (filter (fun w : nat * W => w.1 = j) (mjoin (writesOf <$> faces)))
  = (fun face => (j, iteratee j face))
      <$> last (filter (fun face => j ∈ faceVertices face) faces).
Proof.
  induction faces as [|face faces IH] using rev_ind; [done|].
  rewrite fmap_app, join_app, !filter_app. simpl.
  rewrite app_nil_r, filter_cons, filter_nil.
  rewrite !last_app.
  destruct (decide (j ∈ faceVertices face)) as [Hin|Hout].
  - simpl. 
    destruct (last (filter (fun w : nat * W => w.1 = j)
                       ((fun v => (v, iteratee v face)) <$> faceVertices face)))
      as [x|] eqn:E.
    + apply last_Some_elem_of, list_elem_of_filter in E as [Hx H].
      apply list_elem_of_fmap in H as (v & -> & _). simpl in Hx. by subst.
    + exfalso. apply last_None in E.
      assert ((j, iteratee j face)
                ∈ filter (fun w : nat * W => w.1 = j)
                    ((fun v => (v, iteratee v face)) <$> faceVertices face))
        as H.
      { apply list_elem_of_filter. split; [done|].
        apply list_elem_of_fmap. eauto. }
      rewrite E in H. by apply elem_of_nil in H.
  - assert (filter (fun w : nat * W => w.1 = j)
              ((fun v => (v, iteratee v face)) <$> faceVertices face) = [])
      as ->.
    { apply elem_of_nil_inv. intros x [Hx H]%list_elem_of_filter.
      apply list_elem_of_fmap in H as (v & -> & Hv). simpl in Hx.
      by subst. }
    simpl. done.
Qed.

Lemma length_writes_in_range result (writes : list (nat * W)) :
  (∀ w, w ∈ writes → w.1 < length result) →
  length (foldl write result writes) = length result.
Proof.
  induction writes as [|w writes IH] using rev_ind; intros Hall; [done|].
  rewrite foldl_app. simpl. rewrite length_assign, IH.
  - assert (w.1 < length result)
      by (apply Hall, elem_of_app; right; apply list_elem_of_here).
    lia.
  - intros w' Hw'. apply Hall, elem_of_app. by left.
Qed.

Lemma length_writes_grows result (writes : list (nat * W)) :
  length result ≤ length (foldl write result writes).
Proof.
  induction writes as [|w writes IH] using rev_ind; [done|].
  rewrite foldl_app. simpl. rewrite length_assign. lia.
Qed.
End MappedVertices.

(** X17.  [getMappedVertices] throws a [TypeError] on an empty list of
    faces.  Otherwise the array it returns holds, at the index of a vertex
    of one of the faces, what the iteratee returns for that vertex and the
    last face that has it; at any other index of a vertex, the vertex of
    the first face's polyhedron; and it is as long as that polyhedron has
    vertices when the faces reference only those. *)
Theorem getMappedVertices_last_face_wins {V W}
    (faces : list (Face V)) (iteratee : nat → Face V → W) :
  let touched (j : nat) := filter (fun face => j ∈ faceVertices face) faces in
  (faces = [] → getMappedVertices faces iteratee = Throws TypeError)
  ∧ (∀ face0, head faces = Some face0 →
       let n := length (vertices (polyhedron face0)) in
       ∃ result,
         getMappedVertices faces iteratee = Returns result
         ∧ n ≤ length result
         ∧ (∀ j face, last (touched j) = Some face →
              result !! j = Some (Mapped (iteratee j face)))
         ∧ (∀ j, touched j = [] →
              (j < n → result !! j = Some (Original j))
              ∧ (n ≤ j → result !! j = None ∨ result !! j = Some Hole))
         ∧ ((∀ face v, face ∈ faces → v ∈ faceVertices face → v < n) →
            length result = n)).
Proof.
  intros touched. split; [by intros ->|].
  intros face0 Hhead n.
  destruct faces as [|face faces']; [done|]. injection Hhead as ->.
  set (faces := face0 :: faces') in *.
  eexists. split; [reflexivity|].
  rewrite writes_of_faces.
  split_and!.
  - etrans; [|apply length_writes_grows].
    by rewrite length_fmap, length_seq.
  - intros j face Hlast. rewrite lookup_writes, last_write.
    fold (touched j). by rewrite Hlast.
  - intros j Hnone. rewrite lookup_writes, last_write.
    fold (touched j). rewrite Hnone.
    cbn [last fmap option_fmap option_map].
    rewrite (length_fmap Original), length_seq. split.
    + intros Hj. rewrite decide_True by done.
      rewrite list_lookup_fmap, lookup_seq_lt by done. done.
    + intros Hj. rewrite decide_False by lia. case_decide; auto.
  - intros Hvalid. rewrite length_writes_in_range.
    { by rewrite length_fmap, length_seq. }
    intros w (l & Hw & Hl)%list_elem_of_join.
    apply list_elem_of_fmap in Hl as (face & -> & Hface).
    apply list_elem_of_fmap in Hw as (v & -> & Hv). simpl.
    rewrite length_fmap, length_seq. by eapply Hvalid.
Qed.

Lemma getMappedVertices_last_face_wins_witness :
  let faces :=
    [ {| polyhedron := Samples.tetrahedron; faceIndex := 0 |};
      {| polyhedron := Samples.tetrahedron; faceIndex := 1 |} ] in
  ∃ result,
    getMappedVertices faces (fun v face => (v, faceIndex face))
    = Returns result
    ∧ result !! 0 = Some (Mapped (0, 1))
    ∧ result !! 2 = Some (Mapped (2, 0))
    ∧ length result = 4.
Proof.
  intros faces.
  destruct (proj2 (getMappedVertices_last_face_wins faces
                     (fun v face => (v, faceIndex face)))
              {| polyhedron := Samples.tetrahedron; faceIndex := 0 |} eq_refl)
    as (result & Hresult & _ & Hlast & _ & Hlen).
  exists result. split_and!.
  - exact Hresult.
  - apply (Hlast 0 {| polyhedron := Samples.tetrahedron; faceIndex := 1 |}).
    reflexivity.
  - apply (Hlast 2 {| polyhedron := Samples.tetrahedron; faceIndex := 0 |}).
    reflexivity.
  - apply Hlen. intros face v Hface.
    apply elem_of_cons in Hface as [->|Hface];
      [|apply list_elem_of_singleton in Hface as ->];
      revert v; apply Forall_forall, (bool_decide_unpack _); by vm_compute.
Defined.

(** X18.  [removeExtraneousVertices] returns a polyhedron in which
    every vertex is used as it is, so applying it twice is applying it
    once; and it removes as many vertices as no face uses. *)
Theorem removeExtraneousVertices_idempotent {V} (p : Polyhedron V) :
  (allReferenced p → removeExtraneousVertices p = p)
  ∧ removeExtraneousVertices (removeExtraneousVertices p)
    = removeExtraneousVertices p
  ∧ length (vertices (removeExtraneousVertices p)) + length (toRemove p)
    = length (vertices p).
Proof.
  split_and!.
  - apply removeExtraneousVertices_fixed.
  - apply removeExtraneousVertices_fixed,
      removeExtraneousVertices_allReferenced.
  - rewrite length_removeExtraneousVertices.
    pose proof (length_toRemove_le p). lia.
Qed.

Lemma allReferenced_check {V} (p : Polyhedron V) :
  Forall (fun v => v ∈ mjoin (faces p)) (seq 0 (length (vertices p))) →
  allReferenced p.
Proof.
  intros Hall v Hv. rewrite Forall_forall in Hall.
  apply Hall, elem_of_seq. lia.
Qed.

Lemma tetrahedron_allReferenced : allReferenced Samples.tetrahedron.
Proof. apply allReferenced_check. decide_by_computation. Qed.

Lemma removeExtraneousVertices_idempotent_witness :
  removeExtraneousVertices Samples.tetrahedron = Samples.tetrahedron
  ∧ removeExtraneousVertices
      (removeExtraneousVertices Samples.tetrahedronWithStray)
    = removeExtraneousVertices Samples.tetrahedronWithStray.
Proof.
  split.
  - apply (proj1 (removeExtraneousVertices_idempotent Samples.tetrahedron)).
    apply tetrahedron_allReferenced.
  - apply (proj1 (proj2 (removeExtraneousVertices_idempotent
                          Samples.tetrahedronWithStray))).
Defined.

Section DeduplicateResult.
Context {V : Type} (equalsWithTolerance : V → V → bool).
Local Abbreviation dedup := (deduplicateVertices equalsWithTolerance).

Lemma vertices_deduplicateVertices p a :
  a ∈ vertices (dedup p) → a ∈ vertices p.
Proof.
  intros [j Hj]%list_elem_of_lookup_1. rewrite deduplicateVertices_unfold in Hj.
  pose proof (lookup_lt_Some _ _ _ Hj) as Hlt.
  rewrite length_removeExtraneousVertices in Hlt.
  rewrite lookup_removeExtraneousVertices in Hj by done.
  by eapply list_elem_of_lookup_2.
Qed.

Lemma length_vertices_deduplicateVertices p :
  length (vertices (dedup p)) ≤ length (vertices p).
Proof.
  rewrite deduplicateVertices_unfold, length_removeExtraneousVertices.
  simpl. lia.
Qed.

Lemma length_faces_deduplicateVertices p :
  length (faces (dedup p)) ≤ length (faces p).
Proof.
  rewrite deduplicateVertices_unfold, faces_removeExtraneousVertices.
  rewrite length_fmap. unfold mergedFaces. simpl.
  etrans; [apply length_filter|]. by rewrite length_fmap.
Qed.
End DeduplicateResult.

(** X19.  After [deduplicateVertices], for a symmetric comparison and
    faces that reference existing vertices, no two vertices are equal
    within the tolerance; every vertex of the result is a vertex of the
    polyhedron; and the result has no more vertices and no more faces. *)
Theorem deduplicateVertices_leaves_no_equal_vertices
    {V : Type} (equalsWithTolerance : V → V → bool) (p : Polyhedron V) :
  (∀ a b, equalsWithTolerance a b = equalsWithTolerance b a) →
  validFaces p →
  let q := deduplicateVertices equalsWithTolerance p in
  (∀ i j a b, i ≠ j →
     vertices q !! i = Some a → vertices q !! j = Some b →
     equalsWithTolerance a b = false)
  ∧ (∀ a, a ∈ vertices q → a ∈ vertices p)
  ∧ length (vertices q) ≤ length (vertices p)
  ∧ length (faces q) ≤ length (faces p).
Proof.
  intros Hsym Hvalid q. subst q. split_and!.
  - intros i j a b Hne Hi Hj.
    destruct (decide (i < j)) as [Hlt|Hge].
    + rewrite Hsym.
      by apply (deduplicateVertices_distinct equalsWithTolerance p Hsym
                  Hvalid i j a b).
    + apply (deduplicateVertices_distinct equalsWithTolerance p Hsym
               Hvalid j i b a); [lia | done..].
  - apply vertices_deduplicateVertices.
  - apply length_vertices_deduplicateVertices.
  - apply length_faces_deduplicateVertices.
Qed.

Lemma deduplicateVertices_leaves_no_equal_vertices_witness :
  let q := deduplicateVertices (Samples.gridEquals 1) Samples.flatOctahedron in
  (∀ i j a b, i ≠ j →
     vertices q !! i = Some a → vertices q !! j = Some b →
     Samples.gridEquals 1 a b = false)
  ∧ length (vertices q) = 5.
Proof.
  intros q. split; [|by vm_compute].
  apply (deduplicateVertices_leaves_no_equal_vertices (Samples.gridEquals 1)
           Samples.flatOctahedron).
  - apply gridEquals_sym.
  - apply flatOctahedron_wellFormed.
Defined.

(** X20.  [deduplicateVertices] returns a polyhedron as it is when no
    two of its vertices are equal within the tolerance, every vertex is
    used, and every face has at least three different existing
    vertices. *)
Theorem deduplicateVertices_keeps_clean_polyhedron
    {V : Type} (equalsWithTolerance : V → V → bool) (p : Polyhedron V) :
  (∀ i j a b, i < j → vertices p !! i = Some a → vertices p !! j = Some b →
     equalsWithTolerance b a = false) →
  validFaces p → distinctFaces p → allReferenced p →
  deduplicateVertices equalsWithTolerance p = p.
Proof. apply deduplicateVertices_fixed. Qed.

Lemma deduplicateVertices_keeps_clean_polyhedron_witness :
  deduplicateVertices (Samples.gridEquals 1) Samples.tetrahedron
  = Samples.tetrahedron.
Proof.
  apply deduplicateVertices_keeps_clean_polyhedron.
  - intros i j a b Hij Hi Hj.
    assert (j < 4) as Hj4 by (apply lookup_lt_Some in Hj; exact Hj).
    destruct j as [|[|[|[|j]]]]; [lia| | | |simpl in Hj4; lia];
      destruct i as [|[|[|i]]]; try lia;
      injection Hi as <-; injection Hj as <-; reflexivity.
  - apply tetrahedron_wellFormed.
  - apply tetrahedron_wellFormed.
  - apply tetrahedron_allReferenced.
Defined.

(** X21.  With either twist, the two bridging triangles of an edge are
    the bridging quadrilateral of no twist cut along one diagonal: their
    sides are the four sides of the quadrilateral, in the same direction,
    and the diagonal, once in each direction. *)
Theorem getEdgeFacePaths_splits_quadrilateral (e : Edge) (twist : Twist) :
  ∃ first second quadrilateral,
    getEdgeFacePaths e (Some twist) = [first; second]
    ∧ getEdgeFacePaths e None = [quadrilateral]
    ∧ quadrilateral
      = [(f1 e, v2 e); (f1 e, v1 e); (f2 e, v1 e); (f2 e, v2 e)]
    ∧ diagonal e twist ∈ faceEdges first
    ∧ ((diagonal e twist).2, (diagonal e twist).1) ∈ faceEdges second
    ∧ faceEdges first ++ faceEdges second
      ≡ₚ faceEdges quadrilateral
         ++ [diagonal e twist;
             ((diagonal e twist).2, (diagonal e twist).1)].
Proof.
  destruct twist; simpl; do 3 eexists;
    (split; [reflexivity|]); (split; [reflexivity|]); (split; [reflexivity|]);
    rewrite !faceEdges_three, faceEdges_four; simpl.
  all: split; [set_solver|]; split; [set_solver|].
  all: repeat (first [ apply Permutation_skip
                     | apply (Permutation_cons_app [_] _ _)
                     | apply (Permutation_cons_app [_; _] _ _)
                     | apply (Permutation_cons_app [_; _; _] _ _)
                     | apply (Permutation_cons_app [_; _; _; _] _ _)
                     | apply (Permutation_cons_app [_; _; _; _; _] _ _) ];
               simpl).
  all: reflexivity.
Qed.

Section Definedness.
Context {V : Type} (adjacency : Adjacency) (p : Polyhedron V).
Local Abbreviation n := (length (vertices p)).
Local Abbreviation adj := (adjacentFaces adjacency).
Local Abbreviation mapping := (newVertexMapping adjacency p).

Lemma newVertexMapping_is_Some f v :
  is_Some (mapping !! (f, v)) ↔ v < n ∧ f ∈ adj v.
Proof.
  split.
  - intros [d (Hv & i & Hi & _)%newVertexMapping_lookup].
    split; [done|]. by eapply list_elem_of_lookup_2.
  - intros [Hv Hf].
    destruct (newVertexMapping_defined adjacency p f v Hv Hf) as (i & _ & E).
    by rewrite E.
Qed.

Lemma edge_paths_all e twist f v :
  (f = f1 e ∨ f = f2 e) → (v = v1 e ∨ v = v2 e) →
  (f, v) ∈ mjoin (getEdgeFacePaths e twist).
Proof.
  intros [->| ->] [->| ->]; destruct twist as [[]|]; simpl; set_solver.
Qed.
End Definedness.

(** X22.  [duplicateVertices] yields faces without an [undefined]
    entry exactly when every vertex of every face exists and has the face
    among its adjacent faces, and the two ends of every edge exist and
    have both faces of the edge among their adjacent faces. *)
Theorem duplicateVertices_defined {V : Type}
    (adjacency : Adjacency) (p : Polyhedron V) (twist : option Twist) :
  let n := length (vertices p) in
  let adj := adjacentFaces adjacency in
  is_Some (duplicateVertices adjacency p twist)
  ↔ (∀ f face v, faces p !! f = Some face → v ∈ face → v < n ∧ f ∈ adj v)
    ∧ (∀ e, e ∈ edges adjacency →
         v1 e < n ∧ v2 e < n
         ∧ f1 e ∈ adj (v1 e) ∧ f1 e ∈ adj (v2 e)
         ∧ f2 e ∈ adj (v1 e) ∧ f2 e ∈ adj (v2 e)).
Proof.
  intros n adj. subst n adj. unfold duplicateVertices.
  set (mapped := mapM _ (imap _ (faces p))).
  set (bridges := mapM _ (Utils.flatMap _ _)).
  assert (is_Some (mapped ≫= fun m => bridges ≫= fun b =>
                     Some {| vertices :=
                               Utils.flatMap (vertices p)
                                 (fun v => Utils.repeat v (count adjacency));
                             faces :=
                               m ++ ((fun v => seq (v * count adjacency)
                                                 (count adjacency))
                                       <$> seq 0 (length (vertices p)))
                                 ++ b |})
          ↔ is_Some mapped ∧ is_Some bridges) as ->.
  { destruct mapped, bridges; simpl; split;
      intros H; try done; try (by destruct H as [[? [=]] ?]);
      try (by destruct H as [? [? [=]]]); try (by destruct H as [? [=]]);
      by eauto. }
  subst mapped bridges. rewrite !mapM_is_Some, !Forall_forall.
  split.
  - intros [Hfaces Hbridges]. split.
    + intros f face v Hf Hv.
      specialize (Hfaces (f, face) (proj2 (elem_of_indexed _ _ _) Hf)).
      simpl in Hfaces. rewrite mapM_is_Some, Forall_forall in Hfaces.
      by apply newVertexMapping_is_Some, Hfaces.
    + intros e He.
      assert (∀ f v, (f = f1 e ∨ f = f2 e) → (v = v1 e ∨ v = v2 e) →
                v < length (vertices p) ∧ f ∈ adjacentFaces adjacency v)
        as Hcorner.
      { intros f v Hf Hv.
        pose proof (edge_paths_all e twist f v Hf Hv)
          as (paths & Hpath & Hpaths)%list_elem_of_join.
        apply newVertexMapping_is_Some.
        assert (paths ∈ Utils.flatMap (edges adjacency)
                          (fun edge => getEdgeFacePaths edge twist)) as Hin.
        { unfold Utils.flatMap. apply list_elem_of_join.
          exists (getEdgeFacePaths e twist). split; [done|].
          apply list_elem_of_fmap. eauto. }
        specialize (Hbridges paths Hin). simpl in Hbridges.
        rewrite mapM_is_Some, Forall_forall in Hbridges.
        by apply Hbridges. }
      pose proof (Hcorner (f1 e) (v1 e)). pose proof (Hcorner (f1 e) (v2 e)).
      pose proof (Hcorner (f2 e) (v1 e)). pose proof (Hcorner (f2 e) (v2 e)).
      intuition.
  - intros [Hfaces Hedges]. split.
    + intros [f face] Hin%elem_of_indexed. simpl.
      apply mapM_is_Some, Forall_forall. intros v Hv.
      apply newVertexMapping_is_Some. by eapply Hfaces.
    + intros paths Hpaths. unfold Utils.flatMap in Hpaths.
      apply list_elem_of_join in Hpaths as (ps & Hpaths & Hps).
      apply list_elem_of_fmap in Hps as (e & -> & He). simpl.
      apply mapM_is_Some, Forall_forall. intros [f v] Hpath.
      destruct (edge_paths e twist (f, v)) as [Hf Hv];
        [apply list_elem_of_join; eauto|]. simpl in Hf, Hv.
      apply newVertexMapping_is_Some.
      destruct (Hedges e He) as (? & ? & ? & ? & ? & ?).
      destruct Hf as [->| ->], Hv as [->| ->]; done.
Qed.

Lemma duplicateVertices_defined_witness :
  is_Some (duplicateVertices Samples.squarePyramidAdjacency
             Samples.squarePyramid None)
  ∧ ¬ is_Some (duplicateVertices
                 {| getVertex := 0; adjacentFaces := fun _ => [0];
                    edges := [] |}
                 Samples.tetrahedron None).
Proof.
  split.
  - apply (proj2 (duplicateVertices_defined Samples.squarePyramidAdjacency
                    Samples.squarePyramid None)).
    destruct squarePyramid_adjacency as (Hadj & _ & Hedges).
    split.
    + intros f face v Hf Hv. split; [|by eapply Hadj].
      eapply (proj1 squarePyramid_wellFormed); [|done].
      by eapply list_elem_of_lookup_2.
    + intros e He. destruct (Hedges e He) as (? & ? & _ & _ & ? & ? & ? & ?).
      done.
  - intros [Hfaces _]%duplicateVertices_defined.
    destruct (Hfaces 1 [0; 1; 3] 0 eq_refl ltac:(apply list_elem_of_here)) as [_ Hin].
    revert Hin. apply (bool_decide_unpack _). by vm_compute.
Defined.
End OperationUtilsFacts.
